(** * Incremental search index of better-imessage: model and properties

    A shallow embedding of
      - server/helpers/text.js         (binary text extractor, resolver),
      - server/services/searchIndex.js (index store, incremental indexer),
      - server/routes/search.js        (query engine),
    and of what surrounds them (the periodic update, the contact store,
    the filters, the links and the previews), followed by the properties
    of the indexing subsystem and of these.

    JavaScript strings are sequences of UTF-16 code units, buffers are
    lists of bytes, database tables are finite maps or row lists, and
    every promisified database call is a step of a state-and-exception
    monad whose state also carries the fault that a test may inject. *)

From Stdlib Require Import ZArith List Lia Bool String DecimalString.
From Stdlib.Strings Require Import Byte.
From stdpp Require Import base option list gmap sorting.

Local Open Scope Z_scope.

(** ** JavaScript values used by the code *)

Module JS.

(** A string is its list of UTF-16 code units. *)
Definition jsstring := list Z.

Definition byte_val (b : byte) : Z := Z.of_N (Byte.to_N b).

(** An ASCII literal of the source, as a JavaScript string / as bytes. *)
Definition lit (s : string) : jsstring := map byte_val (list_byte_of_string s).
Definition bytes_of (s : string) : list byte := list_byte_of_string s.

Inductive js_error :=
| TypeError
| RangeError
| ParseError            (* thrown by the property-list parser *)
| SqliteError.          (* a rejected database call *)

(** Outcome of evaluating code that may throw. *)
Inductive completion (A : Type) :=
| Normal (a : A)
| Throw (e : js_error).
Arguments Normal {A} a.
Arguments Throw {A} e.

Definition cbind {A B} (c : completion A) (k : A -> completion B) : completion B :=
  match c with
  | Normal a => k a
  | Throw e => Throw e
  end.

(** [try { c } catch { h }] *)
Definition try_catch {A} (c : completion A) (h : js_error -> completion A) : completion A :=
  match c with
  | Normal a => Normal a
  | Throw e => h e
  end.

(** ECMAScript WhiteSpace and LineTerminator code units, as [trim] uses them. *)
Definition is_whitespace (c : Z) : bool :=
  ((9 <=? c) && (c <=? 13)) || (c =? 32) || (c =? 160) || (c =? 0x1680)
  || ((0x2000 <=? c) && (c <=? 0x200A)) || (c =? 0x2028) || (c =? 0x2029)
  || (c =? 0x202F) || (c =? 0x205F) || (c =? 0x3000) || (c =? 0xFEFF).

Fixpoint drop_while {A} (p : A -> bool) (l : list A) : list A :=
  match l with
  | [] => []
  | x :: l' => if p x then drop_while p l' else l
  end.

Definition drop_while_end {A} (p : A -> bool) (l : list A) : list A :=
  rev (drop_while p (rev l)).

(** [s.trim()] *)
Definition trim (s : jsstring) : jsstring :=
  drop_while_end is_whitespace (drop_while is_whitespace s).

(** Truthiness of a possibly-null string: null and [''] are falsy. *)
Definition truthy_str (t : option jsstring) : bool :=
  match t with
  | Some (_ :: _) => true
  | _ => false
  end.

Fixpoint starts_with {A} (eqb : A -> A -> bool) (p l : list A) : bool :=
  match p, l with
  | [], _ => true
  | _ :: _, [] => false
  | a :: p', b :: l' => eqb a b && starts_with eqb p' l'
  end.

(** *** Buffer *)

Definition buffer := list byte.

Definition buf_length (d : buffer) : Z := Z.of_nat (length d).

(** [data[i]]: [None] is [undefined] (index out of range). *)
Definition buf_get (d : buffer) (i : Z) : option Z :=
  if i <? 0 then None else byte_val <$> d !! Z.to_nat i.

(** Position of the first occurrence of [needle] in [d], counted from [pos]. *)
Fixpoint find_from (needle : list byte) (d : buffer) (pos : Z) : Z :=
  match d with
  | [] => match needle with [] => pos | _ => -1 end
  | _ :: d' =>
      if starts_with Byte.eqb needle d then pos else find_from needle d' (pos + 1)
  end.

(** [data.indexOf(value, byteOffset)] for [0 <= byteOffset]; an offset at or
    past the end yields -1 for a non-empty needle. *)
Definition indexOf (d : buffer) (needle : list byte) (byteOffset : Z) : Z :=
  if buf_length d <=? byteOffset then
    match needle with [] => buf_length d | _ => -1 end
  else find_from needle (drop (Z.to_nat byteOffset) d) byteOffset.

(** [data.readUInt16LE(offset)], [data.readUInt32LE(offset)]: a RangeError
    when the bytes are not all inside the buffer. *)
Definition readUInt16LE (d : buffer) (offset : Z) : completion Z :=
  match buf_get d offset, buf_get d (offset + 1) with
  | Some b0, Some b1 => Normal (b0 + 256 * b1)
  | _, _ => Throw RangeError
  end.

Definition readUInt32LE (d : buffer) (offset : Z) : completion Z :=
  match buf_get d offset, buf_get d (offset + 1),
        buf_get d (offset + 2), buf_get d (offset + 3) with
  | Some b0, Some b1, Some b2, Some b3 =>
      Normal (b0 + 256 * b1 + 65536 * b2 + 16777216 * b3)
  | _, _, _, _ => Throw RangeError
  end.

(** [data.slice(start, end)] for non-negative arguments: both ends are
    clamped to the buffer, an end before the start gives the empty buffer. *)
Definition slice (d : buffer) (start end_ : Z) : buffer :=
  take (Z.to_nat (end_ - start)) (drop (Z.to_nat start) d).

(** *** UTF-8 decoding ([buf.toString('utf8')])

    The decoder of the Encoding standard: an ill-formed sequence yields
    U+FFFD and decoding resumes at the offending byte. *)

Definition utf16_encode (cp : Z) : jsstring :=
  if cp <? 0x10000 then [cp]
  else [0xD800 + Z.shiftr (cp - 0x10000) 10; 0xDC00 + Z.land (cp - 0x10000) 0x3FF].

Inductive utf8_state :=
| Idle
| Pending (cp : Z) (remaining : nat) (lo hi : Z).

Definition utf8_lead (b : Z) : jsstring * utf8_state :=
  if b <=? 0x7F then ([b], Idle)
  else if (0xC2 <=? b) && (b <=? 0xDF) then
    ([], Pending (Z.land b 0x1F) 1 0x80 0xBF)
  else if (0xE0 <=? b) && (b <=? 0xEF) then
    ([], Pending (Z.land b 0xF) 2
           (if b =? 0xE0 then 0xA0 else 0x80) (if b =? 0xED then 0x9F else 0xBF))
  else if (0xF0 <=? b) && (b <=? 0xF4) then
    ([], Pending (Z.land b 0x7) 3
           (if b =? 0xF0 then 0x90 else 0x80) (if b =? 0xF4 then 0x8F else 0xBF))
  else ([0xFFFD], Idle).

Fixpoint utf8_decode_from (st : utf8_state) (bs : list byte) : jsstring :=
  match bs with
  | [] => match st with Idle => [] | Pending _ _ _ _ => [0xFFFD] end
  | b :: bs' =>
      let v := byte_val b in
      match st with
      | Idle => let '(out, st') := utf8_lead v in out ++ utf8_decode_from st' bs'
      | Pending cp n lo hi =>
          if (lo <=? v) && (v <=? hi) then
            let cp' := Z.lor (Z.shiftl cp 6) (Z.land v 0x3F) in
            match n with
            | S (S n') => utf8_decode_from (Pending cp' (S n') 0x80 0xBF) bs'
            | _ => utf16_encode cp' ++ utf8_decode_from Idle bs'
            end
          else
            let '(out, st') := utf8_lead v in
            0xFFFD :: out ++ utf8_decode_from st' bs'
      end
  end.

Definition toString_utf8 (d : buffer) : jsstring := utf8_decode_from Idle d.

End JS.

(** ** server/helpers/text.js *)

Module Text.
Import JS.

(** Values a parsed property list is made of.  Numbers stand for every
    value whose [typeof] is ['number']; a dictionary lists each key once. *)
#[local] Unset Elimination Schemes.
Inductive plist :=
| PNull
| PBool (b : bool)
| PNumber (z : Z)
| PString (s : jsstring)
| PData (d : buffer)
| PUid (n : Z)
| PArray (l : list plist)
| PDict (kv : list (jsstring * plist)).
#[local] Set Elimination Schemes.

Definition truthy (v : plist) : bool :=
  match v with
  | PNull => false
  | PBool b => b
  | PNumber z => negb (z =? 0)
  | PString s => truthy_str (Some s)
  | _ => true
  end.

Definition jsstring_eqb (a b : jsstring) : bool := bool_decide (a = b).

(** [v[key]]: [None] is [undefined]. *)
Definition get_prop (v : plist) (key : jsstring) : option plist :=
  match v with
  | PDict kv => snd <$> find (fun p => jsstring_eqb (fst p) key) kv
  | _ => None
  end.

(** Characters stripped from both ends: U+FFFC, U+FFFD and 0x00-0x1F. *)
Definition is_junk (c : Z) : bool :=
  (c =? 0xFFFC) || (c =? 0xFFFD) || ((0 <=? c) && (c <=? 0x1F)).

(** [cleanExtractedText(text)] on a string: leading junk, trailing junk,
    every U+FFFC, then [trim]. *)
Definition cleanExtractedText (text : jsstring) : jsstring :=
  trim
    (filter (fun c => c ≠ 0xFFFC)
       (drop_while_end is_junk (drop_while is_junk text))).

(** [cleanExtractedText(v)] on a truthy value of any type: only a string
    has a [replace] method. *)
Definition cleanExtractedText_value (v : plist) : completion jsstring :=
  match v with
  | PString s => Normal (cleanExtractedText s)
  | _ => Throw TypeError
  end.

Definition in_range (lo hi : Z) (c : Z) : bool := (lo <=? c) && (c <=? hi).

(** [isMetadataString(str)]: one of the four anchored patterns matches. *)
Definition isMetadataString (str : jsstring) : bool :=
  match str with
  | 78 :: 83 :: c :: _ => in_range 65 90 c                 (* /^NS[A-Z]/ *)
  | 36 :: c :: _ => in_range 97 122 c                      (* /^\$[a-z]/ *)
  | _ => starts_with Z.eqb (lit "__kIM") str               (* /^__kIM/ *)
         || starts_with Z.eqb (lit "com.apple") str        (* /^com\.apple/ *)
  end.

Definition str_length (s : jsstring) : Z := Z.of_nat (length s).

(** [typeof obj === 'object'] for a truthy [obj]. *)
Definition is_object (v : plist) : bool :=
  match v with
  | PData _ | PUid _ | PArray _ | PDict _ => true
  | _ => false
  end.

(** The loop over [$objects]: the first object that yields a text ends it. *)
Fixpoint scan_objects (objects : list plist) : completion (option jsstring) :=
  match objects with
  | [] => Normal None
  | obj :: rest =>
      let as_string :=
        match obj with
        | PString ((_ :: _) as s) =>
            let cleaned := cleanExtractedText s in
            if (1 <? str_length cleaned) && negb (isMetadataString cleaned)
            then Some cleaned else None
        | _ => None
        end in
      match as_string with
      | Some cleaned => Normal (Some cleaned)
      | None =>
          match (if truthy obj && is_object obj
                 then get_prop obj (lit "NS.string") else None) with
          | Some v =>
              if truthy v then
                cbind (cleanExtractedText_value v) (fun cleaned =>
                  if 0 <? str_length cleaned then Normal (Some cleaned)
                  else scan_objects rest)
              else scan_objects rest
          | None => scan_objects rest
          end
      end
  end.

(** [extractTextFromParsedPlist(plist)] *)
Definition extractTextFromParsedPlist (p : option plist) : completion (option jsstring) :=
  match p with
  | None => Normal None
  | Some v =>
      if negb (truthy v) then Normal None
      else match get_prop v (lit "$objects") with
           | Some (PArray objects) => scan_objects objects
           | _ => Normal None
           end
  end.

Section Extractor.

(** [bplist.parseBuffer] of the bplist-parser package: the array of root
    objects of a binary property list, or an exception. *)
Variable parseBuffer : buffer -> completion (list plist).

(** The structured path, with its own [try]: a text, or nothing when the
    parser or the scan throws or finds no text. *)
Definition structured_path (data : buffer) : option jsstring :=
  match try_catch
          (cbind (parseBuffer data) (fun parsed =>
             match parsed with
             | [] => Normal None
             | root :: _ =>
                 cbind (extractTextFromParsedPlist (Some root)) (fun text =>
                   Normal (if truthy_str text then text else None))
             end))
          (fun _ => Normal None) with
  | Normal r => r
  | Throw _ => None
  end.

Definition nsStringMarker : list byte := bytes_of "NSString".
Definition PLUS_BYTE : byte := x2b.
Definition END_MARKER : byte := x86.

(** Skip the bytes below 0x20 from [textStart] on. *)
Fixpoint skip_control (rest : list byte) (textStart : Z) : Z :=
  match rest with
  | [] => textStart
  | b :: rest' =>
      if byte_val b <? 0x20 then skip_control rest' (textStart + 1) else textStart
  end.

(** "Parse length encoding": the pair [(messageLength, textStart)] for the
    byte [firstByte = data[textStart]]. *)
Definition parse_length (data : buffer) (textStart : Z) : completion (Z * Z) :=
  let firstByte := buf_get data textStart in
  let unknown :=
    Normal (0, skip_control (drop (Z.to_nat (textStart + 1)) data) (textStart + 1)) in
  match firstByte with
  | None => unknown
  | Some firstByte =>
      if firstByte <? 0x80 then Normal (firstByte, textStart + 1)
      else if firstByte =? 0x81 then
        cbind (readUInt16LE data (textStart + 1)) (fun messageLength =>
          Normal (messageLength, textStart + 3))
      else if firstByte =? 0x82 then
        let byte_or_0 i := default 0 (buf_get data i) in
        Normal (Z.lor (Z.lor (byte_or_0 (textStart + 1))
                             (Z.shiftl (byte_or_0 (textStart + 2)) 8))
                      (Z.shiftl (byte_or_0 (textStart + 3)) 16),
                textStart + 4)
      else if firstByte =? 0x83 then
        cbind (readUInt32LE data (textStart + 1)) (fun messageLength =>
          Normal (messageLength, textStart + 5))
      else unknown
  end.

(** "Find end of text". *)
Definition text_end (data : buffer) (messageLength textStart : Z) : Z :=
  let markerIdx := indexOf data [END_MARKER] textStart in
  let bound := if markerIdx =? -1 then buf_length data else markerIdx in
  if 0 <? messageLength then Z.min (textStart + messageLength) bound else bound.

(** The fallback path: scan for the [NSString] marker. *)
Definition fallback_path (data : buffer) : completion (option jsstring) :=
  let idx := indexOf data nsStringMarker 0 in
  if idx =? -1 then Normal None
  else
    let plusIdx := indexOf data [PLUS_BYTE] (idx + buf_length nsStringMarker) in
    if negb (plusIdx =? -1) && (plusIdx <? idx + 80) then
      cbind (parse_length data (plusIdx + 1)) (fun '(messageLength, textStart) =>
        let textEnd := text_end data messageLength textStart in
        let text := cleanExtractedText (toString_utf8 (slice data textStart textEnd)) in
        if 0 <? str_length text then Normal (Some text) else Normal None)
    else Normal None.

(** [extractTextFromAttributedBody(buffer)]; [None] is a null buffer. *)
Definition extractTextFromAttributedBody (buffer : option buffer)
  : completion (option jsstring) :=
  match buffer with
  | None => Normal None
  | Some data =>
      try_catch
        (match structured_path data with
         | Some text => Normal (Some text)
         | None => fallback_path data
         end)
        (fun _ => Normal None)
  end.

(** A database row as the resolver sees it. *)
Record text_row := {
  row_text : option jsstring;
  row_attributedBody : option buffer;
}.

(** [getMessageText(row)] *)
Definition getMessageText (row : text_row) : completion (option jsstring) :=
  if truthy_str (row_text row) && truthy_str (trim <$> row_text row)
  then Normal (row_text row)
  else match row_attributedBody row with
       | Some b => extractTextFromAttributedBody (Some b)
       | None => Normal None
       end.

End Extractor.

End Text.

(** ** The databases *)

Module Db.
Import JS.

(** *** The message store (chat.db), read-only *)

Record message_row := {
  ROWID : Z;
  text : option jsstring;
  attributedBody : option buffer;
  date : option Z;
}.

Record source_db := {
  message : list message_row;
  chat_message_join : list (Z * Z);     (* chat_id, message_id *)
  handle : list (Z * jsstring);         (* ROWID, id *)
  chat_handle_join : list (Z * Z);      (* chat_id, handle_id *)
}.

(** *** The index store (search_index.db) *)

(** A row of [message_text], keyed by [message_id]. *)
Record entry := {
  e_text : jsstring;
  e_date : option Z;
  e_chat_id : Z;
}.

(** [index_metadata] maps a key to a value.  The only value ever written is
    [String(messageId)] and the only read is [parseInt(row.value)], which
    is the identity on integers: the table keeps the integer. *)
Record tables := {
  message_text : gmap Z entry;
  index_metadata : gmap string Z;
}.

(** The connection: the tables as this connection sees them, and the
    snapshot to return to while a transaction is open. *)
Record index_db := {
  current : tables;
  txn : option tables;
}.

(** [fault = Some n]: the database call after the next [n] ones is
    rejected, once; [None]: no call is rejected. *)
Record world := {
  idb : index_db;
  fault : option nat;
}.

(** *** Computations: state and exceptions *)

Definition M (A : Type) : Type := world -> completion A * world.

Definition ret {A} (a : A) : M A := fun w => (Normal a, w).

Definition throw {A} (e : js_error) : M A := fun w => (Throw e, w).

Definition bind {A B} (m : M A) (k : A -> M B) : M B :=
  fun w =>
    match m w with
    | (Normal a, w') => k a w'
    | (Throw e, w') => (Throw e, w')
    end.

(** [try { m } catch (err) { h err }] *)
Definition try_catchM {A} (m : M A) (h : js_error -> M A) : M A :=
  fun w =>
    match m w with
    | (Normal a, w') => (Normal a, w')
    | (Throw e, w') => h e w'
    end.

Definition lift {A} (c : completion A) : M A := fun w => (c, w).

#[global] Instance M_ret : MRet M := @ret.
#[global] Instance M_bind : MBind M := fun A B k m => bind m k.

(** Every promisified call ([dbAll], [dbGet], [indexDbRun], ...) first meets
    the injected fault. *)
Definition tick : M unit :=
  fun w =>
    match fault w with
    | Some O => (Throw SqliteError, {| idb := idb w; fault := None |})
    | Some (S n) => (Normal tt, {| idb := idb w; fault := Some n |})
    | None => (Normal tt, w)
    end.

Definition get_idb : M index_db := fun w => (Normal (idb w), w).

Definition put_idb (d : index_db) : M unit :=
  fun w => (Normal tt, {| idb := d; fault := fault w |}).

(** The SQL statements that [indexDbRun] is called with. *)
Inductive stmt :=
| CREATE_IF_NOT_EXISTS                  (* tables and indexes of the schema *)
| BEGIN_TRANSACTION
| COMMIT
| ROLLBACK
| INSERT_OR_REPLACE_message_text (message_id : Z) (e : entry)
| INSERT_OR_REPLACE_index_metadata (key : string) (value : Z).

Definition write (f : tables -> tables) (d : index_db) : index_db :=
  {| current := f (current d); txn := txn d |}.

(** What SQLite does with a statement; [None] is an SQL error. *)
Definition exec (s : stmt) (d : index_db) : option index_db :=
  match s with
  | CREATE_IF_NOT_EXISTS => Some d
  | BEGIN_TRANSACTION =>
      match txn d with
      | Some _ => None
      | None => Some {| current := current d; txn := Some (current d) |}
      end
  | COMMIT =>
      match txn d with
      | Some _ => Some {| current := current d; txn := None |}
      | None => None
      end
  | ROLLBACK =>
      match txn d with
      | Some saved => Some {| current := saved; txn := None |}
      | None => None
      end
  | INSERT_OR_REPLACE_message_text message_id e =>
      Some (write (fun t => {| message_text := <[message_id := e]> (message_text t);
                               index_metadata := index_metadata t |}) d)
  | INSERT_OR_REPLACE_index_metadata key value =>
      Some (write (fun t => {| message_text := message_text t;
                               index_metadata := <[key := value]> (index_metadata t) |}) d)
  end.

(** [indexDbRun(sql, params)] *)
Definition indexDbRun (s : stmt) : M unit :=
  tick;;
  d ← get_idb;
  match exec s d with
  | Some d' => put_idb d'
  | None => throw SqliteError
  end.

(** [indexDbGet], [indexDbAll]: a read of the index tables. *)
Definition indexDbRead {A} (q : tables -> A) : M A :=
  tick;;
  d ← get_idb;
  ret (q (current d)).

(** [dbAll], [dbGet]: a read of the message store. *)
Definition dbRead {A} (src : source_db) (q : source_db -> A) : M A :=
  tick;;
  ret (q src).

End Db.

(** ** server/services/searchIndex.js *)

Module SearchIndex.
Import JS Db.

(** A row of the join of [message] with [chat_message_join]. *)
Record joined_row := {
  message_id : Z;
  m_text : option jsstring;
  m_attributedBody : option buffer;
  m_date : option Z;
  chat_id : Z;
}.

(** [FROM message m JOIN chat_message_join cmj ON m.ROWID = cmj.message_id] *)
Definition join_messages (src : source_db) : list joined_row :=
  m ← message src;
  cmj ← chat_message_join src;
  if bool_decide (cmj.2 = ROWID m)
  then [ {| message_id := ROWID m; m_text := text m;
            m_attributedBody := attributedBody m; m_date := date m;
            chat_id := cmj.1 |} ]
  else [].

(** [ORDER BY key ASC], for a key compared by [leb]. *)
Definition order_by {A} (leb : A -> A -> bool) (l : list A) : list A :=
  merge_sort (fun a b => Is_true (leb a b)) l.

(** [LIMIT n]: a negative [n] is no limit. *)
Definition limit {A} (n : Z) (l : list A) : list A :=
  if n <? 0 then l else take (Z.to_nat n) l.

(** The query of [indexNewMessages]:
    [WHERE m.ROWID > ? ORDER BY m.ROWID ASC LIMIT ?]. *)
Definition select_new_messages (src : source_db) (lastId batchSize : Z)
  : list joined_row :=
  limit batchSize
    (order_by (fun a b => message_id a <=? message_id b)
       (filter (fun r => lastId < message_id r) (join_messages src))).

Definition LAST_MESSAGE_ID : string := "last_message_id".

(** [initializeSchema()]: two tables and two indexes, created if absent. *)
Definition initializeSchema : M unit :=
  indexDbRun CREATE_IF_NOT_EXISTS;;
  indexDbRun CREATE_IF_NOT_EXISTS;;
  indexDbRun CREATE_IF_NOT_EXISTS;;
  indexDbRun CREATE_IF_NOT_EXISTS.

(** The cursor a table state holds: the stored value, 0 when there is none. *)
Definition cursor_of (t : tables) : Z :=
  match index_metadata t !! LAST_MESSAGE_ID with
  | Some value => value
  | None => 0
  end.

(** [getLastIndexedId()] *)
Definition getLastIndexedId : M Z := indexDbRead cursor_of.

(** [setLastIndexedId(messageId)] *)
Definition setLastIndexedId (messageId : Z) : M unit :=
  indexDbRun (INSERT_OR_REPLACE_index_metadata LAST_MESSAGE_ID messageId).

Section Indexer.

Variable parseBuffer : buffer -> completion (list Text.plist).

(** The text of a row, "from either column or attributedBody". *)
Definition resolve_text (msg : joined_row) : completion (option jsstring) :=
  let text := m_text msg in
  if (negb (truthy_str text)
      || (Text.str_length (trim (default [] text)) <? 2))
     && bool_decide (is_Some (m_attributedBody msg))
  then Text.extractTextFromAttributedBody parseBuffer (m_attributedBody msg)
  else Normal text.

(** The text to store for a row, if any: [text.trim()] when [text] and
    [text.trim()] are truthy. *)
Definition text_to_store (text : option jsstring) : option jsstring :=
  match text with
  | Some s => if truthy_str (Some s) && truthy_str (Some (trim s))
              then Some (trim s) else None
  | None => None
  end.

(** One turn of the loop over the batch; the result is the new [maxId]. *)
Definition index_message (msg : joined_row) (maxId : Z) : M Z :=
  text ← lift (resolve_text msg);
  match text_to_store text with
  | Some trimmed =>
      indexDbRun (INSERT_OR_REPLACE_message_text (message_id msg)
                    {| e_text := trimmed; e_date := m_date msg;
                       e_chat_id := chat_id msg |})
  | None => ret tt
  end;;
  ret (Z.max maxId (message_id msg)).

Fixpoint index_messages (messages : list joined_row) (maxId : Z) : M Z :=
  match messages with
  | [] => ret maxId
  | msg :: rest =>
      maxId' ← index_message msg maxId;
      index_messages rest maxId'
  end.

(** [indexNewMessages(batchSize)] *)
Definition indexNewMessages (src : source_db) (batchSize : Z) : M Z :=
  lastId ← getLastIndexedId;
  messages ← dbRead src (fun s => select_new_messages s lastId batchSize);
  match messages with
  | [] => ret 0
  | _ :: _ =>
      indexDbRun BEGIN_TRANSACTION;;
      try_catchM
        (maxId ← index_messages messages lastId;
         setLastIndexedId maxId;;
         indexDbRun COMMIT;;
         ret (Z.of_nat (length messages)))
        (fun err =>
           indexDbRun ROLLBACK;;
           throw err)
  end.

(** The [while (true)] loop of [buildIndex] with its batch size; [None]
    when [fuel] turns do not finish it. *)
Fixpoint index_loop (fuel : nat) (src : source_db) (batchSize totalIndexed : Z)
  : M (option Z) :=
  match fuel with
  | O => ret None
  | S fuel' =>
      indexed ← indexNewMessages src batchSize;
      let totalIndexed := totalIndexed + indexed in
      if indexed <? batchSize then ret (Some totalIndexed)
      else index_loop fuel' src batchSize totalIndexed
  end.

(** [buildIndex()]; the loop is given one turn more than the join has rows. *)
Definition buildIndex (src : source_db) : M (option Z) :=
  initializeSchema;;
  index_loop (S (length (join_messages src))) src 5000 0.

End Indexer.

(** [needsUpdate()] *)
Definition max_rowid (src : source_db) : option Z :=
  match message src with
  | [] => None
  | m :: rest => Some (foldr Z.max (ROWID m) (ROWID <$> rest))
  end.

Definition needsUpdate (src : source_db) : M bool :=
  lastId ← getLastIndexedId;
  latestMsg ← dbRead src max_rowid;
  ret (lastId <? default 0 latestMsg).

(** *** Searching *)

Definition lower_ascii (c : Z) : Z :=
  if (65 <=? c) && (c <=? 90) then c + 32 else c.

(** One character of a text: a surrogate pair counts as one. *)
Definition drop_char (t : jsstring) : option jsstring :=
  match t with
  | [] => None
  | hi :: lo :: t' =>
      if (0xD800 <=? hi) && (hi <=? 0xDBFF) && (0xDC00 <=? lo) && (lo <=? 0xDFFF)
      then Some t' else Some (lo :: t')
  | _ :: t' => Some t'
  end.

(** SQLite's [text LIKE pattern] on operands without U+0000: [%] matches
    any run of characters, [_] matches one character, any other character
    matches itself, ASCII letters regardless of case. *)
Fixpoint like (pattern : jsstring) : jsstring -> bool :=
  match pattern with
  | [] => fun t => match t with [] => true | _ => false end
  | c :: pattern' =>
      if c =? 37 then
        fix any_run (t : jsstring) : bool :=
          like pattern' t
          || match t with
             | [] => false
             | _ :: t' => any_run t'
             end
      else if c =? 95 then
        fun t => match drop_char t with
                 | Some t' => like pattern' t'
                 | None => false
                 end
      else
        fun t => match t with
                 | [] => false
                 | d :: t' => (lower_ascii c =? lower_ascii d) && like pattern' t'
                 end
  end.

(** SQLite reads both operands of LIKE as C strings: each one ends before
    its first U+0000. *)
Fixpoint c_string (s : jsstring) : jsstring :=
  match s with
  | [] => []
  | c :: s' => if c =? 0 then [] else c :: c_string s'
  end.

(** A row of the search result. *)
Record index_row := {
  r_message_id : Z;
  r_text : jsstring;
  r_date : option Z;
  r_chat_id : Z;
}.

Definition rows_of (t : tables) : list index_row :=
  (fun p => {| r_message_id := p.1; r_text := e_text p.2;
               r_date := e_date p.2; r_chat_id := e_chat_id p.2 |})
    <$> map_to_list (message_text t).

(** SQL comparison of two [date] values: NULL is below every integer. *)
Definition date_leb (a b : option Z) : bool :=
  match a, b with
  | None, _ => true
  | Some _, None => false
  | Some x, Some y => x <=? y
  end.

(** [ORDER BY date DESC]; rows of one date follow the date index, that is
    ascending [message_id]. *)
Definition date_desc (a b : index_row) : bool :=
  if bool_decide (r_date a = r_date b) then r_message_id a <=? r_message_id b
  else date_leb (r_date b) (r_date a).

(** The query of [searchIndex]:
    [WHERE text LIKE '%query%' ORDER BY date DESC LIMIT ?]. *)
Definition search_rows (query : jsstring) (limit_ : Z) (t : tables) : list index_row :=
  limit limit_
    (order_by date_desc
       (filter (fun r => Is_true (like (c_string (37 :: query ++ [37]))
                                    (c_string (r_text r))))
          (rows_of t))).

(** [searchIndex(query, { limit })], for a pattern that SQLite accepts. *)
Definition searchIndex (query : jsstring) (limit_ : Z) : M (list index_row) :=
  indexDbRead (search_rows query limit_).

(** [getIndexStats()] *)
Definition getIndexStats : M (Z * Z) :=
  count ← indexDbRead (fun t => Z.of_nat (size (message_text t)));
  lastId ← getLastIndexedId;
  ret (count, lastId).

End SearchIndex.

(** ** server/routes/search.js *)

Module SearchRoute.
Import JS Db SearchIndex.

Definition DEFAULT_SEARCH_PAGE_SIZE : Z := 20.
Definition MAX_SEARCH_SCAN_LIMIT : Z := 10000.
Definition MAC_EPOCH_MS : Z := 978307200000.

(** [convertMacTime(macTime)] *)
Definition convertMacTime (macTime : option Z) : option Z :=
  match macTime with
  | None => None
  | Some t => Some (t / 1000000 + MAC_EPOCH_MS)
  end.

(** A value of the contact group map. *)
Record contact_group := {
  g_name : jsstring;
  identifiers : list jsstring;
}.

(** The query string of a request whose parameters are written once each,
    so that Express hands them over as strings; [limit_param] and
    [page_param] are what [parseInt] makes of the parameters, a finite
    number or NaN, which is [None]. *)
Record request := {
  q : option jsstring;
  limit_param : option Z;
  page_param : option Z;
  contacts : option jsstring;
}.

Record result := {
  res_message_id : Z;
  res_text : jsstring;
  res_conversation_id : Z;
  res_contact_identifier : jsstring;
  res_date : option Z;
  res_display_name : jsstring;
}.

Inductive response :=
| Json (results : list result) (page limit_ total : Z)
| Status500.

(** [n || fallback] for the outcome of [parseInt]. *)
Definition or_default (n : option Z) (fallback : Z) : Z :=
  match n with
  | Some v => if v =? 0 then fallback else v
  | None => fallback
  end.

(** [s.split(',')] *)
Fixpoint split_comma (s : jsstring) : list jsstring :=
  match s with
  | [] => [[]]
  | c :: s' =>
      if c =? 44 then [] :: split_comma s'
      else match split_comma s' with
           | piece :: pieces => (c :: piece) :: pieces
           | [] => [[c]]
           end
  end.

(** [array.slice(start, end)] *)
Definition js_slice {A} (l : list A) (start end_ : Z) : list A :=
  let len := Z.of_nat (length l) in
  let clamp i := if i <? 0 then Z.max (len + i) 0 else Z.min i len in
  take (Z.to_nat (clamp end_ - clamp start)) (drop (Z.to_nat (clamp start)) l).

(** [SELECT DISTINCT chj.chat_id FROM chat_handle_join chj
     JOIN handle h ON chj.handle_id = h.ROWID WHERE h.id IN (...)] *)
Definition chat_ids_of (ids : list jsstring) (src : source_db) : list Z :=
  remove_dups
    (chj ← chat_handle_join src;
     h ← handle src;
     if bool_decide (chj.2 = h.1) && bool_decide (h.2 ∈ ids) then [chj.1] else []).

(** [SELECT h.id ... WHERE chj.chat_id = ? LIMIT 1] *)
Definition contact_of_chat (chat : Z) (src : source_db) : list jsstring :=
  take 1
    (chj ← chat_handle_join src;
     h ← handle src;
     if bool_decide (chj.2 = h.1) && bool_decide (chj.1 = chat) then [h.2] else []).

(** The parameters of a request as the handler reads them:
    [req.query.q || ''], [parseInt(req.query.limit) || DEFAULT_SEARCH_PAGE_SIZE],
    [parseInt(req.query.page) || 1] and
    [req.query.contacts ? req.query.contacts.split(',') : []]. *)
Definition query_of (req : request) : jsstring := default [] (q req).
Definition limit_of (req : request) : Z :=
  or_default (limit_param req) DEFAULT_SEARCH_PAGE_SIZE.
Definition page_of (req : request) : Z := or_default (page_param req) 1.
Definition contact_ids_of (req : request) : list jsstring :=
  if truthy_str (contacts req) then split_comma (default [] (contacts req)) else [].

(** The identifier shown for the handle rows of a conversation:
    [contactRow[0]?.contact_identifier || 'Unknown']. *)
Definition contact_identifier_of (contactRow : list jsstring) : jsstring :=
  match contactRow with
  | ((_ :: _) as id) :: _ => id
  | _ => lit "Unknown"
  end.

Section Handler.

(** The contact store, outside this subsystem: the name shown for an
    identifier, and the identifiers grouped under each contact. *)
Variable getDisplayName : jsstring -> jsstring.
Variable contactGroupMap : gmap jsstring contact_group.

(** "Get all chat IDs for the selected contacts". *)
Fixpoint allowed_chat_ids (src : source_db) (contactIds : list jsstring)
    (allowedChatIds : gset Z) : M (gset Z) :=
  match contactIds with
  | [] => ret allowedChatIds
  | contactId :: rest =>
      match contactGroupMap !! contactId with
      | Some group =>
          chatRows ← dbRead src (chat_ids_of (identifiers group));
          allowed_chat_ids src rest (allowedChatIds ∪ list_to_set chatRows)
      | None => allowed_chat_ids src rest allowedChatIds
      end
  end.

(** "Apply contact filtering if needed". *)
Definition filter_matches (src : source_db) (contactIds : list jsstring)
    (indexMatches : list index_row) : M (list index_row) :=
  match contactIds with
  | [] => ret indexMatches
  | _ :: _ =>
      allowedChatIds ← allowed_chat_ids src contactIds ∅;
      if bool_decide (0 < size allowedChatIds)%nat
      then ret (filter (fun m => r_chat_id m ∈ allowedChatIds) indexMatches)
      else ret indexMatches
  end.

(** "Enrich with contact info". *)
Definition enrich (src : source_db) (row : index_row) : M result :=
  contactRow ← dbRead src (contact_of_chat (r_chat_id row));
  let contactIdentifier := contact_identifier_of contactRow in
  ret {| res_message_id := r_message_id row;
         res_text := r_text row;
         res_conversation_id := r_chat_id row;
         res_contact_identifier := contactIdentifier;
         res_date := convertMacTime (r_date row);
         res_display_name := getDisplayName contactIdentifier |}.

Fixpoint enrich_all (src : source_db) (rows : list index_row) : M (list result) :=
  match rows with
  | [] => ret []
  | row :: rest =>
      r ← enrich src row;
      rs ← enrich_all src rest;
      ret (r :: rs)
  end.

(** The handler of [GET /search] on such a request.  The SQL fragment of
    [buildContactFilter] is handed to [searchIndex], which does not use it;
    the requests of [Promise.all] are issued in the order of the page. *)
Definition search (src : source_db) (req : request) : M response :=
  let query := query_of req in
  let limit_ := limit_of req in
  let page := page_of req in
  let contactIds := contact_ids_of req in
  if negb (truthy_str (Some (trim query))) then ret (Json [] page limit_ 0)
  else
    try_catchM
      (indexMatches ← searchIndex query MAX_SEARCH_SCAN_LIMIT;
       filteredMatches ← filter_matches src contactIds indexMatches;
       let total := Z.of_nat (length filteredMatches) in
       let offset := (page - 1) * limit_ in
       let paginatedMatches := js_slice filteredMatches offset (offset + limit_) in
       results ← enrich_all src paginatedMatches;
       ret (Json results page limit_ total))
      (fun _ => ret Status500).

End Handler.

End SearchRoute.

(** ** server/index.js: keeping the index up to date *)

Module Server.
Import JS Db SearchIndex.

Section Upkeep.

Variable parseBuffer : buffer -> completion (list Text.plist).

(** [buildIndex().catch(err => logger.error(...))]: the build at startup;
    an error is logged and goes no further. *)
Definition build_in_background (src : source_db) : M unit :=
  try_catchM
    (buildIndex parseBuffer src;; ret tt)
    (fun _ => ret tt).

(** The callback of [setInterval(..., 30000)]: index one batch of 1000 when
    [needsUpdate()] says so; an error is logged and goes no further. *)
Definition update_tick (src : source_db) : M unit :=
  try_catchM
    (stale ← needsUpdate src;
     if stale : bool then
       (indexNewMessages parseBuffer src 1000;;
        ret tt)
     else ret tt)
    (fun _ => ret tt).

(** Successive runs of the callback, each with the message store as it is
    at that time; the runs do not overlap. *)
Fixpoint update_ticks (stores : list source_db) : M unit :=
  match stores with
  | [] => ret tt
  | src :: rest =>
      update_tick src;;
      update_ticks rest
  end.

End Upkeep.

End Server.

(** ** server/routes/search.js: the handler as Express calls it *)

Module Express.
Import JS Db SearchIndex SearchRoute.

(** A parameter of [req.query] as Express hands it over: a string, an
    array when the parameter is repeated ([q=a&q=b]), an object when it is
    written with brackets ([q[k]=v]). *)
Inductive query_value :=
| QString (s : jsstring)
| QArray (items : list jsstring)
| QObject (entries : list (jsstring * jsstring)).

(** [req.query]; [None] is a parameter that is left out.  [param_limit]
    and [param_page] are what [parseInt] makes of the parameters, as in
    [request]. *)
Record express_request := {
  param_q : option query_value;
  param_limit : option Z;
  param_page : option Z;
  param_contacts : option query_value;
}.

(** [value || ''] and [value ? ... : ...]: every array and every object is
    truthy, a string is when it is not empty. *)
Definition truthy_value (v : option query_value) : bool :=
  match v with
  | None | Some (QString []) => false
  | Some _ => true
  end.

(** The receiver of [.trim()] and of [.split(',')]: only a string has the
    method. *)
Definition string_of (v : option query_value) : completion jsstring :=
  match v with
  | Some (QString s) => Normal s
  | _ => Throw TypeError
  end.

(** The bytes a string takes once bound to a statement, in UTF-8: a
    surrogate pair takes four, a lone surrogate the three of U+FFFD. *)
Fixpoint utf8_length (s : jsstring) : Z :=
  match s with
  | [] => 0
  | c :: s' =>
      let bytes := if c <? 0x80 then 1 else if c <? 0x800 then 2 else 3 in
      match s' with
      | lo :: s'' =>
          if (0xD800 <=? c) && (c <=? 0xDBFF) && (0xDC00 <=? lo) && (lo <=? 0xDFFF)
          then 4 + utf8_length s''
          else bytes + utf8_length s'
      | [] => bytes
      end
  end.

Definition SQLITE_MAX_LIKE_PATTERN_LENGTH : Z := 50000.

(** SQLite evaluates [text LIKE ?] row by row and rejects the statement at
    the first row when the pattern is longer than 50000 bytes; over an
    empty table the pattern is never looked at. *)
Definition like_pattern_rejected (query : jsstring) (t : tables) : bool :=
  (SQLITE_MAX_LIKE_PATTERN_LENGTH <? utf8_length (37 :: query ++ [37]))
  && negb (bool_decide (message_text t = ∅)).

(** [searchIndex(query, { limit })], with the error of a pattern that
    SQLite rejects. *)
Definition searchIndex_checked (query : jsstring) (limit_ : Z) : M (list index_row) :=
  rows ← indexDbRead (fun t => if like_pattern_rejected query t then None
                               else Some (search_rows query limit_ t));
  match rows with
  | Some rows => ret rows
  | None => throw SqliteError
  end.

Section Handler.

Variable getDisplayName : jsstring -> jsstring.
Variable contactGroupMap : gmap jsstring contact_group.

(** The handler from its [try] on. *)
Definition answer (src : source_db) (query : jsstring) (limit_ page : Z)
    (contactIds : list jsstring) : M response :=
  try_catchM
    (indexMatches ← searchIndex_checked query MAX_SEARCH_SCAN_LIMIT;
     filteredMatches ← filter_matches contactGroupMap src contactIds indexMatches;
     let total := Z.of_nat (length filteredMatches) in
     let offset := (page - 1) * limit_ in
     let paginatedMatches := js_slice filteredMatches offset (offset + limit_) in
     results ← enrich_all getDisplayName src paginatedMatches;
     ret (Json results page limit_ total))
    (fun _ => ret Status500).

(** The handler of [GET /search] on the parameters as they come.  What is
    read before the [try] is not caught: [req.query.contacts.split] and
    [query.trim] throw on a parameter that is not a string, the promise of
    the handler is rejected and no answer is sent. *)
Definition handler (src : source_db) (req : express_request) : M response :=
  let query := if truthy_value (param_q req) then param_q req
               else Some (QString []) in
  let limit_ := or_default (param_limit req) DEFAULT_SEARCH_PAGE_SIZE in
  let page := or_default (param_page req) 1 in
  contactIds ← lift (if truthy_value (param_contacts req)
                     then cbind (string_of (param_contacts req)) (fun s =>
                            Normal (split_comma s))
                     else Normal []);
  text ← lift (string_of query);
  if negb (truthy_str (Some (trim text))) then ret (Json [] page limit_ 0)
  else answer src text limit_ page contactIds.

End Handler.

End Express.

(** ** server/helpers/text.js: URLs and link previews *)

Module Urls.
Import JS Text.

Fixpoint take_while {A} (p : A -> bool) (l : list A) : list A :=
  match l with
  | [] => []
  | x :: l' => if p x then x :: take_while p l' else []
  end.

(** A character of a pattern against a character of the text under the
    [i] flag: an ASCII letter matches in either case. *)
Definition ci_eqb (p c : Z) : bool :=
  (c =? p)
  || (in_range 97 122 p && (c =? p - 32))
  || (in_range 65 90 p && (c =? p + 32)).

(** The characters that, with whitespace, end a URL: angle brackets, the
    double quote, braces, the bar, the backslash, the caret, the backquote
    and square brackets. *)
Definition url_delimiters : list Z := [60; 62; 34; 123; 125; 124; 92; 94; 96; 91; 93].

(** The class of the URL pattern: any character but whitespace and the
    delimiters. *)
Definition url_char (c : Z) : bool :=
  negb (is_whitespace c || bool_decide (c ∈ url_delimiters)).

(** [https?:\/\/] at the head of [t]: the length of what it matches. *)
Definition scheme_length (eqb : Z -> Z -> bool) (t : jsstring) : option nat :=
  if starts_with eqb (lit "https://") t then Some 8%nat
  else if starts_with eqb (lit "http://") t then Some 7%nat
  else None.

(** The match of [https?:\/\/C+] at the head of [t], for a class [C]. *)
Definition match_url (eqb : Z -> Z -> bool) (class : Z -> bool) (t : jsstring)
  : option jsstring :=
  match scheme_length eqb t with
  | Some n =>
      match take_while class (drop n t) with
      | [] => None
      | body => Some (take n t ++ body)
      end
  | None => None
  end.

(** [text.match(urlRegex)] with the [g] flag: the matches from left to
    right, the search resuming where a match ends; [skip] characters are
    still inside the last match. *)
Fixpoint match_all (t : jsstring) (skip : nat) : list jsstring :=
  match t with
  | [] => []
  | _ :: t' =>
      match skip with
      | S skip' => match_all t' skip'
      | O =>
          match match_url ci_eqb url_char t with
          | Some url => url :: match_all t' (length url - 1)
          | None => match_all t' 0
          end
      end
  end.

(** The characters [.,;:!?)] removed from the end of a match. *)
Definition is_trailing_punctuation (c : Z) : bool :=
  bool_decide (c ∈ [46; 44; 59; 58; 33; 63; 41]).

(** [[...new Set(l)]]: the first occurrence of each element, in order. *)
Fixpoint dedupe (seen l : list jsstring) : list jsstring :=
  match l with
  | [] => []
  | x :: l' =>
      if bool_decide (x ∈ seen) then dedupe seen l'
      else x :: dedupe (x :: seen) l'
  end.

(** [extractUrls(text)] *)
Definition extractUrls (text : option jsstring) : list jsstring :=
  match text with
  | Some ((_ :: _) as t) =>
      let matches := match_all t 0 in
      let cleaned := drop_while_end is_trailing_punctuation <$> matches in
      dedupe [] cleaned
  | _ => []
  end.

(** *** Link previews *)

Record link_preview := {
  url : jsstring;
  title : option jsstring;
}.

(** The strings a [for ... of] over a string yields: one per code point. *)
Fixpoint code_points (s : jsstring) : list jsstring :=
  match s with
  | [] => []
  | hi :: rest =>
      match rest with
      | lo :: rest' =>
          if in_range 0xD800 0xDBFF hi && in_range 0xDC00 0xDFFF lo
          then [hi; lo] :: code_points rest'
          else [hi] :: code_points rest
      | [] => [[hi]]
      end
  end.

(** [for (const item of v)] for a truthy [v]: the items of an array, of a
    string, of a buffer; any other value is not iterable. *)
Definition items_of (v : plist) : completion (list plist) :=
  match v with
  | PArray l => Normal l
  | PString s => Normal (PString <$> code_points s)
  | PData d => Normal ((fun b => PNumber (byte_val b)) <$> d)
  | _ => Throw TypeError
  end.

(** One turn of the loop over [$objects], on the pair [(url, title)]. *)
Definition scan_item (found : option jsstring * option jsstring) (item : plist)
  : option jsstring * option jsstring :=
  match item with
  | PString s =>
      if starts_with Z.eqb (lit "http") s then (Some s, found.2)
      else if (5 <? str_length s) && negb (isMetadataString s)
      then (found.1, if truthy_str found.2 then found.2 else Some s)
      else found
  | _ => found
  end.

(** [obj.$objects]: reading a property of [null] throws. *)
Definition objects_of (obj : plist) : completion (option plist) :=
  match obj with
  | PNull => Throw TypeError
  | _ => Normal (get_prop obj (lit "$objects"))
  end.

(** "Look for URL and title in parsed structure". *)
Definition structured_preview (parsed : list plist) : completion (option link_preview) :=
  match parsed with
  | [] => Normal None
  | obj :: _ =>
      cbind (objects_of obj) (fun objects =>
        match objects with
        | Some objects =>
            if truthy objects then
              cbind (items_of objects) (fun items =>
                let found := foldl scan_item (None, None) items in
                match found.1 with
                | Some ((_ :: _) as u) => Normal (Some {| url := u; title := found.2 |})
                | _ => Normal None
                end)
            else Normal None
        | None => Normal None
        end)
  end.

(** The class [[^\x00-\x1f\x7f-\xff]]. *)
Definition raw_url_char (c : Z) : bool :=
  negb (in_range 0 0x1f c || in_range 0x7f 0xff c).

(** [str.match(/https?:\/\/[^\x00-\x1f\x7f-\xff]+/)]: the first match. *)
Fixpoint first_match (t : jsstring) : option jsstring :=
  match t with
  | [] => None
  | _ :: t' =>
      match match_url Z.eqb raw_url_char t with
      | Some u => Some u
      | None => first_match t'
      end
  end.

(** "Fallback: regex extraction from raw buffer". *)
Definition raw_preview (data : buffer) : option link_preview :=
  match first_match (toString_utf8 data) with
  | Some urlMatch =>
      match filter (fun c => Is_true (in_range 0x20 0x7e c)) urlMatch with
      | (_ :: _) as u => Some {| url := u; title := None |}
      | [] => None
      end
  | None => None
  end.

Section LinkPreview.

Variable parseBuffer : buffer -> completion (list plist).

(** [parseLinkPreview(buffer)]; [None] is a null buffer. *)
Definition parseLinkPreview (buffer : option buffer) : completion (option link_preview) :=
  match buffer with
  | None => Normal None
  | Some data =>
      try_catch
        (cbind (parseBuffer data) (fun parsed =>
           cbind (structured_preview parsed) (fun found =>
             match found with
             | Some preview => Normal (Some preview)
             | None => Normal (raw_preview data)
             end)))
        (fun _ => Normal None)
  end.

End LinkPreview.

End Urls.

(** ** server/helpers/unicode.js *)

Module Unicode.
Import JS.

(** [INVISIBLE_CHARS_REGEX] *)
Definition is_invisible (c : Z) : bool :=
  bool_decide (c ∈ [0xFFFC; 0xFFFD; 0x200B; 0x200C; 0x200D; 0x2060; 0xFEFF; 0x200A]).

(** [cleanText(text)] *)
Definition cleanText (text : option jsstring) : jsstring :=
  match text with
  | Some ((_ :: _) as t) => trim (filter (fun c => is_invisible c = false) t)
  | _ => []
  end.

(** [hasVisibleText(text)] *)
Definition hasVisibleText (text : option jsstring) : bool :=
  0 <? Text.str_length (cleanText text).

End Unicode.

(** ** server/helpers/phone.js *)

Module Phone.
Import JS.

Definition is_digit (c : Z) : bool := Text.in_range 48 57 c.

(** [s.slice(start)] *)
Definition slice_from {A} (l : list A) (start : Z) : list A :=
  SearchRoute.js_slice l start (Z.of_nat (length l)).

(** [normalizePhone(phone)] *)
Definition normalizePhone (phone : option jsstring) : jsstring :=
  match phone with
  | Some ((_ :: _) as p) =>
      let digits := filter (fun c => Is_true (is_digit c)) p in
      let digits :=
        if (Z.of_nat (length digits) =? 11) && starts_with Z.eqb (lit "1") digits
        then slice_from digits 1 else digits in
      if 10 <=? Z.of_nat (length digits) then slice_from digits (-10) else []
  | _ => []
  end.

Section Email.

(** [String.prototype.toLowerCase], which follows the Unicode case
    mappings. *)
Variable toLowerCase : jsstring -> jsstring.

(** [normalizeEmail(email)] *)
Definition normalizeEmail (email : option jsstring) : jsstring :=
  match email with
  | Some ((_ :: _) as e) => trim (toLowerCase e)
  | _ => []
  end.

End Email.

End Phone.

(** ** server/db/contacts.js: the contact store *)

Module Contacts.
Import JS SearchRoute Phone.

(** The three maps of a [ContactStore]; a group keeps its identifiers in
    the order they were added, each once. *)
Record store := {
  nameMap : gmap jsstring jsstring;
  idMap : gmap jsstring jsstring;
  groupMap : gmap jsstring contact_group;
  loaded : bool;
}.

(** [new ContactStore()] *)
Definition new_store : store :=
  {| nameMap := ∅; idMap := ∅; groupMap := ∅; loaded := false |}.

(** [set.add(x)] on a set kept in insertion order. *)
Definition set_add (x : jsstring) (s : list jsstring) : list jsstring :=
  if bool_decide (x ∈ s) then s else s ++ [x].

(** [addContact(identifier, name, contactId)] *)
Definition addContact (s : store) (identifier name contactId : jsstring) : store :=
  let group :=
    match groupMap s !! contactId with
    | Some group => group
    | None => {| g_name := name; identifiers := [] |}
    end in
  {| nameMap := <[identifier := name]> (nameMap s);
     idMap := <[identifier := contactId]> (idMap s);
     groupMap :=
       <[contactId := {| g_name := g_name group;
                         identifiers := set_add identifier (identifiers group) |}]>
         (groupMap s);
     loaded := loaded s |}.

(** [clear()] *)
Definition clear (s : store) : store := new_store.

(** [getStats()] *)
Definition getStats (s : store) : Z * Z * Z :=
  (Z.of_nat (size (nameMap s)), Z.of_nat (size (idMap s)),
   Z.of_nat (size (groupMap s))).

(** [getContactGroupMap()] *)
Definition getContactGroupMap (s : store) : gmap jsstring contact_group := groupMap s.

Section Lookup.

Variable toLowerCase : jsstring -> jsstring.

(** "Format phone numbers nicely": [(xxx) xxx-xxxx]. *)
Definition format_phone (normalizedPhone : jsstring) : jsstring :=
  lit "(" ++ js_slice normalizedPhone 0 3 ++ lit ") "
  ++ js_slice normalizedPhone 3 6 ++ lit "-" ++ slice_from normalizedPhone 6.

(** [getDisplayName(identifier)]; [None] is a null identifier. *)
Definition getDisplayName (s : store) (identifier : option jsstring) : jsstring :=
  match identifier with
  | Some ((_ :: _) as identifier) =>
      match nameMap s !! identifier with
      | Some name => name
      | None =>
          let normalizedPhone := normalizePhone (Some identifier) in
          let by_phone :=
            if truthy_str (Some normalizedPhone) then
              match nameMap s !! normalizedPhone with
              | Some name => Some name
              | None => nameMap s !! (lit "+1" ++ normalizedPhone)
              end
            else None in
          match by_phone with
          | Some name => name
          | None =>
              let normalizedEmailAddr := normalizeEmail toLowerCase (Some identifier) in
              let by_email :=
                if truthy_str (Some normalizedEmailAddr)
                then nameMap s !! normalizedEmailAddr else None in
              match by_email with
              | Some name => name
              | None =>
                  if truthy_str (Some normalizedPhone)
                     && (Z.of_nat (length normalizedPhone) =? 10)
                  then format_phone normalizedPhone
                  else identifier
              end
          end
      end
  | _ => lit "Unknown"
  end.

(** [getContactId(identifier)] *)
Definition getContactId (s : store) (identifier : option jsstring) : option jsstring :=
  match identifier with
  | Some ((_ :: _) as identifier) =>
      match idMap s !! identifier with
      | Some contactId => Some contactId
      | None =>
          let normalizedPhone := normalizePhone (Some identifier) in
          match (if truthy_str (Some normalizedPhone)
                 then idMap s !! normalizedPhone else None) with
          | Some contactId => Some contactId
          | None =>
              let normalizedEmailAddr := normalizeEmail toLowerCase (Some identifier) in
              if truthy_str (Some normalizedEmailAddr)
              then idMap s !! normalizedEmailAddr else None
          end
      end
  | _ => None
  end.

(** [getGroupMemberNames(participantsStr)] *)
Definition getGroupMemberNames (s : store) (participantsStr : option jsstring)
  : list jsstring :=
  match participantsStr with
  | Some ((_ :: _) as str) =>
      (fun p => getDisplayName s (Some p))
        <$> filter (fun p => Is_true (truthy_str (Some p))) (trim <$> split_comma str)
  | _ => []
  end.

(** The loop body of [loadContactsFromDb] for a row of phone numbers: the
    number as written, its normal form and the normal form after [+1]. *)
Definition add_phone (s : store) (phone name contactId : jsstring) : store :=
  let normalized := normalizePhone (Some phone) in
  let s := addContact s phone name contactId in
  if truthy_str (Some normalized) then
    addContact (addContact s normalized name contactId)
      (lit "+1" ++ normalized) name contactId
  else s.

(** The loop body for a row of e-mail addresses. *)
Definition add_email (s : store) (email name contactId : jsstring) : store :=
  addContact (addContact s email name contactId)
    (normalizeEmail toLowerCase (Some email)) name contactId.

End Lookup.

End Contacts.

(** ** server/helpers/filters.js *)

Module Filters.
Import JS SearchRoute.

Record sql_filter := {
  filter_ : jsstring;
  params : list jsstring;
}.

Definition no_filter : sql_filter := {| filter_ := []; params := [] |}.

(** [parts.join(',')] *)
Fixpoint join_comma (parts : list jsstring) : jsstring :=
  match parts with
  | [] => []
  | [part] => part
  | part :: rest => part ++ 44 :: join_comma rest
  end.

(** [[...allIdentifiers].map(() => '?').join(',')] *)
Definition placeholders (allIdentifiers : list jsstring) : jsstring :=
  join_comma ((fun _ => lit "?") <$> allIdentifiers).

Section Builders.

(** [getContactGroupMap()] *)
Variable contactGroupMap : gmap jsstring contact_group.

(** The loop that fills the set [allIdentifiers], kept in insertion order. *)
Definition all_identifiers (contactIds : list jsstring) : list jsstring :=
  foldl (fun allIdentifiers contactId =>
           match contactGroupMap !! contactId with
           | Some group =>
               foldl (fun acc id => Contacts.set_add id acc) allIdentifiers
                 (identifiers group)
           | None => allIdentifiers
           end)
        [] contactIds.

(** [buildContactFilter(contactIds)] *)
Definition buildContactFilter (contactIds : list jsstring) : sql_filter :=
  match contactIds with
  | [] => no_filter
  | _ :: _ =>
      let allIdentifiers := all_identifiers contactIds in
      if Z.of_nat (length allIdentifiers) =? 0 then no_filter
      else
        {| filter_ :=
             lit " AND cmj.chat_id IN (" ++ [10]
             ++ lit "      SELECT DISTINCT chj.chat_id FROM chat_handle_join chj" ++ [10]
             ++ lit "      JOIN handle h ON chj.handle_id = h.ROWID" ++ [10]
             ++ lit "      WHERE h.id IN (" ++ placeholders allIdentifiers ++ lit ")"
             ++ [10] ++ lit "    )";
           params := allIdentifiers |}
  end.

(** [buildHandleFilter(contactIds)] *)
Definition buildHandleFilter (contactIds : list jsstring) : sql_filter :=
  match contactIds with
  | [] => no_filter
  | _ :: _ =>
      let allIdentifiers := all_identifiers contactIds in
      if Z.of_nat (length allIdentifiers) =? 0 then no_filter
      else
        {| filter_ := lit " AND h.id IN (" ++ placeholders allIdentifiers ++ lit ")";
           params := allIdentifiers |}
  end.

End Builders.

(** The conversations the subquery of [buildContactFilter] selects when its
    placeholders are bound to the parameters: the query is the one the
    search handler runs for a group. *)
Definition filter_chat_ids (f : sql_filter) (src : Db.source_db) : list Z :=
  chat_ids_of (params f) src.

End Filters.

(** ** server/routes/links.js *)

Module Links.
Import JS SearchRoute.

(** A row of the query of [GET /global/links]. *)
Record link_row := {
  lr_text : option jsstring;
  lr_attributedBody : option buffer;
  lr_date : option Z;
  lr_is_from_me : Z;
  lr_contact_identifier : option jsstring;
}.

Record link := {
  l_url : jsstring;
  l_date : option Z;
  l_contact : jsstring;
  l_is_from_me : Z;
}.

Section Extract.

Variable parseBuffer : buffer -> completion (list Text.plist).
Variable getDisplayName : option jsstring -> jsstring.

(** The inner loop of [extractLinksFromRows]: the URLs of one row, on the
    pair of the set [seen] and the list [links]. *)
Definition add_urls (row : link_row) (urls : list jsstring)
    (acc : list jsstring * list link) : list jsstring * list link :=
  foldl (fun acc url =>
           if bool_decide (url ∈ acc.1) then acc
           else (url :: acc.1,
                 acc.2 ++ [ {| l_url := url;
                               l_date := convertMacTime (lr_date row);
                               l_contact := getDisplayName (lr_contact_identifier row);
                               l_is_from_me := lr_is_from_me row |} ]))
        acc urls.

(** [extractLinksFromRows(rows)] *)
Fixpoint links_from (rows : list link_row) (acc : list jsstring * list link)
  : completion (list link) :=
  match rows with
  | [] => Normal acc.2
  | row :: rest =>
      cbind (Text.getMessageText parseBuffer
               {| Text.row_text := lr_text row;
                  Text.row_attributedBody := lr_attributedBody row |})
        (fun text => links_from rest (add_urls row (Urls.extractUrls text) acc))
  end.

Definition extractLinksFromRows (rows : list link_row) : completion (list link) :=
  links_from rows ([], []).

End Extract.

End Links.

(** ** server/helpers/attachments.js *)

Module Attachments.
Import JS.

Inductive attachment_type := image | video | audio | link_preview | other.

#[global] Instance attachment_type_eq_dec : EqDecision attachment_type.
Proof. solve_decision. Defined.

(** [s] ends with [suffix], the characters compared by [eqb]. *)
Definition ends_with (eqb : Z -> Z -> bool) (suffix s : jsstring) : bool :=
  starts_with eqb (rev suffix) (rev s).

(** [hay.includes(needle)] *)
Fixpoint includes (needle hay : jsstring) : bool :=
  starts_with Z.eqb needle hay
  || match hay with
     | [] => false
     | _ :: hay' => includes needle hay'
     end.

(** [/\.(e1|e2|...)$/i.test(name)] *)
Definition has_extension (extensions : list string) (name : jsstring) : bool :=
  existsb (fun ext => ends_with Urls.ci_eqb (46 :: lit ext) name) extensions.

Section Types.

Variable toLowerCase : jsstring -> jsstring.

(** [getAttachmentType(mimeType, filename)] *)
Definition getAttachmentType (mimeType filename : option jsstring) : attachment_type :=
  if negb (truthy_str mimeType) && negb (truthy_str filename) then other
  else
    let mime := toLowerCase (default [] mimeType) in
    let name := toLowerCase (default [] filename) in
    if starts_with Z.eqb (lit "image/") mime
       || has_extension ["jpg"; "jpeg"; "png"; "gif"; "heic"; "webp"; "tiff"]%string name
    then image
    else if starts_with Z.eqb (lit "video/") mime
            || has_extension ["mov"; "mp4"; "m4v"; "avi"; "webm"]%string name
    then video
    else if starts_with Z.eqb (lit "audio/") mime
            || has_extension ["mp3"; "m4a"; "wav"; "aac"; "caf"]%string name
    then audio
    else if includes (lit "pluginpayloadattachment") name then link_preview
    else other.

End Types.

End Attachments.

(** ** server/routes/conversations.js: the preview of the last message *)

Module Conversations.
Import JS Db Attachments.

Record attachment_row := {
  mime_type : option jsstring;
  filename : option jsstring;
}.

(** The tables of chat.db that hold the attachments. *)
Record media_db := {
  attachment : list (Z * attachment_row);          (* ROWID, row *)
  message_attachment_join : list (Z * Z);          (* message_id, attachment_id *)
}.

(** [SELECT a.mime_type, a.filename FROM message_attachment_join maj
     JOIN attachment a ON maj.attachment_id = a.ROWID WHERE maj.message_id = ?] *)
Definition attachments_of (mdb : media_db) (messageId : Z) : list attachment_row :=
  maj ← message_attachment_join mdb;
  a ← attachment mdb;
  if bool_decide (maj.2 = a.1) && bool_decide (maj.1 = messageId) then [a.2] else [].

(** A number in a template literal. *)
Definition decimal (n : nat) : jsstring :=
  lit (NilEmpty.string_of_uint (Nat.to_uint n)).

(** [parts.join(', ')] *)
Fixpoint join_comma_space (parts : list jsstring) : jsstring :=
  match parts with
  | [] => []
  | [part] => part
  | part :: rest => part ++ lit ", " ++ join_comma_space rest
  end.

Section Preview.

Variable parseBuffer : buffer -> completion (list Text.plist).
Variable toLowerCase : jsstring -> jsstring.

(** The object [counts]: how many attachments of a type. *)
Definition count_type (attachments : list attachment_row) (t : attachment_type) : nat :=
  length (filter (fun att => getAttachmentType toLowerCase (mime_type att) (filename att) = t)
            attachments).

(** [formatAttachmentPreview(attachments)] *)
Definition formatAttachmentPreview (attachments : list attachment_row) : option jsstring :=
  match attachments with
  | [] => None
  | _ :: _ =>
      let counts := count_type attachments in
      let part (n : nat) (singular : string) (plural : jsstring) : list jsstring :=
        if (0 <? n)%nat
        then [decimal n ++ lit singular ++ (if (1 <? n)%nat then plural else [])]
        else [] in
      let parts :=
        part (counts image) " Photo"%string (lit "s")
        ++ part (counts video) " Video"%string (lit "s")
        ++ part (counts audio) " Audio"%string []
        ++ part (counts other) " File"%string (lit "s") in
      match parts with
      | [] => None
      | _ :: _ => Some (lit "Attachment: " ++ join_comma_space parts)
      end
  end.

(** [getLastMessagePreview(messageId, text, attributedBody)] *)
Definition getLastMessagePreview (mdb : media_db) (messageId : option Z)
    (text : option jsstring) (attributedBody : option buffer) : M jsstring :=
  lastMessage ←
    (if negb (truthy_str text) || negb (truthy_str (Some (Unicode.cleanText text)))
     then lift (Text.getMessageText parseBuffer
                  {| Text.row_text := text; Text.row_attributedBody := attributedBody |})
     else ret text);
  let cleanedMessage := Unicode.cleanText lastMessage in
  if truthy_str (Some cleanedMessage) then ret cleanedMessage
  else
    match messageId with
    | Some id =>
        if negb (id =? 0) then
          attachments ← (tick;; ret (attachments_of mdb id));
          match formatAttachmentPreview attachments with
          | Some ((_ :: _) as preview) => ret preview
          | _ => ret (lit "[Media]")
          end
        else ret (lit "[Media]")
    | None => ret (lit "[Media]")
    end.

End Preview.

End Conversations.

(** * Reference definitions and example data *)

Module Ref.
Import JS Db SearchIndex.

(** ** Buffers and a parser to run the examples with *)

(** bplist-parser rejects a buffer that does not begin with the magic
    [bplist]; this parser does the same, and reports an archive without
    objects for any other buffer. *)
Definition magic_only_parser (b : buffer) : completion (list Text.plist) :=
  if starts_with Byte.eqb (bytes_of "bplist") b then Normal [] else Throw ParseError.

(** Marker, length-prefix marker, length 5, the text, end marker. *)
Definition hello_fallback : buffer :=
  bytes_of "NSString" ++ [x2b; x05] ++ bytes_of "Hello" ++ [x86].

(** The archive of the test "should extract simple message text". *)
Definition hello_streamtyped : buffer :=
  [ x04; x0b; x73; x74; x72; x65; x61; x6d; x74; x79; x70; x65; x64;
    x81; xe8; x03; x84; x01; x40; x84; x84; x84; x12; x4e; x53; x41;
    x74; x74; x72; x69; x62; x75; x74; x65; x64; x53; x74; x72; x69;
    x6e; x67; x00; x84; x84; x08; x4e; x53; x4f; x62; x6a; x65; x63;
    x74; x00; x85; x92; x84; x84; x84; x08; x4e; x53; x53; x74; x72;
    x69; x6e; x67; x01; x94; x84; x01; x2b; x05; x48; x65; x6c; x6c;
    x6f; x86 ].

(** As [hello_fallback], with the length byte 0x00. *)
Definition hello_zero_length : buffer :=
  bytes_of "NSString" ++ [x2b; x00] ++ bytes_of "Hello" ++ [x86].

(** As [hello_fallback], with the two-byte length 5 and no end marker. *)
Definition hello_two_byte_length : buffer :=
  bytes_of "NSString" ++ [x2b; x81; x05; x00] ++ bytes_of "Hello".

Definition no_marker : buffer := bytes_of "random data without marker".

(** A blob whose fallback text is "call me". *)
Definition call_me_blob : buffer :=
  bytes_of "NSString" ++ [x2b; x07] ++ bytes_of "call me" ++ [x86].

(** ** The extractor's fallback, in the words of the specification *)

(** "ends the text at min(start + length, position of 0x86)" *)
Definition spec_text_end (data : buffer) (messageLength textStart : Z) : Z :=
  Z.min (textStart + messageLength) (indexOf data [Text.END_MARKER] textStart).

(** Where the text ends when the length does not bound it: at the end
    marker, at the end of the buffer when there is none. *)
Definition end_bound (data : buffer) (textStart : Z) : Z :=
  let markerIdx := indexOf data [Text.END_MARKER] textStart in
  if markerIdx =? -1 then buf_length data else markerIdx.

(** What the fallback returns when it reads the text from [textStart] to
    [textEnd]: the bytes between them, decoded and cleaned, or null when
    nothing is left of them. *)
Definition fallback_text (data : buffer) (textStart textEnd : Z) : option jsstring :=
  let text := Text.cleanExtractedText (toString_utf8 (slice data textStart textEnd)) in
  if 0 <? Text.str_length text then Some text else None.

(** As [hello_fallback], with the three-byte length 5. *)
Definition hello_three_byte_length : buffer :=
  bytes_of "NSString" ++ [x2b; x82; x05; x00; x00] ++ bytes_of "Hello" ++ [x86].

(** As [hello_fallback], with the four-byte length 300: the end marker
    comes first. *)
Definition hello_four_byte_length : buffer :=
  bytes_of "NSString" ++ [x2b; x83; x2c; x01; x00; x00] ++ bytes_of "Hello" ++ [x86].

(** ** The index store *)

Definition empty_tables : tables := {| message_text := ∅; index_metadata := ∅ |}.

Definition fresh : index_db := {| current := empty_tables; txn := None |}.

Definition world_of (d : index_db) (f : option nat) : world :=
  {| idb := d; fault := f |}.

(** The cursor a connection reads. *)
Definition cursor (d : index_db) : Z := cursor_of (current d).

Definition set_cursor (c : Z) (t : tables) : tables :=
  {| message_text := message_text t;
     index_metadata := <[LAST_MESSAGE_ID := c]> (index_metadata t) |}.

(** The largest identifier among [start] and the rows. *)
Definition max_id (rows : list joined_row) (start : Z) : Z :=
  foldl (fun m r => Z.max m (message_id r)) start rows.

(** A computation run inside the transaction whose snapshot is [saved]
    leaves the transaction open, and if it throws the fault is spent. *)
Definition in_txn {A} (m : M A) : Prop :=
  forall d f saved,
    txn d = Some saved ->
    txn (idb (m (world_of d f)).2) = Some saved
    /\ (forall e, (m (world_of d f)).1 = Throw e -> fault (m (world_of d f)).2 = None).

(** A computation that, inside a transaction, can only throw with the
    transaction still open and the fault spent. *)
Definition throw_safe {A} (m : M A) : Prop :=
  forall d f saved e w',
    txn d = Some saved ->
    m (world_of d f) = (Throw e, w') ->
    txn (idb w') = Some saved /\ fault w' = None.

(** A computation whose normal outcome does not depend on the fault. *)
Definition fault_indep {A} (m : M A) : Prop :=
  forall d f a w',
    m (world_of d f) = (Normal a, w') ->
    m (world_of d None) = (Normal a, world_of (idb w') None).

(** A computation that always throws. *)
Definition never_normal {A} (m : M A) : Prop :=
  forall w a w', m w <> (Normal a, w').

(** ** What the indexer stores for a row, and what the resolver would *)

Section Resolution.

Variable parseBuffer : buffer -> completion (list Text.plist).

(** The text [indexNewMessages] writes for a row, if it writes one. *)
Definition stored_text (msg : joined_row) : completion (option jsstring) :=
  cbind (resolve_text parseBuffer msg) (fun text => Normal (text_to_store text)).

(** The Message Text Resolver of the specification on the same row, with
    the trim and the blank check that precede the write. *)
Definition spec_stored_text (msg : joined_row) : completion (option jsstring) :=
  cbind (Text.getMessageText parseBuffer
           {| Text.row_text := m_text msg;
              Text.row_attributedBody := m_attributedBody msg |})
        (fun text => Normal (text_to_store text)).

(** The row has a blob and a plain text of exactly one character once
    trimmed: the rows on which the two resolutions part. *)
Definition single_character_with_blob (msg : joined_row) : Prop :=
  is_Some (m_attributedBody msg) /\
  exists s, m_text msg = Some s /\ length (trim s) = 1%nat.

(** The extractor never throws: its value. *)
Definition extracted (b : option buffer) : option jsstring :=
  match Text.extractTextFromAttributedBody parseBuffer b with
  | Normal r => r
  | Throw _ => None
  end.

(** The text the indexer stores for a row, as a value. *)
Definition resolved (msg : joined_row) : option jsstring :=
  match stored_text msg with
  | Normal r => r
  | Throw _ => None
  end.

(** The statement that writes the entry of a row. *)
Definition insert_of (msg : joined_row) (trimmed : jsstring) : stmt :=
  INSERT_OR_REPLACE_message_text (message_id msg)
    {| e_text := trimmed; e_date := m_date msg; e_chat_id := chat_id msg |}.

(** The effect of one turn of the batch loop on the tables. *)
Definition upsert (t : tables) (msg : joined_row) : tables :=
  match resolved msg with
  | Some trimmed =>
      {| message_text :=
           <[message_id msg := {| e_text := trimmed; e_date := m_date msg;
                                  e_chat_id := chat_id msg |}]> (message_text t);
         index_metadata := index_metadata t |}
  | None => t
  end.

(** The batch a call reads when the tables are [t]. *)
Definition batch_of (src : source_db) (batchSize : Z) (t : tables) : list joined_row :=
  select_new_messages src (cursor_of t) batchSize.

(** The tables after a committed batch. *)
Definition apply_batch (rows : list joined_row) (t : tables) : tables :=
  match rows with
  | [] => t
  | _ :: _ => set_cursor (max_id rows (cursor_of t)) (foldl upsert t rows)
  end.

Definition after_batch (src : source_db) (batchSize : Z) (t : tables) : tables :=
  apply_batch (batch_of src batchSize t) t.

(** The text the indexer stores for a message, whatever its conversation. *)
Definition indexed_text_of (m : message_row) : option jsstring :=
  resolved {| message_id := ROWID m; m_text := text m;
              m_attributedBody := attributedBody m; m_date := date m;
              chat_id := 0 |}.

(** The text the index is to hold under an identifier: the one stored for
    a joined row of that identifier, none when the join has no such row. *)
Definition expected_text (src : source_db) (id : Z) : option jsstring :=
  match filter (fun r => message_id r = id) (join_messages src) with
  | r :: _ => resolved r
  | [] => None
  end.

(** The invariant of the cursor: up to the cursor the index holds exactly
    the expected texts, and beyond it nothing. *)
Definition consistent (src : source_db) (t : tables) : Prop :=
  forall id,
    e_text <$> (message_text t !! id)
    = if decide (id <= cursor_of t) then expected_text src id else None.

(** The joined rows a table state has not reached yet. *)
Definition pending (src : source_db) (t : tables) : list joined_row :=
  filter (fun r => cursor_of t < message_id r) (join_messages src).

(** A sequence of calls of [indexNewMessages]: each with the message store
    as it is at that time, a batch size, and the fault injected into it. *)
Fixpoint run_calls (calls : list (source_db * Z * option nat)) (d : index_db)
  : index_db :=
  match calls with
  | [] => d
  | (src, batchSize, f) :: rest =>
      run_calls rest
        (idb (indexNewMessages parseBuffer src batchSize {| idb := d; fault := f |}).2)
  end.

End Resolution.

Definition row (id : Z) (t : option jsstring) (b : option buffer) (chat : Z) : joined_row :=
  {| message_id := id; m_text := t; m_attributedBody := b; m_date := Some 0;
     chat_id := chat |}.


Definition msg (id : Z) (t : option jsstring) (b : option buffer) : message_row :=
  {| ROWID := id; text := t; attributedBody := b; date := Some (id * 10) |}.

(** The end-to-end example of the specification: "hi there", a blob that
    encodes a text, and a blank message, all in conversation 7. *)
Definition spec_example : source_db :=
  {| message := [ msg 1 (Some (lit "hi there")) None;
                  msg 2 None (Some call_me_blob);
                  msg 3 (Some []) None ];
     chat_message_join := [(7, 1); (7, 2); (7, 3)];
     handle := [];
     chat_handle_join := [] |}.


(** ** The query engine *)

(** [q] occurs in [t] as a substring, characters compared by [eqb]. *)
Fixpoint is_infix_by (eqb : Z -> Z -> bool) (q t : jsstring) : bool :=
  starts_with eqb q t
  || match t with
     | [] => false
     | _ :: t' => is_infix_by eqb q t'
     end.

(** The two case rules a substring match may follow: exact, or regardless
    of the case of ASCII letters. *)
Definition contains_exact (q t : jsstring) : bool := is_infix_by Z.eqb q t.
Definition contains_nocase (q t : jsstring) : bool :=
  is_infix_by (fun a b => lower_ascii a =? lower_ascii b) q t.

(** The query holds neither [%] nor [_]. *)
Definition wildcard_free (q : jsstring) : Prop :=
  Forall (fun c => c <> 37 /\ c <> 95) q.

Section QueryRef.
Import SearchRoute.

Variable getDisplayName : jsstring -> jsstring.
Variable contactGroupMap : gmap jsstring contact_group.

(** The conversations of one selected contact. *)
Definition chats_of_contact (src : source_db) (contactId : jsstring) : gset Z :=
  match contactGroupMap !! contactId with
  | Some group => list_to_set (chat_ids_of (identifiers group) src)
  | None => ∅
  end.

(** The set of conversation identifiers a filter resolves to. *)
Definition resolved_chat_ids (src : source_db) (contactIds : list jsstring) : gset Z :=
  ⋃ (chats_of_contact src <$> contactIds).

(** "The substring matches intersected with the rows whose conversation
    identifier lies in the set the filter resolves to". *)
Definition spec_filtered (src : source_db) (contactIds : list jsstring)
    (matches : list index_row) : list index_row :=
  filter (fun m => r_chat_id m ∈ resolved_chat_ids src contactIds) matches.

(** What the handler keeps of the matches. *)
Definition filtered (src : source_db) (contactIds : list jsstring)
    (matches : list index_row) : list index_row :=
  if bool_decide (0 < size (resolved_chat_ids src contactIds))%nat
  then spec_filtered src contactIds matches
  else matches.

(** The page of a list: [slice((page - 1) * limit, (page - 1) * limit + limit)]. *)
Definition page_slice {A} (page limit_ : Z) (l : list A) : list A :=
  js_slice l ((page - 1) * limit_) ((page - 1) * limit_ + limit_).

(** A result row, enriched. *)
Definition result_of (src : source_db) (row : index_row) : result :=
  let contactIdentifier :=
    contact_identifier_of (contact_of_chat (r_chat_id row) src) in
  {| res_message_id := r_message_id row;
     res_text := r_text row;
     res_conversation_id := r_chat_id row;
     res_contact_identifier := contactIdentifier;
     res_date := convertMacTime (r_date row);
     res_display_name := getDisplayName contactIdentifier |}.

End QueryRef.

(** An index of three entries that contain "hello", one per conversation. *)
Definition index_abc : index_db :=
  {| current :=
       {| message_text :=
            <[1 := {| e_text := lit "hello from A"; e_date := Some 30; e_chat_id := 1 |}]>
            (<[2 := {| e_text := lit "Hello from B"; e_date := Some 20; e_chat_id := 2 |}]>
            (<[3 := {| e_text := lit "hello from C"; e_date := Some 10; e_chat_id := 3 |}]> ∅));
          index_metadata := <[LAST_MESSAGE_ID := 3]> ∅ |};
     txn := None |}.

(** Conversation 1 is with handle 10, conversation 2 with handle 20,
    conversation 3 with handle 30. *)
Definition chats_abc : source_db :=
  {| message := [];
     chat_message_join := [];
     handle := [(10, lit "+15550001"); (20, lit "+15550002"); (30, lit "+15550003")];
     chat_handle_join := [(1, 10); (2, 20); (3, 30)] |}.

(** One contact, "A", with the identifier of handle 10. *)
Definition contacts_a : gmap jsstring SearchRoute.contact_group :=
  {[ lit "A" := {| SearchRoute.g_name := lit "Alice";
                   SearchRoute.identifiers := [lit "+15550001"] |} ]}.

(** An index of [n] entries "hello", in conversation 1, dated by identifier. *)
Definition index_of_hellos (n : nat) : index_db :=
  {| current :=
       {| message_text :=
            list_to_map
              ((fun i => (Z.of_nat i, {| e_text := lit "hello";
                                        e_date := Some (Z.of_nat i);
                                        e_chat_id := 1 |}))
                 <$> seq 1 n);
          index_metadata := <[LAST_MESSAGE_ID := Z.of_nat n]> ∅ |};
     txn := None |}.

Definition page_request (query : string) (page : Z) : SearchRoute.request :=
  {| SearchRoute.q := Some (lit query);
     SearchRoute.limit_param := Some 20;
     SearchRoute.page_param := Some page;
     SearchRoute.contacts := None |}.

(** A contact store that knows no name: the identifier itself is shown. *)
Definition raw_identifier (identifier : jsstring) : jsstring := identifier.

Definition request_of (query : string) (contacts : option string) : SearchRoute.request :=
  {| SearchRoute.q := Some (lit query);
     SearchRoute.limit_param := None;
     SearchRoute.page_param := None;
     SearchRoute.contacts := lit <$> contacts |}.


(** Three messages: "a" with an empty blob in conversation 7, "hello" in
    no conversation, "ok" in conversation 7. *)
Definition orphan_example : source_db :=
  {| message := [ msg 1 (Some (lit "a")) (Some []);
                  msg 2 (Some (lit "hello")) None;
                  msg 3 (Some (lit "ok")) None ];
     chat_message_join := [(7, 1); (7, 3)];
     handle := [];
     chat_handle_join := [] |}.

(** The Message Text Resolver on a message, trimmed as for storage. *)
Definition spec_text_of (parseBuffer : buffer -> completion (list Text.plist))
    (m : message_row) : completion (option jsstring) :=
  spec_stored_text parseBuffer
    {| message_id := ROWID m; m_text := text m;
       m_attributedBody := attributedBody m; m_date := date m; chat_id := 0 |}.

End Ref.

(** * Reference definitions for the further properties *)

Module Upkeep.
Import JS Db SearchIndex Ref.

(** The message store has changed only above [c]: the joined rows with an
    identifier up to [c] are those of before. *)
Definition unchanged_up_to (c : Z) (src src' : source_db) : Prop :=
  filter (fun r => message_id r <= c) (join_messages src')
  = filter (fun r => message_id r <= c) (join_messages src).

(** Every stored text is what [text.trim()] leaves of a text, and not empty. *)
Definition texts_trimmed (t : tables) : Prop :=
  forall id e, message_text t !! id = Some e ->
    e_text e <> [] /\ trim (e_text e) = e_text e.

(** The store of the specification's example with a later message. *)
Definition spec_example_grown : source_db :=
  {| message := message spec_example ++ [ msg 4 (Some (lit "see you")) None ];
     chat_message_join := chat_message_join spec_example ++ [(7, 4)];
     handle := [];
     chat_handle_join := [] |}.

(** A store whose latest message belongs to no conversation. *)
Definition trailing_orphan : source_db :=
  {| message := [ msg 1 (Some (lit "hi there")) None;
                  msg 2 (Some (lit "lost")) None ];
     chat_message_join := [(7, 1)];
     handle := [];
     chat_handle_join := [] |}.

End Upkeep.

Module Route.
Import JS Db SearchIndex SearchRoute Ref.

(** A computation that leaves the index store as it is, whatever happens. *)
Definition reads_only {A} (m : M A) : Prop :=
  forall d f, idb (m (world_of d f)).2 = d.

(** The same request, for another page. *)
Definition with_page (req : request) (page : Z) : request :=
  {| q := q req; limit_param := limit_param req;
     page_param := Some page; contacts := contacts req |}.

(** The same request, with another page size. *)
Definition with_limit (req : request) (limit_ : Z) : request :=
  {| q := q req; limit_param := Some limit_;
     page_param := page_param req; contacts := contacts req |}.

(** The results of an answer; none when there is no answer with results. *)
Definition results_of (answer : completion response) : list result :=
  match answer with
  | Normal (Json results _ _ _) => results
  | _ => []
  end.

(** The request that Express hands over when every parameter is written
    once, without brackets. *)
Definition express_of (req : request) : Express.express_request :=
  {| Express.param_q := Express.QString <$> q req;
     Express.param_limit := limit_param req;
     Express.param_page := page_param req;
     Express.param_contacts := Express.QString <$> contacts req |}.

(** The parameter is a string, or is left out. *)
Definition is_string (v : option Express.query_value) : bool :=
  match v with
  | Some (Express.QArray _) | Some (Express.QObject _) => false
  | _ => true
  end.

(** The text of a parameter that is a string. *)
Definition text_of (v : option Express.query_value) : jsstring :=
  match v with
  | Some (Express.QString s) => s
  | _ => []
  end.


(** A query of 49999 letters: with the two [%] around it the pattern has
    50001 bytes. *)
Definition long_query : Express.express_request :=
  {| Express.param_q := Some (Express.QString (replicate (Z.to_nat 49999) 97));
     Express.param_limit := None;
     Express.param_page := None;
     Express.param_contacts := None |}.

(** The dates of a list of results do not increase. *)
Definition newest_first (results : list result) : Prop :=
  StronglySorted (fun a b => date_leb (res_date b) (res_date a) = true) results.

End Route.

Module UrlRef.
Import JS Urls.

(** [u] occurs in [t] as a run of consecutive characters. *)
Definition substring_of (u t : jsstring) : Prop :=
  exists before after, t = before ++ u ++ after.

(** [u] begins with [http://] or [https://], in any letter case. *)
Definition has_scheme (u : jsstring) : Prop :=
  starts_with ci_eqb (lit "http://") u = true
  \/ starts_with ci_eqb (lit "https://") u = true.

(** A parser for the examples that takes every buffer for an archive whose
    objects are the two strings of a link. *)
Definition link_parser (b : buffer) : completion (list Text.plist) :=
  Normal [ Text.PDict
             [ (lit "$objects",
                Text.PArray [ Text.PString (lit "$null");
                              Text.PString (lit "Example Domain");
                              Text.PString (lit "https://example.com/") ]) ] ].

End UrlRef.

Module TextRef.
Import JS.

(** A parser for the examples that takes every buffer for a keyed archive
    with these objects: the null marker, a class name, then the text. *)
Definition archive_parser (b : buffer) : completion (list Text.plist) :=
  Normal [ Text.PDict
             [ (lit "$objects",
                Text.PArray [ Text.PString (lit "$null");
                              Text.PString (lit "NSMutableString");
                              Text.PString (lit " Hello there ");
                              Text.PString (lit "later") ]) ] ].

End TextRef.

Module ContactRef.
Import JS SearchRoute Contacts.

(** The store after [addContact] has been called with each entry in turn,
    an entry being (identifier, name, contactId). *)
Definition store_of (entries : list (jsstring * jsstring * jsstring)) : store :=
  foldl (fun s e => addContact s e.1.1 e.1.2 e.2) new_store entries.

(** Every identifier the store maps to a contact is among the identifiers
    of that contact's group, and a group lists each identifier once. *)
Definition linked (s : store) : Prop :=
  (forall identifier contactId,
     idMap s !! identifier = Some contactId ->
     exists group, groupMap s !! contactId = Some group
                   /\ identifier ∈ identifiers group)
  /\ (forall contactId group,
        groupMap s !! contactId = Some group -> NoDup (identifiers group)).

(** The number of [?] in an SQL text. *)
Definition count_placeholders (sql : jsstring) : nat :=
  length (filter (fun c => c = 63) sql).

(** A stand-in for [toLowerCase] that is exact on ASCII text. *)
Definition ascii_lower (s : jsstring) : jsstring := SearchIndex.lower_ascii <$> s.

End ContactRef.

Module LinkRef.
Import JS Links.

(** Two messages, the newer first; both hold the same link. *)
Definition two_link_rows : list link_row :=
  [ {| lr_text := Some (lit "new: https://a.example/x, https://b.example");
       lr_attributedBody := None; lr_date := Some 2000000;
       lr_is_from_me := 0; lr_contact_identifier := None |};
    {| lr_text := Some (lit "old: https://a.example/x");
       lr_attributedBody := None; lr_date := Some 1000000;
       lr_is_from_me := 1; lr_contact_identifier := None |} ].

End LinkRef.

(** * Properties *)

Import JS Db SearchIndex Ref.

(** ** The binary text extractor *)

Section ExtractorProps.

Variable parseBuffer : buffer -> completion (list Text.plist).

Lemma byte_val_range (b : byte) : 0 <= byte_val b < 256.
Proof.
  unfold byte_val. pose proof (Byte.to_N_bounded b) as H.
  lia.
Qed.

Lemma buf_get_range (d : buffer) (i v : Z) :
  buf_get d i = Some v -> 0 <= v < 256.
Proof.
  unfold buf_get. destruct (i <? 0); [discriminate|].
  destruct (d !! Z.to_nat i) as [b|]; simpl; [|discriminate].
  intros [= <-]. apply byte_val_range.
Qed.

(** Packing a byte below a shifted value is an addition. *)
Lemma lor_shiftl_add (a b n : Z) :
  0 <= n -> 0 <= a < 2 ^ n -> Z.lor a (Z.shiftl b n) = a + b * 2 ^ n.
Proof.
  intros Hn Ha. rewrite Z.shiftl_mul_pow2 by lia.
  rewrite <- Z.lxor_lor, <- Z.add_nocarry_lxor; try reflexivity.
  all: apply Z.bits_inj'; intros i Hi; rewrite Z.land_spec, Z.bits_0.
  all: destruct (Z.lt_ge_cases i n) as [Hlt|Hge].
  all: try (rewrite (Z.mul_pow2_bits_low b n i) by lia; apply andb_false_r).
  all: rewrite <- (Z.mod_small a (2 ^ n)) by lia.
  all: rewrite Z.mod_pow2_bits_high by lia; reflexivity.
Qed.

Lemma extract_normal (b : option buffer) :
  exists r, Text.extractTextFromAttributedBody parseBuffer b = Normal r.
Proof.
  destruct b as [data|]; simpl; [|by eexists].
  destruct (Text.structured_path parseBuffer data); simpl; [by eexists|].
  destruct (Text.fallback_path data); simpl; by eexists.
Qed.

Lemma extract_extracted (b : option buffer) :
  Text.extractTextFromAttributedBody parseBuffer b = Normal (extracted parseBuffer b).
Proof.
  unfold extracted. destruct (extract_normal b) as [r ->]. reflexivity.
Qed.


(** C7 -- Extractor totality.  For every input the extractor returns a
    value, a text or null, and never raises.  It returns null for a null
    buffer, and for every buffer that holds no [NSString] marker and from
    which the structured path recovers nothing (as from the empty buffer
    and from any buffer that is not a property list). *)
Theorem extract_never_raises :
  (forall buffer, exists r,
      Text.extractTextFromAttributedBody parseBuffer buffer = Normal r)
  /\ Text.extractTextFromAttributedBody parseBuffer None = Normal None
  /\ (forall data,
        Text.structured_path parseBuffer data = None ->
        indexOf data Text.nsStringMarker 0 = -1 ->
        Text.extractTextFromAttributedBody parseBuffer (Some data) = Normal None).
Proof.
  split; [exact extract_normal|]. split; [reflexivity|].
  intros data Hs Hm. simpl. rewrite Hs. unfold Text.fallback_path.
  rewrite Hm. reflexivity.
Qed.

Lemma parse_length_single (data : buffer) (textStart b : Z) :
  buf_get data textStart = Some b -> b < 0x80 ->
  Text.parse_length data textStart = Normal (b, textStart + 1).
Proof.
  intros Hb Hlt. unfold Text.parse_length. rewrite Hb.
  destruct (Z.ltb_spec b 128); [reflexivity|lia].
Qed.

Lemma parse_length_two (data : buffer) (textStart b1 b2 : Z) :
  buf_get data textStart = Some 0x81 ->
  buf_get data (textStart + 1) = Some b1 ->
  buf_get data (textStart + 2) = Some b2 ->
  Text.parse_length data textStart = Normal (b1 + 256 * b2, textStart + 3).
Proof.
  intros H0 H1 H2. unfold Text.parse_length, readUInt16LE. rewrite H0. simpl.
  rewrite H1. replace (textStart + 1 + 1) with (textStart + 2) by lia.
  rewrite H2. reflexivity.
Qed.

Lemma parse_length_three (data : buffer) (textStart b1 b2 b3 : Z) :
  buf_get data textStart = Some 0x82 ->
  buf_get data (textStart + 1) = Some b1 ->
  buf_get data (textStart + 2) = Some b2 ->
  buf_get data (textStart + 3) = Some b3 ->
  Text.parse_length data textStart
  = Normal (b1 + 256 * b2 + 65536 * b3, textStart + 4).
Proof.
  intros H0 H1 H2 H3. unfold Text.parse_length. rewrite H0. simpl.
  rewrite H1, H2, H3. simpl.
  apply buf_get_range in H1, H2, H3.
  rewrite (lor_shiftl_add b1 b2 8) by lia.
  rewrite (lor_shiftl_add _ b3 16) by lia.
  f_equal. f_equal. lia.
Qed.

Lemma parse_length_four (data : buffer) (textStart b1 b2 b3 b4 : Z) :
  buf_get data textStart = Some 0x83 ->
  buf_get data (textStart + 1) = Some b1 ->
  buf_get data (textStart + 2) = Some b2 ->
  buf_get data (textStart + 3) = Some b3 ->
  buf_get data (textStart + 4) = Some b4 ->
  Text.parse_length data textStart
  = Normal (b1 + 256 * b2 + 65536 * b3 + 16777216 * b4, textStart + 5).
Proof.
  intros H0 H1 H2 H3 H4. unfold Text.parse_length, readUInt32LE.
  rewrite H0. simpl. rewrite H1.
  replace (textStart + 1 + 1) with (textStart + 2) by lia.
  replace (textStart + 1 + 2) with (textStart + 3) by lia.
  replace (textStart + 1 + 3) with (textStart + 4) by lia.
  rewrite H2, H3, H4. reflexivity.
Qed.

Lemma text_end_cases (data : buffer) (messageLength textStart : Z) :
  Text.text_end data messageLength textStart
  = if 0 <? messageLength
    then Z.min (textStart + messageLength) (end_bound data textStart)
    else end_bound data textStart.
Proof. reflexivity. Qed.

(** The fallback on a buffer from which the structured path recovers
    nothing, with the [NSString] marker at [idx] and the [+] after it at
    [plusIdx], less than 80 bytes from the marker: the extractor returns
    the text between [textStart] and the end found for [messageLength],
    whatever length encoding gave the two. *)
Lemma fallback_reads (data : buffer) (idx plusIdx messageLength textStart : Z) :
  Text.structured_path parseBuffer data = None ->
  indexOf data Text.nsStringMarker 0 = idx -> idx <> -1 ->
  indexOf data [Text.PLUS_BYTE] (idx + buf_length Text.nsStringMarker) = plusIdx ->
  plusIdx <> -1 -> plusIdx < idx + 80 ->
  Text.parse_length data (plusIdx + 1) = Normal (messageLength, textStart) ->
  Text.extractTextFromAttributedBody parseBuffer (Some data)
  = Normal (fallback_text data textStart
              (if 0 <? messageLength
               then Z.min (textStart + messageLength) (end_bound data textStart)
               else end_bound data textStart)).
Proof.
  intros Hs Hidx Hfound Hplus Hpfound Hnear Hlen.
  unfold Text.extractTextFromAttributedBody. rewrite Hs.
  unfold Text.fallback_path. rewrite Hidx.
  destruct (Z.eqb_spec idx (-1)) as [|_]; [done|].
  rewrite Hplus.
  destruct (Z.eqb_spec plusIdx (-1)) as [|_]; [done|].
  destruct (Z.ltb_spec plusIdx (idx + 80)) as [_|]; [|lia].
  cbn [negb andb]. rewrite Hlen. cbn [cbind]. rewrite text_end_cases.
  unfold fallback_text.
  destruct (0 <? Text.str_length _); reflexivity.
Qed.

(** C6 -- Extractor fallback, as the code has it.  The buffer made of the
    [NSString] marker, the length-prefix marker, the length byte 0x05, the
    bytes of "Hello" and the end marker 0x86 yields exactly "Hello" when the
    structured path recovers nothing from it.  On every buffer that the
    fallback reads (nothing from the structured path, the marker, and the
    length-prefix marker less than 80 bytes after it), the extractor
    returns the cleaned text of the bytes from the start to the end, where
    the length and the start follow the table: a byte below 0x80 is the
    length; 0x81, 0x82, 0x83 announce 2, 3, 4 bytes, little-endian.  A
    positive length ends the text at min(start + length, position of 0x86),
    the end of the buffer standing in for a missing 0x86; a length of 0
    does not bound the text, which then runs to the 0x86 (or to the end of
    the buffer). *)
Theorem fallback_length_table :
  (Text.structured_path parseBuffer hello_fallback = None ->
   Text.extractTextFromAttributedBody parseBuffer (Some hello_fallback)
   = Normal (Some (lit "Hello")))
  /\ forall data idx plusIdx,
       Text.structured_path parseBuffer data = None ->
       indexOf data Text.nsStringMarker 0 = idx -> idx <> -1 ->
       indexOf data [Text.PLUS_BYTE] (idx + buf_length Text.nsStringMarker) = plusIdx ->
       plusIdx <> -1 -> plusIdx < idx + 80 ->
       let returns_text messageLength textStart :=
         (0 < messageLength ->
          Text.extractTextFromAttributedBody parseBuffer (Some data)
          = Normal (fallback_text data textStart
                      (Z.min (textStart + messageLength)
                         (end_bound data textStart))))
         /\ (messageLength = 0 ->
             Text.extractTextFromAttributedBody parseBuffer (Some data)
             = Normal (fallback_text data textStart (end_bound data textStart))) in
       (forall b,
          buf_get data (plusIdx + 1) = Some b -> b < 0x80 ->
          returns_text b (plusIdx + 2))
       /\ (forall b1 b2,
             buf_get data (plusIdx + 1) = Some 0x81 ->
             buf_get data (plusIdx + 2) = Some b1 ->
             buf_get data (plusIdx + 3) = Some b2 ->
             returns_text (b1 + 256 * b2) (plusIdx + 4))
       /\ (forall b1 b2 b3,
             buf_get data (plusIdx + 1) = Some 0x82 ->
             buf_get data (plusIdx + 2) = Some b1 ->
             buf_get data (plusIdx + 3) = Some b2 ->
             buf_get data (plusIdx + 4) = Some b3 ->
             returns_text (b1 + 256 * b2 + 65536 * b3) (plusIdx + 5))
       /\ (forall b1 b2 b3 b4,
             buf_get data (plusIdx + 1) = Some 0x83 ->
             buf_get data (plusIdx + 2) = Some b1 ->
             buf_get data (plusIdx + 3) = Some b2 ->
             buf_get data (plusIdx + 4) = Some b3 ->
             buf_get data (plusIdx + 5) = Some b4 ->
             returns_text (b1 + 256 * b2 + 65536 * b3 + 16777216 * b4)
               (plusIdx + 6)).
Proof.
  split.
  { intros Hs. unfold Text.extractTextFromAttributedBody. rewrite Hs.
    vm_compute. reflexivity. }
  intros data idx plusIdx Hs Hidx Hfound Hplus Hpfound Hnear returns_text.
  assert (forall messageLength textStart,
            Text.parse_length data (plusIdx + 1) = Normal (messageLength, textStart) ->
            returns_text messageLength textStart) as Hreads.
  { intros len start Hlen.
    pose proof (fallback_reads data idx plusIdx len start
                  Hs Hidx Hfound Hplus Hpfound Hnear Hlen) as Hrun.
    split.
    - intros Hpos. rewrite Hrun. destruct (Z.ltb_spec 0 len); [reflexivity|lia].
    - intros ->. exact Hrun. }
  split; [|split; [|split]].
  - intros b Hb Hlt. apply Hreads.
    replace (plusIdx + 2) with (plusIdx + 1 + 1) by lia.
    by apply parse_length_single.
  - intros b1 b2 H0 H1 H2. apply Hreads.
    replace (plusIdx + 4) with (plusIdx + 1 + 3) by lia.
    apply parse_length_two; [exact H0| |].
    + by replace (plusIdx + 1 + 1) with (plusIdx + 2) by lia.
    + by replace (plusIdx + 1 + 2) with (plusIdx + 3) by lia.
  - intros b1 b2 b3 H0 H1 H2 H3. apply Hreads.
    replace (plusIdx + 5) with (plusIdx + 1 + 4) by lia.
    apply parse_length_three; [exact H0| | |].
    + by replace (plusIdx + 1 + 1) with (plusIdx + 2) by lia.
    + by replace (plusIdx + 1 + 2) with (plusIdx + 3) by lia.
    + by replace (plusIdx + 1 + 3) with (plusIdx + 4) by lia.
  - intros b1 b2 b3 b4 H0 H1 H2 H3 H4. apply Hreads.
    replace (plusIdx + 6) with (plusIdx + 1 + 5) by lia.
    apply parse_length_four; [exact H0| | | |].
    + by replace (plusIdx + 1 + 1) with (plusIdx + 2) by lia.
    + by replace (plusIdx + 1 + 2) with (plusIdx + 3) by lia.
    + by replace (plusIdx + 1 + 3) with (plusIdx + 4) by lia.
    + by replace (plusIdx + 1 + 4) with (plusIdx + 5) by lia.
Qed.

(** ** Which text the indexer stores *)

Lemma truthy_trim_length (s : jsstring) :
  truthy_str (Some (trim s)) = bool_decide (0 < length (trim s))%nat.
Proof. destruct (trim s); reflexivity. Qed.

Lemma stored_text_plain (msg : joined_row) :
  m_attributedBody msg = None
  \/ (exists s, m_text msg = Some s /\ (2 <= length (trim s))%nat) ->
  stored_text parseBuffer msg = Normal (text_to_store (m_text msg)).
Proof.
  unfold stored_text, resolve_text. intros [Hb | (s & Hs & Hlen)].
  - rewrite Hb. rewrite (bool_decide_eq_false_2 (is_Some None)) by (intros [? ?]; discriminate).
    rewrite andb_false_r. reflexivity.
  - rewrite Hs. destruct s as [|c s']; [simpl in Hlen; lia|].
    change (default [] (Some (c :: s'))) with (c :: s').
    assert ((Text.str_length (trim (c :: s')) <? 2) = false) as ->.
    { unfold Text.str_length. apply Z.ltb_ge. lia. }
    reflexivity.
Qed.

Lemma stored_text_extracted (msg : joined_row) :
  is_Some (m_attributedBody msg) ->
  (forall s, m_text msg = Some s -> (length (trim s) < 2)%nat) ->
  stored_text parseBuffer msg
  = Normal (text_to_store (extracted parseBuffer (m_attributedBody msg))).
Proof.
  unfold stored_text, resolve_text. intros Hb Hs.
  rewrite (bool_decide_eq_true_2 _ Hb), andb_true_r.
  assert (negb (truthy_str (m_text msg))
          || (Text.str_length (trim (default [] (m_text msg))) <? 2) = true) as ->.
  { destruct (m_text msg) as [s|]; [|reflexivity].
    specialize (Hs s eq_refl).
    change (default [] (Some s)) with s.
    assert ((Text.str_length (trim s) <? 2) = true) as ->.
    { unfold Text.str_length. apply Z.ltb_lt. lia. }
    apply orb_true_r. }
  rewrite extract_extracted. reflexivity.
Qed.

Lemma spec_stored_text_cases (msg : joined_row) :
  spec_stored_text parseBuffer msg
  = Normal (text_to_store
              (match m_text msg with
               | Some s =>
                   if truthy_str (Some s) && truthy_str (Some (trim s))
                   then Some s
                   else extracted parseBuffer (m_attributedBody msg)
               | None => extracted parseBuffer (m_attributedBody msg)
               end)).
Proof.
  unfold spec_stored_text, Text.getMessageText.
  cbn [Text.row_text Text.row_attributedBody].
  destruct (m_text msg) as [s|].
  - change (trim <$> Some s) with (Some (trim s)).
    destruct (truthy_str (Some s) && truthy_str (Some (trim s))); [reflexivity|].
    destruct (m_attributedBody msg) as [b|]; [|reflexivity].
    rewrite extract_extracted. reflexivity.
  - destruct (m_attributedBody msg) as [b|]; [|reflexivity].
    change (truthy_str None && truthy_str (trim <$> None)) with false.
    cbv iota. rewrite extract_extracted. reflexivity.
Qed.

(** C4 -- Resolver equivalence, as the code has it.  The indexer stores the
    plain-text column whenever the row has no blob or the column holds at
    least two characters after trimming, and consults the extractor on the
    blob otherwise.  What it stores equals what the Message Text Resolver
    ([getMessageText], up to the final trim) gives for the row, except on
    rows that have a blob and a plain text of exactly one character after
    trimming. *)
Theorem indexer_resolution (msg : joined_row) :
  (m_attributedBody msg = None
   \/ (exists s, m_text msg = Some s /\ (2 <= length (trim s))%nat) ->
   stored_text parseBuffer msg = Normal (text_to_store (m_text msg)))
  /\ (is_Some (m_attributedBody msg) ->
      (forall s, m_text msg = Some s -> (length (trim s) < 2)%nat) ->
      stored_text parseBuffer msg
      = Normal (text_to_store (extracted parseBuffer (m_attributedBody msg))))
  /\ (~ single_character_with_blob msg ->
      stored_text parseBuffer msg = spec_stored_text parseBuffer msg).
Proof.
  split; [exact (stored_text_plain msg)|].
  split; [exact (stored_text_extracted msg)|].
  intros Hne. rewrite spec_stored_text_cases.
  destruct (m_attributedBody msg) as [b|] eqn:Hb.
  - destruct (m_text msg) as [s|] eqn:Hs.
    + destruct (le_lt_dec 2 (length (trim s))) as [Hge|Hlt].
      * rewrite stored_text_plain by (right; eauto). rewrite Hs.
        assert (truthy_str (Some s) = true) as ->.
        { destruct s; [simpl in Hge; lia|reflexivity]. }
        rewrite truthy_trim_length, bool_decide_eq_true_2 by lia. reflexivity.
      * rewrite stored_text_extracted; rewrite ?Hb, ?Hs; eauto.
        2:{ intros s' [= <-]. exact Hlt. }
        assert (length (trim s) = 0%nat) as Hz.
        { destruct (length (trim s)) as [|[|n]] eqn:E; [reflexivity| |lia].
          exfalso. apply Hne. split; [rewrite Hb; eauto|]. eauto. }
        rewrite truthy_trim_length, bool_decide_eq_false_2, andb_false_r by lia.
        reflexivity.
    + rewrite stored_text_extracted; rewrite ?Hb, ?Hs; eauto. discriminate.
  - rewrite stored_text_plain by (left; exact Hb).
    destruct (m_text msg) as [s|]; [|reflexivity].
    destruct (truthy_str (Some s) && truthy_str (Some (trim s))) eqn:E; [reflexivity|].
    unfold extracted, text_to_store. rewrite E. reflexivity.
Qed.

(** Whatever the parser makes of a blob, two rows that share it and differ
    by a one-character text cannot both be stored as the resolver has them. *)
Lemma resolutions_part (b : buffer) :
  stored_text parseBuffer (row 1 (Some (lit "a")) (Some b) 7)
  <> spec_stored_text parseBuffer (row 1 (Some (lit "a")) (Some b) 7)
  \/ stored_text parseBuffer (row 2 (Some (lit "b")) (Some b) 7)
     <> spec_stored_text parseBuffer (row 2 (Some (lit "b")) (Some b) 7).
Proof.
  assert (stored_text parseBuffer (row 1 (Some (lit "a")) (Some b) 7)
          = Normal (text_to_store (extracted parseBuffer (Some b)))) as ->.
  { apply stored_text_extracted; [eexists; reflexivity|].
    intros s [= <-]. vm_compute. lia. }
  assert (stored_text parseBuffer (row 2 (Some (lit "b")) (Some b) 7)
          = Normal (text_to_store (extracted parseBuffer (Some b)))) as ->.
  { apply stored_text_extracted; [eexists; reflexivity|].
    intros s [= <-]. vm_compute. lia. }
  assert (spec_stored_text parseBuffer (row 1 (Some (lit "a")) (Some b) 7)
          = Normal (Some (lit "a"))) as -> by reflexivity.
  assert (spec_stored_text parseBuffer (row 2 (Some (lit "b")) (Some b) 7)
          = Normal (Some (lit "b"))) as -> by reflexivity.
  destruct (text_to_store (extracted parseBuffer (Some b))) as [t|];
    [|left; discriminate].
  destruct (decide (t = lit "a")) as [->|Hne].
  - right. discriminate.
  - left. congruence.
Qed.

End ExtractorProps.

Lemma extract_never_raises_witness :
  Text.structured_path magic_only_parser no_marker = None
  /\ indexOf no_marker Text.nsStringMarker 0 = -1
  /\ Text.extractTextFromAttributedBody magic_only_parser (Some no_marker) = Normal None
  /\ Text.extractTextFromAttributedBody magic_only_parser (Some []) = Normal None.
Proof.
  destruct (extract_never_raises magic_only_parser) as (_ & _ & H).
  split; [reflexivity|]. split; [reflexivity|].
  split; apply H; reflexivity.
Defined.

Lemma fallback_length_table_witness :
  Text.extractTextFromAttributedBody magic_only_parser (Some hello_fallback)
  = Normal (Some (lit "Hello"))
  /\ Text.extractTextFromAttributedBody magic_only_parser (Some hello_fallback)
     = Normal (fallback_text hello_fallback 10
                 (Z.min (10 + 5) (end_bound hello_fallback 10)))
  /\ Text.extractTextFromAttributedBody magic_only_parser (Some hello_zero_length)
     = Normal (fallback_text hello_zero_length 10 (end_bound hello_zero_length 10))
  /\ Text.extractTextFromAttributedBody magic_only_parser (Some hello_two_byte_length)
     = Normal (fallback_text hello_two_byte_length 12
                 (Z.min (12 + (5 + 256 * 0)) (end_bound hello_two_byte_length 12)))
  /\ Text.extractTextFromAttributedBody magic_only_parser (Some hello_three_byte_length)
     = Normal (fallback_text hello_three_byte_length 13
                 (Z.min (13 + (5 + 256 * 0 + 65536 * 0))
                    (end_bound hello_three_byte_length 13)))
  /\ Text.extractTextFromAttributedBody magic_only_parser (Some hello_four_byte_length)
     = Normal (fallback_text hello_four_byte_length 14
                 (Z.min (14 + (44 + 256 * 1 + 65536 * 0 + 16777216 * 0))
                    (end_bound hello_four_byte_length 14))).
Proof.
  destruct (fallback_length_table magic_only_parser) as [Hhello Htable].
  split; [apply Hhello; reflexivity|].
  split.
  { destruct (Htable hello_fallback 0 8) as (Hone & _);
      [reflexivity|reflexivity|lia|reflexivity|lia|lia|].
    destruct (Hone 5) as [Hpos _]; [reflexivity|lia|]. apply Hpos. lia. }
  split.
  { destruct (Htable hello_zero_length 0 8) as (Hone & _);
      [reflexivity|reflexivity|lia|reflexivity|lia|lia|].
    destruct (Hone 0) as [_ Hzero]; [reflexivity|lia|]. apply Hzero. reflexivity. }
  split.
  { destruct (Htable hello_two_byte_length 0 8) as (_ & Htwo & _);
      [reflexivity|reflexivity|lia|reflexivity|lia|lia|].
    destruct (Htwo 5 0) as [Hpos _]; [reflexivity|reflexivity|reflexivity|].
    apply Hpos. lia. }
  split.
  { destruct (Htable hello_three_byte_length 0 8) as (_ & _ & Hthree & _);
      [reflexivity|reflexivity|lia|reflexivity|lia|lia|].
    destruct (Hthree 5 0 0) as [Hpos _];
      [reflexivity|reflexivity|reflexivity|reflexivity|].
    apply Hpos. lia. }
  destruct (Htable hello_four_byte_length 0 8) as (_ & _ & _ & Hfour);
    [reflexivity|reflexivity|lia|reflexivity|lia|lia|].
  destruct (Hfour 44 1 0 0) as [Hpos _];
    [reflexivity|reflexivity|reflexivity|reflexivity|reflexivity|].
  apply Hpos. lia.
Defined.

(** A length that ends the text before the end marker, and a four-byte
    length that reaches past it. *)
Example length_bounds_the_text :
  Text.extractTextFromAttributedBody magic_only_parser
    (Some (bytes_of "NSString" ++ [x2b; x03] ++ bytes_of "Hello" ++ [x86]))
  = Normal (Some (lit "Hel"))
  /\ Text.extractTextFromAttributedBody magic_only_parser (Some hello_four_byte_length)
     = Normal (Some (lit "Hello")).
Proof. split; vm_compute; reflexivity. Qed.

(** A length byte of 0x00: the specification's formula ends the text where
    it starts, the code runs it to the end marker and returns "Hello". *)
Lemma fallback_zero_length_counterexample :
  Text.parse_length hello_zero_length 9 = Normal (0, 10)
  /\ Text.text_end hello_zero_length 0 10 = 15
  /\ spec_text_end hello_zero_length 0 10 = 10
  /\ Text.text_end hello_zero_length 0 10 <> spec_text_end hello_zero_length 0 10
  /\ Text.extractTextFromAttributedBody magic_only_parser (Some hello_zero_length)
     = Normal (Some (lit "Hello")).
Proof. repeat split; try (vm_compute; reflexivity). vm_compute. discriminate. Qed.

Lemma indexer_resolution_witness :
  stored_text magic_only_parser (row 1 (Some (lit "hi there")) (Some hello_fallback) 7)
  = Normal (text_to_store (Some (lit "hi there")))
  /\ stored_text magic_only_parser (row 2 None (Some hello_fallback) 7)
     = Normal (text_to_store (extracted magic_only_parser (Some hello_fallback)))
  /\ stored_text magic_only_parser (row 2 None (Some hello_fallback) 7)
     = spec_stored_text magic_only_parser (row 2 None (Some hello_fallback) 7).
Proof.
  destruct (indexer_resolution magic_only_parser
              (row 1 (Some (lit "hi there")) (Some hello_fallback) 7)) as (Hplain & _ & _).
  destruct (indexer_resolution magic_only_parser
              (row 2 None (Some hello_fallback) 7)) as (_ & Hblob & Hsame).
  split.
  { apply Hplain. right. eexists. split; [reflexivity|]. vm_compute. lia. }
  split.
  { apply Hblob.
    - eexists; reflexivity.
    - intros s Hs. discriminate Hs. }
  apply Hsame. intros (_ & s & Hs & _). discriminate Hs.
Defined.

(** A row whose text is "a" and whose blob encodes "Hello": the resolver
    keeps "a", the indexer stores "Hello". *)
Lemma indexer_resolution_counterexample :
  stored_text magic_only_parser (row 1 (Some (lit "a")) (Some hello_fallback) 7)
  = Normal (Some (lit "Hello"))
  /\ spec_stored_text magic_only_parser (row 1 (Some (lit "a")) (Some hello_fallback) 7)
     = Normal (Some (lit "a"))
  /\ stored_text magic_only_parser (row 1 (Some (lit "a")) (Some hello_fallback) 7)
     <> spec_stored_text magic_only_parser (row 1 (Some (lit "a")) (Some hello_fallback) 7).
Proof. repeat split; try (vm_compute; reflexivity). vm_compute. discriminate. Qed.

(** ** The tests of the repository on the extractor and the resolver *)

Example should_extract_simple_message_text :
  Text.extractTextFromAttributedBody magic_only_parser (Some hello_streamtyped)
  = Normal (Some (lit "Hello")).
Proof. vm_compute. reflexivity. Qed.

Example should_return_null_for_null_input :
  Text.extractTextFromAttributedBody magic_only_parser None = Normal None.
Proof. reflexivity. Qed.

Example should_return_null_for_empty_buffer :
  Text.extractTextFromAttributedBody magic_only_parser (Some []) = Normal None.
Proof. vm_compute. reflexivity. Qed.

Example should_return_null_for_buffer_without_NSString_marker :
  Text.extractTextFromAttributedBody magic_only_parser (Some no_marker) = Normal None.
Proof. vm_compute. reflexivity. Qed.

Example should_return_text_if_present :
  Text.getMessageText magic_only_parser
    {| Text.row_text := Some (lit "Hello world"); Text.row_attributedBody := None |}
  = Normal (Some (lit "Hello world")).
Proof. vm_compute. reflexivity. Qed.

Example should_return_null_for_empty_text_and_no_attributedBody :
  Text.getMessageText magic_only_parser
    {| Text.row_text := Some []; Text.row_attributedBody := None |}
  = Normal None.
Proof. vm_compute. reflexivity. Qed.

Example should_return_null_for_whitespace_only_text :
  Text.getMessageText magic_only_parser
    {| Text.row_text := Some (lit "   "); Text.row_attributedBody := None |}
  = Normal None.
Proof. vm_compute. reflexivity. Qed.

Example should_return_null_for_null_text_and_null_attributedBody :
  Text.getMessageText magic_only_parser
    {| Text.row_text := None; Text.row_attributedBody := None |}
  = Normal None.
Proof. vm_compute. reflexivity. Qed.

(** ** Database calls under an injected fault *)

Section Calls.

Ltac munfold :=
  unfold indexDbRun, indexDbRead, dbRead, get_idb, put_idb, tick, world_of in *;
  unfold mbind, mret, M_bind, M_ret, bind, ret, throw, lift, try_catchM in *.

Lemma in_txn_ret {A} (a : A) : in_txn (mret a).
Proof. intros d f saved Ht. munfold. simpl. split; [exact Ht|discriminate]. Qed.

Lemma in_txn_bind {A B} (m : M A) (k : A -> M B) :
  in_txn m -> (forall a, in_txn (k a)) -> in_txn (m ≫= k).
Proof.
  intros Hm Hk d f saved Ht. specialize (Hm d f saved Ht).
  unfold mbind, M_bind, bind.
  destruct (m (world_of d f)) as [[a|e] [d1 f1]]; simpl in *.
  - apply (Hk a d1 f1 saved). apply Hm.
  - split; [apply Hm|]. intros e' _. apply (proj2 Hm e). reflexivity.
Qed.

Lemma in_txn_insert (s : stmt) :
  (forall d, exists d', exec s d = Some d' /\ txn d' = txn d) ->
  in_txn (indexDbRun s).
Proof.
  intros Hs d f saved Ht. destruct (Hs d) as (d' & He & Ht').
  munfold. destruct f as [[|n]|]; simpl; rewrite ?He; simpl.
  all: split; [congruence|]; intros; try discriminate; reflexivity.
Qed.

Lemma fault_indep_ret {A} (a : A) : fault_indep (mret a).
Proof. intros d f a' w' [= <- <-]. reflexivity. Qed.


Lemma fault_indep_bind {A B} (m : M A) (k : A -> M B) :
  fault_indep m -> (forall a, fault_indep (k a)) -> fault_indep (m ≫= k).
Proof.
  intros Hm Hk d f b w'. unfold mbind, M_bind, bind.
  destruct (m (world_of d f)) as [[a|e] [d1 f1]] eqn:E; [|discriminate].
  rewrite (Hm d f a _ E). simpl. intros Hk1. exact (Hk a d1 f1 b w' Hk1).
Qed.

Lemma fault_indep_run (s : stmt) : fault_indep (indexDbRun s).
Proof.
  intros d f a w'. munfold. destruct f as [[|n]|]; simpl; [discriminate| |].
  all: destruct (exec s d); simpl; [|discriminate].
  all: intros [= <- <-]; reflexivity.
Qed.

Lemma fault_indep_read {A} (q : tables -> A) : fault_indep (indexDbRead q).
Proof.
  intros d f a w'. munfold. destruct f as [[|n]|]; simpl; [discriminate| |].
  all: intros [= <- <-]; reflexivity.
Qed.

Lemma fault_indep_dbRead {A} (src : source_db) (q : source_db -> A) :
  fault_indep (dbRead src q).
Proof.
  intros d f a w'. munfold. destruct f as [[|n]|]; simpl; [discriminate| |].
  all: intros [= <- <-]; reflexivity.
Qed.

Lemma fault_indep_try {A} (m : M A) (h : js_error -> M A) :
  fault_indep m -> (forall e, never_normal (h e)) -> fault_indep (try_catchM m h).
Proof.
  intros Hm Hh d f a w'. unfold try_catchM.
  destruct (m (world_of d f)) as [[a1|e] w1] eqn:E.
  - intros [= <- <-]. rewrite (Hm d f a1 w1 E). reflexivity.
  - intros Hn. exfalso. exact (Hh e w1 a w' Hn).
Qed.

Lemma never_normal_then_throw {A} (m : M unit) (e : js_error) :
  never_normal (m ≫= fun _ => @throw A e).
Proof.
  intros w a w'. unfold mbind, M_bind, bind, throw.
  destruct (m w) as [[[]|e1] w1]; discriminate.
Qed.

(** Reads change nothing, whatever the fault. *)
Lemma indexDbRead_idb {A} (q : tables -> A) (d : index_db) (f : option nat) :
  idb (indexDbRead q (world_of d f)).2 = d
  /\ (forall a, (indexDbRead q (world_of d f)).1 = Normal a -> a = q (current d)).
Proof.
  munfold. destruct f as [[|n]|]; simpl; split; try reflexivity; try discriminate.
  all: intros a [= <-]; reflexivity.
Qed.

Lemma dbRead_idb {A} (src : source_db) (q : source_db -> A) (d : index_db)
    (f : option nat) :
  idb (dbRead src q (world_of d f)).2 = d
  /\ (forall a, (dbRead src q (world_of d f)).1 = Normal a -> a = q src).
Proof.
  munfold. destruct f as [[|n]|]; simpl; split; try reflexivity; try discriminate.
  all: intros a [= <-]; reflexivity.
Qed.

(** A statement that throws has changed nothing. *)
Lemma indexDbRun_throw (s : stmt) (d : index_db) (f : option nat) (e : js_error) :
  (indexDbRun s (world_of d f)).1 = Throw e ->
  idb (indexDbRun s (world_of d f)).2 = d.
Proof.
  munfold. destruct f as [[|n]|]; simpl; try reflexivity.
  all: destruct (exec s d); simpl; [discriminate|reflexivity].
Qed.

Lemma indexDbRun_normal (s : stmt) (d : index_db) (f : option nat) :
  (indexDbRun s (world_of d f)).1 = Normal tt ->
  exec s d = Some (idb (indexDbRun s (world_of d f)).2).
Proof.
  munfold. destruct f as [[|n]|]; simpl; try discriminate.
  all: destruct (exec s d); simpl; [reflexivity|discriminate].
Qed.

Lemma indexDbRun_nofault (s : stmt) (d d' : index_db) :
  exec s d = Some d' ->
  indexDbRun s (world_of d None) = (Normal tt, world_of d' None).
Proof. intros He. munfold. simpl. rewrite He. reflexivity. Qed.

Lemma indexDbRead_nofault {A} (q : tables -> A) (d : index_db) :
  indexDbRead q (world_of d None) = (Normal (q (current d)), world_of d None).
Proof. reflexivity. Qed.

Lemma dbRead_nofault {A} (src : source_db) (q : source_db -> A) (d : index_db) :
  dbRead src q (world_of d None) = (Normal (q src), world_of d None).
Proof. reflexivity. Qed.

Lemma bind_run {A B} (m : M A) (k : A -> M B) (w w1 : world) (a : A) :
  m w = (Normal a, w1) -> (m ≫= k) w = k a w1.
Proof. intros H. unfold mbind, M_bind, bind. rewrite H. reflexivity. Qed.

Lemma bind_inv {A B} (m : M A) (k : A -> M B) (w w' : world) (r : completion B) :
  (m ≫= k) w = (r, w') ->
  (exists e, m w = (Throw e, w') /\ r = Throw e)
  \/ (exists a w1, m w = (Normal a, w1) /\ k a w1 = (r, w')).
Proof.
  unfold mbind, M_bind, bind. destruct (m w) as [[a|e] w1].
  - intros H. right. eauto.
  - intros [= <- <-]. left. eauto.
Qed.

Lemma try_inv {A} (m : M A) (h : js_error -> M A) (w w' : world) (r : completion A) :
  try_catchM m h w = (r, w') ->
  (exists a, m w = (Normal a, w') /\ r = Normal a)
  \/ (exists e w1, m w = (Throw e, w1) /\ h e w1 = (r, w')).
Proof.
  unfold try_catchM. destruct (m w) as [[a|e] w1].
  - intros [= <- <-]. left. eauto.
  - intros H. right. eauto.
Qed.

Lemma indexDbRead_inv {A} (q : tables -> A) (d : index_db) (f : option nat)
    (r : completion A) (w' : world) :
  indexDbRead q (world_of d f) = (r, w') ->
  idb w' = d /\ (forall a, r = Normal a -> a = q (current d)).
Proof.
  intros H. pose proof (indexDbRead_idb q d f) as Hi. rewrite H in Hi. exact Hi.
Qed.

Lemma dbRead_inv {A} (src : source_db) (q : source_db -> A) (d : index_db)
    (f : option nat) (r : completion A) (w' : world) :
  dbRead src q (world_of d f) = (r, w') ->
  idb w' = d /\ (forall a, r = Normal a -> a = q src).
Proof.
  intros H. pose proof (dbRead_idb src q d f) as Hi. rewrite H in Hi. exact Hi.
Qed.

Lemma indexDbRun_inv (s : stmt) (d : index_db) (f : option nat)
    (r : completion unit) (w' : world) :
  indexDbRun s (world_of d f) = (r, w') ->
  (exists e, r = Throw e /\ idb w' = d)
  \/ (r = Normal tt /\ exec s d = Some (idb w')).
Proof.
  intros H. destruct r as [[]|e].
  - right. split; [reflexivity|].
    pose proof (indexDbRun_normal s d f) as Hn. rewrite H in Hn. exact (Hn eq_refl).
  - left. exists e. split; [reflexivity|].
    pose proof (indexDbRun_throw s d f e) as Hn. rewrite H in Hn. exact (Hn eq_refl).
Qed.

End Calls.

(** ** The incremental indexer *)

Section IndexerProps.

Variable parseBuffer : buffer -> completion (list Text.plist).

Ltac munfold :=
  unfold indexDbRun, indexDbRead, dbRead, get_idb, put_idb, tick, world_of in *;
  unfold mbind, mret, M_bind, M_ret, bind, ret, throw, lift, try_catchM in *.

Lemma resolve_text_normal (msg : joined_row) :
  exists t, resolve_text parseBuffer msg = Normal t.
Proof.
  unfold resolve_text.
  destruct (_ && _); [apply extract_normal|by eexists].
Qed.

Lemma index_message_eq (msg : joined_row) (maxId : Z) :
  index_message parseBuffer msg maxId
  = (match resolved parseBuffer msg with
     | Some trimmed => indexDbRun (insert_of msg trimmed)
     | None => mret tt
     end ≫= fun _ => mret (Z.max maxId (message_id msg))).
Proof.
  unfold index_message, resolved, stored_text.
  destruct (resolve_text_normal msg) as [t ->]. reflexivity.
Qed.

Lemma in_txn_index_message (msg : joined_row) (maxId : Z) :
  in_txn (index_message parseBuffer msg maxId).
Proof.
  rewrite index_message_eq. apply in_txn_bind; [|intros; apply in_txn_ret].
  destruct (resolved parseBuffer msg); [|apply in_txn_ret].
  apply in_txn_insert. intros d. eexists. split; reflexivity.
Qed.

Lemma in_txn_index_messages (rows : list joined_row) (maxId : Z) :
  in_txn (index_messages parseBuffer rows maxId).
Proof.
  revert maxId. induction rows as [|msg rows IH]; intros maxId; simpl.
  - apply in_txn_ret.
  - apply in_txn_bind; [apply in_txn_index_message|]. intros a. apply IH.
Qed.

Lemma in_txn_setLastIndexedId (messageId : Z) : in_txn (setLastIndexedId messageId).
Proof. apply in_txn_insert. intros d. eexists. split; reflexivity. Qed.

Lemma fault_indep_index_messages (rows : list joined_row) (maxId : Z) :
  fault_indep (index_messages parseBuffer rows maxId).
Proof.
  revert maxId. induction rows as [|msg rows IH]; intros maxId; simpl.
  - apply fault_indep_ret.
  - apply fault_indep_bind; [|intros a; apply IH].
    rewrite index_message_eq.
    apply fault_indep_bind; [|intros; apply fault_indep_ret].
    destruct (resolved parseBuffer msg); [apply fault_indep_run|apply fault_indep_ret].
Qed.

Lemma fault_indep_indexNewMessages (src : source_db) (batchSize : Z) :
  fault_indep (indexNewMessages parseBuffer src batchSize).
Proof.
  unfold indexNewMessages, getLastIndexedId.
  apply fault_indep_bind; [apply fault_indep_read|]. intros lastId.
  apply fault_indep_bind; [apply fault_indep_dbRead|]. intros [|msg rows].
  - apply fault_indep_ret.
  - apply fault_indep_bind; [apply fault_indep_run|]. intros _.
    apply fault_indep_try.
    + apply fault_indep_bind; [apply fault_indep_index_messages|]. intros maxId.
      apply fault_indep_bind; [apply fault_indep_run|]. intros _.
      apply fault_indep_bind; [apply fault_indep_run|]. intros _.
      apply fault_indep_ret.
    + intros e. apply never_normal_then_throw.
Qed.

Lemma index_message_nofault (msg : joined_row) (maxId : Z) (d : index_db) :
  index_message parseBuffer msg maxId (world_of d None)
  = (Normal (Z.max maxId (message_id msg)),
     world_of (write (fun t => upsert parseBuffer t msg) d) None).
Proof.
  rewrite index_message_eq. unfold upsert.
  destruct (resolved parseBuffer msg); [reflexivity|].
  destruct d as [[] ?]. reflexivity.
Qed.

(** The loop of a batch when no call is rejected. *)
Lemma index_messages_nofault (rows : list joined_row) (maxId : Z) (d : index_db) :
  index_messages parseBuffer rows maxId (world_of d None)
  = (Normal (max_id rows maxId),
     world_of (write (fun t => foldl (upsert parseBuffer) t rows) d) None).
Proof.
  revert maxId d. induction rows as [|msg rows IH]; intros maxId d.
  - destruct d. reflexivity.
  - cbn [index_messages]. unfold mbind, M_bind, bind.
    rewrite index_message_nofault, IH. destruct d. reflexivity.
Qed.

Lemma throw_safe_bind {A B} (m : M A) (k : A -> M B) :
  in_txn m -> (forall a, throw_safe (k a)) -> throw_safe (m ≫= k).
Proof.
  intros Hm Hk d f saved e w' Ht. specialize (Hm d f saved Ht).
  unfold mbind, M_bind, bind.
  destruct (m (world_of d f)) as [[a|e1] [d1 f1]]; simpl in Hm.
  - intros Hr. exact (Hk a d1 f1 saved e w' (proj1 Hm) Hr).
  - intros [= <- <-]. split; [apply Hm|apply (proj2 Hm e1); reflexivity].
Qed.

Lemma throw_safe_commit {A} (a : A) :
  throw_safe (indexDbRun COMMIT ≫= fun _ => mret a).
Proof.
  intros d f saved e w' Ht. munfold. simpl.
  destruct f as [[|n]|]; simpl; rewrite ?Ht; simpl; try discriminate.
  intros [= <- <-]. split; [exact Ht|reflexivity].
Qed.

(** The body of the [try] of [indexNewMessages]. *)
Lemma throw_safe_body (rows : list joined_row) (lastId : Z) :
  throw_safe
    (index_messages parseBuffer rows lastId ≫= fun maxId =>
     setLastIndexedId maxId ≫= fun _ =>
     indexDbRun COMMIT ≫= fun _ =>
     mret (Z.of_nat (length rows))).
Proof.
  apply throw_safe_bind; [apply in_txn_index_messages|]. intros maxId.
  apply throw_safe_bind; [apply in_txn_setLastIndexedId|]. intros _.
  apply throw_safe_commit.
Qed.

(** The [catch] of [indexNewMessages], run with the fault spent. *)
Lemma rollback_rethrow (d : index_db) (saved : tables) (err : js_error) :
  txn d = Some saved ->
  (indexDbRun ROLLBACK ≫= fun _ => @throw Z err) (world_of d None)
  = (Throw err, world_of {| current := saved; txn := None |} None).
Proof. intros Ht. munfold. simpl. rewrite Ht. reflexivity. Qed.

(** A call that meets no fault, outside a transaction: the whole batch is
    written and the cursor set. *)
Lemma indexNewMessages_nofault (src : source_db) (batchSize : Z) (d : index_db) :
  txn d = None ->
  indexNewMessages parseBuffer src batchSize (world_of d None)
  = (Normal (Z.of_nat (length (batch_of src batchSize (current d)))),
     world_of {| current := after_batch parseBuffer src batchSize (current d);
                 txn := None |} None).
Proof.
  intros Ht. unfold indexNewMessages, getLastIndexedId, after_batch, batch_of.
  rewrite (bind_run _ _ _ _ _ (indexDbRead_nofault cursor_of d)).
  rewrite (bind_run _ _ _ _ _ (dbRead_nofault src _ d)).
  fold (cursor d).
  destruct (select_new_messages src (cursor d) batchSize) as [|msg rows] eqn:E.
  { destruct d. simpl in *. subst. reflexivity. }
  rewrite (bind_run _ _ _ _ _
             (indexDbRun_nofault BEGIN_TRANSACTION d
                {| current := current d; txn := Some (current d) |}
                ltac:(simpl; rewrite Ht; reflexivity))).
  unfold try_catchM.
  rewrite (bind_run _ _ _ _ _ (index_messages_nofault (msg :: rows) (cursor d) _)).
  unfold setLastIndexedId.
  erewrite bind_run by (apply indexDbRun_nofault; reflexivity).
  erewrite bind_run by (apply indexDbRun_nofault; reflexivity).
  reflexivity.
Qed.

(** A call outside a transaction ends in one of three ways: it throws and
    the store is as it was; it finds no row and returns 0; or it commits. *)
Lemma indexNewMessages_throw (src : source_db) (batchSize : Z) (d : index_db)
    (f : option nat) (e : js_error) (w' : world) :
  txn d = None ->
  indexNewMessages parseBuffer src batchSize (world_of d f) = (Throw e, w') ->
  idb w' = d.
Proof.
  intros Ht H. unfold indexNewMessages, getLastIndexedId in H.
  apply bind_inv in H as [(e0 & H1 & _) | (lastId & [d1 f1] & H1 & H)];
    apply indexDbRead_inv in H1 as [Hd1 _]; [exact Hd1|]. simpl in Hd1. subst d1.
  apply bind_inv in H as [(e0 & H2 & _) | (rows & [d2 f2] & H2 & H)];
    apply (dbRead_inv src _ d f1) in H2 as [Hd2 _]; [exact Hd2|]. simpl in Hd2. subst d2.
  destruct rows as [|msg rows]; [discriminate|].
  apply bind_inv in H as [(e0 & H3 & _) | ([] & [d3 f3] & H3 & H)];
    apply (indexDbRun_inv _ d f2) in H3 as [(e1 & He1 & Hd3) | (He1 & Hex)];
    try discriminate He1; [exact Hd3|].
  simpl in Hex. rewrite Ht in Hex. injection Hex as <-.
  apply try_inv in H as [(n & _ & Hn) | (err & [d4 f4] & H4 & H)]; [discriminate|].
  destruct (throw_safe_body (msg :: rows) lastId
              {| current := current d; txn := Some (current d) |} f3
              (current d) err _ eq_refl H4) as [Ht4 Hf4].
  simpl in Ht4, Hf4. subst f4.
  rewrite (rollback_rethrow d4 (current d) err Ht4 : _ {| idb := d4; fault := None |} = _) in H.
  injection H as _ <-. destruct d. simpl in *. congruence.
Qed.

(** While a transaction is open a call changes nothing. *)
Lemma indexNewMessages_txn_open (src : source_db) (batchSize : Z) (d : index_db)
    (f : option nat) (saved : tables) (r : completion Z) (w' : world) :
  txn d = Some saved ->
  indexNewMessages parseBuffer src batchSize (world_of d f) = (r, w') ->
  idb w' = d.
Proof.
  intros Ht H. unfold indexNewMessages, getLastIndexedId in H.
  apply bind_inv in H as [(e0 & H1 & _) | (lastId & [d1 f1] & H1 & H)];
    apply indexDbRead_inv in H1 as [Hd1 _]; [exact Hd1|]. simpl in Hd1. subst d1.
  apply bind_inv in H as [(e0 & H2 & _) | (rows & [d2 f2] & H2 & H)];
    apply (dbRead_inv src _ d f1) in H2 as [Hd2 _]; [exact Hd2|]. simpl in Hd2. subst d2.
  destruct rows as [|msg rows]; [by injection H as _ <-|].
  apply bind_inv in H as [(e0 & H3 & _) | ([] & [d3 f3] & H3 & H)];
    apply (indexDbRun_inv _ d f2) in H3 as [(e1 & He1 & Hd3) | (He1 & Hex)];
    try discriminate He1; [exact Hd3|].
  simpl in Hex. rewrite Ht in Hex. discriminate.
Qed.

Lemma max_id_ge (rows : list joined_row) (start : Z) : start <= max_id rows start.
Proof.
  revert start. induction rows as [|r rows IH]; intros start; simpl; [lia|].
  specialize (IH (Z.max start (message_id r))). unfold max_id in *. lia.
Qed.

Lemma max_id_elem (rows : list joined_row) (start : Z) (r : joined_row) :
  r ∈ rows -> message_id r <= max_id rows start.
Proof.
  revert start. induction rows as [|r0 rows IH]; intros start Hr.
  - by apply elem_of_nil in Hr.
  - apply elem_of_cons in Hr as [->|Hr]; simpl.
    + pose proof (max_id_ge rows (Z.max start (message_id r0))). unfold max_id in *. lia.
    + apply IH, Hr.
Qed.

Lemma cursor_of_set_cursor (c : Z) (t : tables) : cursor_of (set_cursor c t) = c.
Proof. unfold cursor_of, set_cursor. simpl. by rewrite lookup_insert_eq. Qed.

Lemma foldl_upsert_metadata (rows : list joined_row) (t : tables) :
  index_metadata (foldl (upsert parseBuffer) t rows) = index_metadata t.
Proof.
  revert t. induction rows as [|r rows IH]; intros t; simpl; [reflexivity|].
  rewrite IH. unfold upsert. destruct (resolved parseBuffer r); reflexivity.
Qed.

Lemma cursor_of_apply_batch (rows : list joined_row) (t : tables) :
  cursor_of (apply_batch parseBuffer rows t) = max_id rows (cursor_of t).
Proof.
  destruct rows as [|r rows]; [reflexivity|]. unfold apply_batch.
  apply cursor_of_set_cursor.
Qed.

(** A call that returns normally has done what it does without a fault. *)
Lemma indexNewMessages_normal (src : source_db) (batchSize : Z) (d : index_db)
    (f : option nat) (n : Z) (w' : world) :
  txn d = None ->
  indexNewMessages parseBuffer src batchSize (world_of d f) = (Normal n, w') ->
  n = Z.of_nat (length (batch_of src batchSize (current d)))
  /\ idb w' = {| current := after_batch parseBuffer src batchSize (current d);
                 txn := None |}.
Proof.
  intros Ht H. apply fault_indep_indexNewMessages in H.
  rewrite (indexNewMessages_nofault src batchSize d Ht) in H.
  injection H as <- <-. split; reflexivity.
Qed.

(** C2 -- Batch atomicity.  A call made outside a transaction, with a
    database call rejected at any point of it, either throws, and then
    the index store (entries, cursor, no open transaction) is exactly as
    before the call; or returns normally, and then the store holds the
    whole batch and the new cursor.  The cursor is the one of before the
    batch or the one of after it, and no part of a batch remains. *)
Theorem batch_atomic (src : source_db) (batchSize : Z) (d : index_db)
    (f : option nat) :
  txn d = None ->
  let out := indexNewMessages parseBuffer src batchSize (world_of d f) in
  match out.1 with
  | Throw e => idb out.2 = d
  | Normal n =>
      n = Z.of_nat (length (batch_of src batchSize (current d)))
      /\ idb out.2 = {| current := after_batch parseBuffer src batchSize (current d);
                        txn := None |}
  end
  /\ (current (idb out.2) = current d
      \/ current (idb out.2) = after_batch parseBuffer src batchSize (current d))
  /\ (cursor (idb out.2) = cursor d
      \/ cursor (idb out.2) = max_id (batch_of src batchSize (current d)) (cursor d)).
Proof.
  intros Ht out.
  destruct out as [[n|e] w'] eqn:E; simpl.
  - destruct (indexNewMessages_normal src batchSize d f n w' Ht E) as [Hn Hd].
    split; [by split|]. rewrite Hd. split; [by right|]. right.
    unfold cursor, after_batch. simpl. apply cursor_of_apply_batch.
  - rewrite (indexNewMessages_throw src batchSize d f e w' Ht E).
    split; [reflexivity|]. split; by left.
Qed.

Lemma indexNewMessages_cursor (src : source_db) (batchSize : Z) (d : index_db)
    (f : option nat) :
  cursor d <= cursor (idb (indexNewMessages parseBuffer src batchSize (world_of d f)).2).
Proof.
  destruct (indexNewMessages parseBuffer src batchSize (world_of d f))
    as [r w'] eqn:E. simpl.
  destruct (txn d) as [saved|] eqn:Ht.
  - rewrite (indexNewMessages_txn_open src batchSize d f saved r w' Ht E). lia.
  - destruct r as [n|e].
    + destruct (indexNewMessages_normal src batchSize d f n w' Ht E) as [_ ->].
      unfold cursor, after_batch. simpl. rewrite cursor_of_apply_batch.
      apply max_id_ge.
    + rewrite (indexNewMessages_throw src batchSize d f e w' Ht E). lia.
Qed.

(** C3 -- Monotonic cursor.  Over every sequence of calls, whatever the
    batch sizes, the message store at each call and the faults met, the
    cursor never decreases; and a call that commits a batch sets it to the
    largest identifier among the previous cursor and the rows of the batch. *)
Theorem cursor_monotonic :
  (forall calls d, cursor d <= cursor (run_calls parseBuffer calls d))
  /\ (forall src batchSize d f n w',
        txn d = None ->
        indexNewMessages parseBuffer src batchSize (world_of d f) = (Normal n, w') ->
        cursor (idb w') = max_id (batch_of src batchSize (current d)) (cursor d)
        /\ cursor d <= cursor (idb w')).
Proof.
  split.
  - intros calls. induction calls as [|[[src batchSize] f] calls IH]; intros d; simpl.
    + lia.
    + etrans; [|apply IH]. apply indexNewMessages_cursor.
  - intros src batchSize d f n w' Ht H.
    destruct (indexNewMessages_normal src batchSize d f n w' Ht H) as [_ ->].
    unfold cursor, after_batch. simpl. rewrite cursor_of_apply_batch.
    split; [reflexivity|apply max_id_ge].
Qed.

Lemma order_by_perm {A} (leb : A -> A -> bool) (l : list A) : order_by leb l ≡ₚ l.
Proof. apply merge_sort_Permutation. Qed.

Lemma limit_short {A} (n : Z) (l : list A) :
  Z.of_nat (length (limit n l)) < n -> limit n l = l.
Proof.
  unfold limit. destruct (Z.ltb_spec n 0) as [Hneg|Hpos]; [lia|].
  rewrite length_take. intros Hlt. apply take_ge. lia.
Qed.

Lemma filter_none {A} (P : A -> Prop) `{forall x, Decision (P x)} (l : list A) :
  (forall x, x ∈ l -> ~ P x) -> filter P l = [].
Proof.
  induction l as [|a l IH]; intros Hl; [reflexivity|].
  rewrite filter_cons. destruct (decide (P a)) as [Hp|_].
  - exfalso. apply (Hl a); [apply elem_of_cons; by left|exact Hp].
  - apply IH. intros x Hx. apply Hl. apply elem_of_cons. by right.
Qed.

(** Once a call has read fewer rows than the batch size, no joined row is
    beyond the cursor. *)
Lemma caught_up (src : source_db) (batchSize : Z) (t : tables) :
  Z.of_nat (length (batch_of src batchSize t)) < batchSize ->
  batch_of src batchSize (after_batch parseBuffer src batchSize t) = [].
Proof.
  intros Hshort. unfold batch_of in *. unfold select_new_messages in *.
  apply limit_short in Hshort. unfold after_batch, batch_of, select_new_messages.
  rewrite Hshort, cursor_of_apply_batch.
  set (S := order_by _ (filter (fun r => cursor_of t < message_id r) (join_messages src))).
  rewrite (filter_none (fun r => max_id S (cursor_of t) < message_id r)).
  { unfold limit. destruct (batchSize <? 0); [reflexivity|apply take_nil]. }
  intros r Hr Hlt.
  assert (r ∈ S) as Hin.
  { unfold S. rewrite order_by_perm. apply list_elem_of_filter. split; [|exact Hr].
    pose proof (max_id_ge S (cursor_of t)). lia. }
  pose proof (max_id_elem S (cursor_of t) r Hin). lia.
Qed.

(** C5 -- Idempotence, as the batches allow it.  When a call made outside
    a transaction and without fault has read fewer rows than the batch size
    -- it has drained what was pending -- the next call, with no new source
    row in between, returns 0, writes nothing and leaves the store and its
    cursor exactly as they are. *)
Theorem second_call_is_noop (src : source_db) (batchSize : Z) (d : index_db)
    (n : Z) (w1 : world) :
  txn d = None ->
  indexNewMessages parseBuffer src batchSize (world_of d None) = (Normal n, w1) ->
  n < batchSize ->
  indexNewMessages parseBuffer src batchSize w1 = (Normal 0, w1).
Proof.
  intros Ht H Hn. rewrite (indexNewMessages_nofault src batchSize d Ht) in H.
  injection H as <- <-.
  rewrite indexNewMessages_nofault by reflexivity. simpl.
  pose proof (caught_up src batchSize (current d) Hn) as Hc.
  rewrite Hc. unfold after_batch at 1. rewrite Hc. reflexivity.
Qed.

End IndexerProps.

Lemma batch_atomic_witness :
  txn fresh = None
  /\ (let out := indexNewMessages magic_only_parser spec_example 2
                   (world_of fresh (Some 4%nat)) in
      match out.1 with
      | Throw e => idb out.2 = fresh
      | Normal n =>
          n = Z.of_nat (length (batch_of spec_example 2 (current fresh)))
          /\ idb out.2
             = {| current := after_batch magic_only_parser spec_example 2 (current fresh);
                  txn := None |}
      end
      /\ (current (idb out.2) = current fresh
          \/ current (idb out.2)
             = after_batch magic_only_parser spec_example 2 (current fresh))
      /\ (cursor (idb out.2) = cursor fresh
          \/ cursor (idb out.2)
             = max_id (batch_of spec_example 2 (current fresh)) (cursor fresh))).
Proof.
  split; [reflexivity|].
  exact (batch_atomic magic_only_parser spec_example 2 fresh (Some 4%nat) eq_refl).
Defined.

Lemma cursor_monotonic_witness :
  txn fresh = None
  /\ cursor (idb (indexNewMessages magic_only_parser spec_example 2
                    (world_of fresh None)).2)
     = max_id (batch_of spec_example 2 (current fresh)) (cursor fresh)
  /\ cursor fresh
     <= cursor (idb (indexNewMessages magic_only_parser spec_example 2
                       (world_of fresh None)).2).
Proof.
  split; [reflexivity|].
  destruct (indexNewMessages magic_only_parser spec_example 2 (world_of fresh None))
    as [r w'] eqn:E.
  assert (r = Normal 2) as -> by (apply (f_equal fst) in E; vm_compute in E; congruence).
  exact (proj2 (cursor_monotonic magic_only_parser)
           spec_example 2 fresh None 2 w' eq_refl E).
Defined.

Lemma second_call_is_noop_witness :
  txn fresh = None
  /\ (3 < 5000)
  /\ indexNewMessages magic_only_parser spec_example 5000
       (indexNewMessages magic_only_parser spec_example 5000 (world_of fresh None)).2
     = (Normal 0,
        (indexNewMessages magic_only_parser spec_example 5000 (world_of fresh None)).2).
Proof.
  split; [reflexivity|]. split; [lia|].
  destruct (indexNewMessages magic_only_parser spec_example 5000 (world_of fresh None))
    as [r w'] eqn:E.
  assert (r = Normal 3) as -> by (apply (f_equal fst) in E; vm_compute in E; congruence).
  simpl.
  apply (second_call_is_noop magic_only_parser spec_example 5000 fresh 3 w' eq_refl E).
  lia.
Defined.

(** Three pending rows and a batch size of 1: the second call, with no new
    source row, indexes one more row and moves the cursor from 1 to 2. *)
Lemma second_call_counterexample :
  let first := indexNewMessages magic_only_parser spec_example 1 (world_of fresh None) in
  let second := indexNewMessages magic_only_parser spec_example 1 first.2 in
  first.1 = Normal 1
  /\ second.1 = Normal 1
  /\ cursor (idb first.2) = 1
  /\ cursor (idb second.2) = 2
  /\ second <> (Normal 0, first.2).
Proof.
  repeat split; try (vm_compute; reflexivity).
  intros H. apply (f_equal fst) in H. vm_compute in H. discriminate H.
Qed.

(** ** Catching up *)

Section CatchUp.

Variable parseBuffer : buffer -> completion (list Text.plist).

#[local] Instance id_le_total :
  Total (fun a b : joined_row => Is_true (message_id a <=? message_id b)).
Proof.
  intros a b. destruct (Z.le_gt_cases (message_id a) (message_id b)).
  - left. apply Is_true_true, Z.leb_le. lia.
  - right. apply Is_true_true, Z.leb_le. lia.
Qed.

#[local] Instance id_le_trans :
  Transitive (fun a b : joined_row => Is_true (message_id a <=? message_id b)).
Proof.
  intros a b c Hab%Is_true_true%Z.leb_le Hbc%Is_true_true%Z.leb_le.
  apply Is_true_true, Z.leb_le. lia.
Qed.

Lemma max_id_le (rows : list joined_row) (start bound : Z) :
  start <= bound -> (forall r, r ∈ rows -> message_id r <= bound) ->
  max_id rows start <= bound.
Proof.
  revert start. induction rows as [|r rows IH]; intros start Hs Hr; simpl; [lia|].
  apply IH.
  - pose proof (Hr r ltac:(apply elem_of_cons; by left)). lia.
  - intros r' Hr'. apply Hr. apply elem_of_cons. by right.
Qed.

Lemma max_id_attained (rows : list joined_row) (start : Z) :
  max_id rows start = start \/ exists r, r ∈ rows /\ message_id r = max_id rows start.
Proof.
  revert start. induction rows as [|r rows IH]; intros start; simpl; [by left|].
  destruct (IH (Z.max start (message_id r))) as [Heq|(r' & Hr' & Heq)].
  - unfold max_id in *. rewrite Heq.
    destruct (Z.max_spec start (message_id r)) as [[_ ->]|[_ ->]].
    + right. exists r. split; [apply elem_of_cons; by left|reflexivity].
    + by left.
  - right. exists r'. split; [apply elem_of_cons; by right|exact Heq].
Qed.

(** The batch holds a row for every identifier of the join between the
    old cursor and the new one. *)
Lemma batch_covers (src : source_db) (batchSize : Z) (t : tables) (r : joined_row) :
  r ∈ join_messages src ->
  cursor_of t < message_id r <= max_id (batch_of src batchSize t) (cursor_of t) ->
  exists r', r' ∈ batch_of src batchSize t /\ message_id r' = message_id r.
Proof.
  intros Hr [Hlo Hhi]. unfold batch_of, select_new_messages in *.
  set (S := order_by _ (filter (fun r => cursor_of t < message_id r) (join_messages src)))
    in *.
  assert (r ∈ S) as HS.
  { unfold S. rewrite order_by_perm. apply list_elem_of_filter. by split. }
  assert (StronglySorted (fun a b => Is_true (message_id a <=? message_id b)) S) as Hsorted.
  { apply StronglySorted_merge_sort; apply _. }
  unfold limit in *. destruct (batchSize <? 0); [by exists r|].
  set (k := Z.to_nat batchSize) in *.
  rewrite <- (take_drop k S) in HS, Hsorted.
  apply elem_of_app in HS as [Htake|Hdrop]; [by exists r|].
  assert (max_id (take k S) (cursor_of t) <= message_id r) as Hle.
  { apply max_id_le; [lia|]. intros r' Hr'.
    pose proof (StronglySorted_app_1_elem_of _ _ _ r' r Hsorted Hr' Hdrop) as Hrel.
    apply Is_true_true, Z.leb_le in Hrel. exact Hrel. }
  destruct (max_id_attained (take k S) (cursor_of t)) as [Heq|(r' & Hr' & Heq)]; [lia|].
  exists r'. split; [exact Hr'|lia].
Qed.

Lemma batch_in_join (src : source_db) (batchSize : Z) (t : tables) (r : joined_row) :
  r ∈ batch_of src batchSize t ->
  r ∈ join_messages src /\ cursor_of t < message_id r.
Proof.
  unfold batch_of, select_new_messages, limit. intros Hr.
  assert (r ∈ order_by (fun a b => message_id a <=? message_id b)
            (filter (fun r => cursor_of t < message_id r) (join_messages src))) as Hin.
  { destruct (batchSize <? 0); [exact Hr|exact (subseteq_take _ _ _ Hr)]. }
  rewrite order_by_perm in Hin. apply list_elem_of_filter in Hin. tauto.
Qed.

Lemma elem_of_join (src : source_db) (r : joined_row) :
  r ∈ join_messages src
  <-> exists m c,
        m ∈ message src /\ (c, ROWID m) ∈ chat_message_join src
        /\ r = {| message_id := ROWID m; m_text := text m;
                  m_attributedBody := attributedBody m; m_date := date m;
                  chat_id := c |}.
Proof.
  unfold join_messages. rewrite list_elem_of_bind. split.
  - intros (m & Hr & Hm). apply list_elem_of_bind in Hr as ([c id] & Hr & Hc).
    simpl in Hr. case_bool_decide as Hid; [|by apply elem_of_nil in Hr].
    apply list_elem_of_singleton in Hr. subst id. exists m, c. eauto.
  - intros (m & c & Hm & Hc & ->). exists m. split; [|exact Hm].
    apply list_elem_of_bind. exists (c, ROWID m). split; [|exact Hc]. simpl.
    rewrite bool_decide_eq_true_2 by done. by apply list_elem_of_singleton.
Qed.

Lemma NoDup_fmap_eq {A B} (f : A -> B) (l : list A) (x y : A) :
  NoDup (f <$> l) -> x ∈ l -> y ∈ l -> f x = f y -> x = y.
Proof.
  induction l as [|a l IH]; intros Hnd Hx Hy Hf; [by apply elem_of_nil in Hx|].
  rewrite fmap_cons in Hnd. apply NoDup_cons in Hnd as [Hna Hnd].
  apply elem_of_cons in Hx as [->|Hx]; apply elem_of_cons in Hy as [->|Hy].
  - reflexivity.
  - exfalso. apply Hna. rewrite Hf. apply list_elem_of_fmap. eauto.
  - exfalso. apply Hna. rewrite <- Hf. apply list_elem_of_fmap. eauto.
  - by apply IH.
Qed.

Lemma resolved_ext (r1 r2 : joined_row) :
  m_text r1 = m_text r2 -> m_attributedBody r1 = m_attributedBody r2 ->
  resolved parseBuffer r1 = resolved parseBuffer r2.
Proof.
  intros Ht Hb. unfold resolved, stored_text, resolve_text. by rewrite Ht, Hb.
Qed.

Section Source.

Variable src : source_db.
Hypothesis rowid_unique : NoDup (ROWID <$> message src).

(** Two joined rows of one identifier are rows of one message. *)
Lemma join_same_id (r1 r2 : joined_row) :
  r1 ∈ join_messages src -> r2 ∈ join_messages src ->
  message_id r1 = message_id r2 ->
  resolved parseBuffer r1 = resolved parseBuffer r2.
Proof.
  intros (m1 & c1 & Hm1 & _ & ->)%elem_of_join (m2 & c2 & Hm2 & _ & ->)%elem_of_join Hid.
  simpl in Hid. rewrite (NoDup_fmap_eq ROWID _ m1 m2 rowid_unique Hm1 Hm2 Hid).
  apply resolved_ext; reflexivity.
Qed.

Lemma expected_text_row (r : joined_row) :
  r ∈ join_messages src ->
  expected_text parseBuffer src (message_id r) = resolved parseBuffer r.
Proof.
  intros Hr. unfold expected_text.
  destruct (filter _ (join_messages src)) as [|r0 l] eqn:E.
  - exfalso. apply (filter_nil_not_elem_of _ _ r E); [reflexivity|exact Hr].
  - assert (r0 ∈ filter (fun r' => message_id r' = message_id r) (join_messages src))
      as Hr0 by (rewrite E; apply elem_of_cons; by left).
    apply list_elem_of_filter in Hr0 as [Hid Hin]. by apply join_same_id.
Qed.

Lemma expected_text_absent (id : Z) :
  (forall r, r ∈ join_messages src -> message_id r <> id) ->
  expected_text parseBuffer src id = None.
Proof.
  intros Hno. unfold expected_text. rewrite filter_none; [reflexivity|exact Hno].
Qed.

End Source.

Lemma upsert_lookup_ne (t : tables) (r : joined_row) (id : Z) :
  message_id r <> id ->
  message_text (upsert parseBuffer t r) !! id = message_text t !! id.
Proof.
  intros Hne. unfold upsert. destruct (resolved parseBuffer r); [|reflexivity].
  simpl. by rewrite lookup_insert_ne.
Qed.

Lemma upsert_lookup_eq (t : tables) (r : joined_row) :
  e_text <$> (message_text (upsert parseBuffer t r) !! message_id r)
  = from_option Some (e_text <$> (message_text t !! message_id r))
      (resolved parseBuffer r).
Proof.
  unfold upsert. destruct (resolved parseBuffer r); [|reflexivity].
  simpl. by rewrite lookup_insert_eq.
Qed.

(** The entry under [id] after the loop of a batch whose rows of that
    identifier all resolve to [v]. *)
Lemma foldl_upsert_lookup (rows : list joined_row) (t : tables) (id : Z)
    (v : option jsstring) :
  (forall r, r ∈ rows -> message_id r = id -> resolved parseBuffer r = v) ->
  e_text <$> (message_text (foldl (upsert parseBuffer) t rows) !! id)
  = if decide (Exists (fun r => message_id r = id) rows)
    then from_option Some (e_text <$> (message_text t !! id)) v
    else e_text <$> (message_text t !! id).
Proof.
  revert t. induction rows as [|r rows IH]; intros t Hv.
  - destruct (decide (Exists (fun r => message_id r = id) [])) as [He|_];
      [by apply Exists_nil in He|reflexivity].
  - cbn [foldl]. rewrite IH.
    2:{ intros r' Hr'. apply Hv. apply elem_of_cons. by right. }
    destruct (decide (Exists (fun r => message_id r = id) (r :: rows))) as [Hall|Hall];
      destruct (decide (Exists (fun r => message_id r = id) rows)) as [Hrest|Hrest];
      destruct (decide (message_id r = id)) as [Hid|Hid].
    + subst id. rewrite upsert_lookup_eq.
      rewrite (Hv r ltac:(apply elem_of_cons; by left) eq_refl).
      destruct v; reflexivity.
    + by rewrite upsert_lookup_ne.
    + subst id. rewrite upsert_lookup_eq.
      by rewrite (Hv r ltac:(apply elem_of_cons; by left) eq_refl).
    + exfalso. apply Exists_cons in Hall as [?|?]; contradiction.
    + exfalso. apply Hall. by apply Exists_cons_tl.
    + exfalso. apply Hall. by apply Exists_cons_tl.
    + exfalso. apply Hall. by apply Exists_cons_hd.
    + by rewrite upsert_lookup_ne.
Qed.

Lemma message_text_apply_batch (rows : list joined_row) (t : tables) :
  message_text (apply_batch parseBuffer rows t)
  = message_text (foldl (upsert parseBuffer) t rows).
Proof. destruct rows; reflexivity. Qed.

Lemma batch_nil_pending (src : source_db) (batchSize : Z) (t : tables) :
  0 < batchSize -> batch_of src batchSize t = [] -> pending src t = [].
Proof.
  unfold batch_of, select_new_messages, limit, pending. intros Hb.
  destruct (Z.ltb_spec batchSize 0); [lia|].
  intros [Hk|Hs]%take_nil_inv; [lia|].
  apply Permutation_nil_r. rewrite <- Hs. symmetry. apply order_by_perm.
Qed.

Section Invariant.

Variable src : source_db.
Hypothesis rowid_unique : NoDup (ROWID <$> message src).

(** A committed batch keeps the invariant of the cursor. *)
Lemma after_batch_consistent (batchSize : Z) (t : tables) :
  consistent parseBuffer src t ->
  consistent parseBuffer src (after_batch parseBuffer src batchSize t).
Proof.
  intros Hc id. unfold after_batch.
  rewrite (cursor_of_apply_batch parseBuffer), message_text_apply_batch.
  set (rows := batch_of src batchSize t).
  rewrite (foldl_upsert_lookup rows t id (expected_text parseBuffer src id)).
  2:{ intros r Hr <-. symmetry. apply expected_text_row; [exact rowid_unique|].
      by apply batch_in_join in Hr as [Hr _]. }
  pose proof (max_id_ge rows (cursor_of t)) as Hge.
  rewrite (Hc id).
  destruct (decide (Exists (fun r => message_id r = id) rows)) as [He|He].
  - apply Exists_exists in He as (r & Hr & <-).
    pose proof (max_id_elem rows (cursor_of t) r Hr).
    apply batch_in_join in Hr as [_ Hlt].
    rewrite decide_False by lia. rewrite decide_True by lia.
    destruct (expected_text parseBuffer src (message_id r)); reflexivity.
  - destruct (decide (id <= cursor_of t)) as [Hold|Hnew].
    + rewrite decide_True by lia. reflexivity.
    + destruct (decide (id <= max_id rows (cursor_of t))) as [Hin|Hout];
        [|reflexivity].
      symmetry. apply expected_text_absent. intros r Hr Hid.
      destruct (batch_covers src batchSize t r Hr) as (r' & Hr' & Hid');
        [unfold rows in *; lia|].
      apply He, Exists_exists. exists r'. split; [exact Hr'|lia].
Qed.

Lemma pending_decreases (batchSize : Z) (t : tables) :
  batch_of src batchSize t <> [] ->
  (length (pending src (after_batch parseBuffer src batchSize t))
   < length (pending src t))%nat.
Proof.
  intros Hne. unfold pending, after_batch.
  rewrite (cursor_of_apply_batch parseBuffer).
  set (rows := batch_of src batchSize t) in *.
  pose proof (max_id_ge rows (cursor_of t)) as Hge.
  rewrite <- (list_filter_filter_l
                (fun r => max_id rows (cursor_of t) < message_id r)
                (fun r => cursor_of t < message_id r)) by (intros; lia).
  destruct rows as [|r0 rows'] eqn:E; [done|].
  assert (r0 ∈ batch_of src batchSize t) as Hr0.
  { fold rows. rewrite E. apply elem_of_cons. by left. }
  apply (length_filter_lt _ _ r0).
  - apply list_elem_of_filter. apply batch_in_join in Hr0. tauto.
  - pose proof (max_id_elem (batch_of src batchSize t) (cursor_of t) r0 Hr0).
    fold rows in H. rewrite E in H. lia.
Qed.

(** The loop of [buildIndex] ends, caught up, with the invariant kept. *)
Lemma index_loop_catches_up (batchSize : Z) (fuel : nat) (t : tables) (total0 : Z) :
  0 < batchSize ->
  consistent parseBuffer src t ->
  (length (pending src t) < fuel)%nat ->
  exists total t',
    index_loop parseBuffer fuel src batchSize total0
      (world_of {| current := t; txn := None |} None)
    = (Normal (Some total), world_of {| current := t'; txn := None |} None)
    /\ consistent parseBuffer src t'
    /\ pending src t' = [].
Proof.
  intros Hb. revert t total0.
  induction fuel as [|fuel IH]; intros t total0 Hc Hfuel; [lia|].
  cbn [index_loop].
  rewrite (bind_run _ _ _ _ _
             (indexNewMessages_nofault parseBuffer src batchSize
                {| current := t; txn := None |} eq_refl)).
  cbn [current].
  destruct (Z.ltb_spec (Z.of_nat (length (batch_of src batchSize t))) batchSize)
    as [Hshort|Hfull].
  - eexists _, _. split; [reflexivity|]. split; [by apply after_batch_consistent|].
    apply (batch_nil_pending src batchSize); [exact Hb|].
    by apply (caught_up parseBuffer).
  - apply IH; [by apply after_batch_consistent|].
    assert (batch_of src batchSize t <> []) as Hne.
    { intros Hnil. rewrite Hnil in Hfull. simpl in Hfull. lia. }
    pose proof (pending_decreases batchSize t Hne). lia.
Qed.

End Invariant.

(** What a call has done when it returns normally, in any world. *)
Lemma indexNewMessages_progress (src : source_db) (batchSize : Z) (d : index_db)
    (f : option nat) (n : Z) (w' : world) :
  indexNewMessages parseBuffer src batchSize (world_of d f) = (Normal n, w') ->
  n = Z.of_nat (length (batch_of src batchSize (current d)))
  /\ current (idb w') = after_batch parseBuffer src batchSize (current d).
Proof.
  intros H. destruct (txn d) as [saved|] eqn:Ht.
  - pose proof (indexNewMessages_txn_open parseBuffer src batchSize d f saved _ _ Ht H)
      as Hd.
    apply (fault_indep_indexNewMessages parseBuffer) in H.
    unfold indexNewMessages, getLastIndexedId in H.
    rewrite (bind_run _ _ _ _ _ (indexDbRead_nofault cursor_of d)) in H.
    rewrite (bind_run _ _ _ _ _ (dbRead_nofault src _ d)) in H.
    unfold after_batch, batch_of.
    destruct (select_new_messages src (cursor_of (current d)) batchSize)
      as [|msg rows].
    + injection H as <- _. rewrite Hd. split; reflexivity.
    + exfalso. apply bind_inv in H as [(e & _ & [=])|([] & w1 & H1 & _)].
      apply (indexDbRun_inv _ d None) in H1 as [(e & [=] & _)|(_ & Hex)].
      simpl in Hex. rewrite Ht in Hex. discriminate.
  - destruct (indexNewMessages_normal parseBuffer src batchSize d f n w' Ht H)
      as [-> ->]. split; reflexivity.
Qed.

(** The turns given to the loop of [buildIndex] always suffice: it ends by
    a short batch or by an exception, whatever the world it runs in. *)
Lemma index_loop_ends (src : source_db) (batchSize : Z) (fuel : nat)
    (d : index_db) (f : option nat) (total0 : Z) :
  0 < batchSize ->
  (length (pending src (current d)) < fuel)%nat ->
  (index_loop parseBuffer fuel src batchSize total0 (world_of d f)).1 <> Normal None.
Proof.
  intros Hb. revert d f total0.
  induction fuel as [|fuel IH]; intros d f total0 Hfuel; [lia|].
  cbn [index_loop]. unfold mbind, M_bind, bind.
  destruct (indexNewMessages parseBuffer src batchSize (world_of d f))
    as [[n|e] [d1 f1]] eqn:E; [|discriminate].
  destruct (indexNewMessages_progress src batchSize d f n _ E) as [Hn Hd1].
  simpl in Hd1.
  destruct (Z.ltb_spec n batchSize) as [Hshort|Hfull]; [discriminate|].
  apply (IH d1 f1). rewrite Hd1.
  assert (batch_of src batchSize (current d) <> []) as Hne.
  { intros Hnil. rewrite Hnil in Hn. simpl in Hn. lia. }
  pose proof (pending_decreases src batchSize (current d) Hne). lia.
Qed.

Lemma initializeSchema_idb (d : index_db) (f : option nat) :
  idb (initializeSchema (world_of d f)).2 = d.
Proof.
  unfold initializeSchema, indexDbRun, get_idb, put_idb, tick, world_of.
  unfold mbind, mret, M_bind, M_ret, bind, ret, throw.
  destruct f as [[|[|[|[|n]]]]|]; reflexivity.
Qed.

Lemma buildIndex_ends (src : source_db) (d : index_db) (f : option nat) :
  (buildIndex parseBuffer src (world_of d f)).1 <> Normal None.
Proof.
  unfold buildIndex. unfold mbind at 1, M_bind, bind.
  pose proof (initializeSchema_idb d f) as Hd.
  destruct (initializeSchema (world_of d f)) as [[[]|e] [d1 f1]]; [|discriminate].
  simpl in Hd. subst d1.
  apply index_loop_ends; [lia|].
  pose proof (length_filter (fun r => cursor_of (current d) < message_id r)
                (join_messages src)). unfold pending. lia.
Qed.

Lemma initializeSchema_nofault (d : index_db) :
  initializeSchema (world_of d None) = (Normal tt, world_of d None).
Proof.
  unfold initializeSchema.
  do 3 (rewrite (bind_run _ _ _ _ _
                   (indexDbRun_nofault CREATE_IF_NOT_EXISTS d d eq_refl))).
  apply indexDbRun_nofault. reflexivity.
Qed.

(** The index store as first opened is consistent with a message store
    whose identifiers are positive. *)
Lemma fresh_consistent (src : source_db) :
  Forall (fun m => 0 < ROWID m) (message src) ->
  consistent parseBuffer src empty_tables.
Proof.
  intros Hpos id. unfold empty_tables. simpl. rewrite lookup_empty. simpl.
  destruct (decide (id <= cursor_of _)) as [Hle|]; [|reflexivity].
  symmetry. unfold expected_text. rewrite filter_none; [reflexivity|].
  intros r (m & c & Hm & _ & ->)%elem_of_join. simpl.
  rewrite Forall_forall in Hpos. specialize (Hpos m Hm).
  unfold cursor_of in Hle. simpl in Hle. rewrite lookup_empty in Hle. lia.
Qed.

(** C1 -- Completeness under catch-up, as the code has it.  Run on an
    index store that satisfies the invariant of the cursor (as the empty
    store does), outside a transaction and without fault, over a message
    store whose identifiers are unique, [buildIndex] terminates; it leaves
    no joined row beyond the cursor; for every message that belongs to a
    conversation the index then holds, under the identifier of the message,
    the text the indexer resolves for it (trimmed), and no entry when that
    resolution gives no text; and a message of no conversation has no
    entry. *)
Theorem build_index_complete (src : source_db) (d : index_db) :
  NoDup (ROWID <$> message src) ->
  txn d = None ->
  consistent parseBuffer src (current d) ->
  exists total d',
    buildIndex parseBuffer src (world_of d None)
    = (Normal (Some total), world_of d' None)
    /\ txn d' = None
    /\ consistent parseBuffer src (current d')
    /\ (forall r, r ∈ join_messages src -> message_id r <= cursor d')
    /\ (forall m c,
          m ∈ message src -> (c, ROWID m) ∈ chat_message_join src ->
          ROWID m <= cursor d'
          /\ e_text <$> (message_text (current d') !! ROWID m)
             = indexed_text_of parseBuffer m)
    /\ (forall m,
          m ∈ message src ->
          (forall c, (c, ROWID m) ∉ chat_message_join src) ->
          message_text (current d') !! ROWID m = None).
Proof.
  intros Hnd Ht Hc. unfold buildIndex.
  rewrite (bind_run _ _ _ _ _ (initializeSchema_nofault d)).
  destruct d as [t o]. simpl in Ht, Hc. subst o.
  destruct (index_loop_catches_up src Hnd 5000 (S (length (join_messages src))) t 0
              ltac:(lia) Hc) as (total & t' & Hrun & Hc' & Hp).
  { unfold pending. pose proof (length_filter
      (fun r => cursor_of t < message_id r) (join_messages src)). lia. }
  exists total, {| current := t'; txn := None |}.
  split; [exact Hrun|]. split; [reflexivity|]. split; [exact Hc'|].
  assert (forall r, r ∈ join_messages src -> message_id r <= cursor_of t') as Hall.
  { intros r Hr. destruct (Z.le_gt_cases (message_id r) (cursor_of t')) as [|Hgt];
      [done|].
    exfalso. apply (filter_nil_not_elem_of _ _ r Hp); [lia|exact Hr]. }
  split; [exact Hall|]. split.
  - intros m c Hm Hcm.
    set (r := {| message_id := ROWID m; m_text := text m;
                 m_attributedBody := attributedBody m; m_date := date m;
                 chat_id := c |}).
    assert (r ∈ join_messages src) as Hr by (apply elem_of_join; eauto).
    pose proof (Hall r Hr) as Hle. split; [exact Hle|].
    unfold cursor. cbn [current]. rewrite (Hc' (ROWID m)).
    rewrite decide_True by exact Hle.
    rewrite (expected_text_row src Hnd r Hr : expected_text _ _ (ROWID m) = _).
    apply resolved_ext; reflexivity.
  - intros m Hm Hno. cbn [current]. pose proof (Hc' (ROWID m)) as Hid.
    rewrite (expected_text_absent src (ROWID m)) in Hid.
    + destruct (decide _) in Hid; by destruct (message_text t' !! ROWID m).
    + intros r (m' & c & Hm' & Hcm & ->)%elem_of_join Hid'. simpl in Hid'.
      rewrite Hid' in Hcm. exact (Hno c Hcm).
Qed.

End CatchUp.

(** The end-to-end example: entries for 1 ("hi there") and 2 ("call me",
    from the blob), none for the blank message 3, cursor 3. *)
Lemma build_index_complete_witness :
  NoDup (ROWID <$> message spec_example)
  /\ txn fresh = None
  /\ consistent magic_only_parser spec_example (current fresh)
  /\ exists total d',
      buildIndex magic_only_parser spec_example (world_of fresh None)
      = (Normal (Some total), world_of d' None)
      /\ cursor d' = 3
      /\ e_text <$> (message_text (current d') !! 1) = Some (lit "hi there")
      /\ e_text <$> (message_text (current d') !! 2) = Some (lit "call me")
      /\ e_text <$> (message_text (current d') !! 3) = None.
Proof.
  assert (NoDup (ROWID <$> message spec_example)) as Hnd.
  { apply (bool_decide_unpack _). vm_compute. exact I. }
  assert (consistent magic_only_parser spec_example (current fresh)) as Hc.
  { apply fresh_consistent. repeat constructor. }
  split; [exact Hnd|]. split; [reflexivity|]. split; [exact Hc|].
  destruct (build_index_complete magic_only_parser spec_example fresh Hnd eq_refl Hc)
    as (total & d' & Hrun & _ & _ & _ & _ & _).
  exists total, d'. split; [exact Hrun|].
  assert (d' = idb (buildIndex magic_only_parser spec_example (world_of fresh None)).2)
    as -> by (rewrite Hrun; reflexivity).
  repeat split; vm_compute; reflexivity.
Defined.

(** After [buildIndex] on the empty index the cursor is 3.  Message 1,
    whose text is "a" and whose blob yields nothing, resolves to "a" by the
    Message Text Resolver and has no entry; message 2, "hello", belongs to
    no conversation and has no entry. *)
Lemma build_index_counterexample :
  let d' := idb (buildIndex magic_only_parser orphan_example (world_of fresh None)).2 in
  (buildIndex magic_only_parser orphan_example (world_of fresh None)).1
  = Normal (Some 2)
  /\ cursor d' = 3
  /\ spec_text_of magic_only_parser (msg 1 (Some (lit "a")) (Some []))
     = Normal (Some (lit "a"))
  /\ message_text (current d') !! 1 = None
  /\ spec_text_of magic_only_parser (msg 2 (Some (lit "hello")) None)
     = Normal (Some (lit "hello"))
  /\ message_text (current d') !! 2 = None.
Proof. repeat split; vm_compute; reflexivity. Qed.

(** ** The query engine *)

Section QueryProps.
Import SearchRoute.

Variable getDisplayName : jsstring -> jsstring.
Variable contactGroupMap : gmap jsstring contact_group.




Lemma allowed_chat_ids_nofault (src : source_db) (contactIds : list jsstring)
    (allowedChatIds : gset Z) (d : index_db) :
  allowed_chat_ids contactGroupMap src contactIds allowedChatIds (world_of d None)
  = (Normal (allowedChatIds ∪ resolved_chat_ids contactGroupMap src contactIds),
     world_of d None).
Proof.
  revert allowedChatIds. induction contactIds as [|contactId rest IH]; intros acc.
  - simpl. unfold resolved_chat_ids. simpl. by rewrite union_empty_r_L.
  - cbn [allowed_chat_ids].
    change (resolved_chat_ids contactGroupMap src (contactId :: rest))
      with (chats_of_contact contactGroupMap src contactId
            ∪ resolved_chat_ids contactGroupMap src rest).
    unfold chats_of_contact at 1.
    destruct (contactGroupMap !! contactId) as [group|].
    + rewrite (bind_run _ _ _ _ _ (dbRead_nofault src _ d)), IH.
      by rewrite (assoc_L (∪)).
    + rewrite IH. by rewrite union_empty_l_L.
Qed.

Lemma filter_matches_nofault (src : source_db) (contactIds : list jsstring)
    (indexMatches : list index_row) (d : index_db) :
  filter_matches contactGroupMap src contactIds indexMatches (world_of d None)
  = (Normal (filtered contactGroupMap src contactIds indexMatches), world_of d None).
Proof.
  unfold filter_matches, filtered. destruct contactIds as [|c rest]; [reflexivity|].
  rewrite (bind_run _ _ _ _ _ (allowed_chat_ids_nofault src (c :: rest) ∅ d)).
  rewrite union_empty_l_L. unfold spec_filtered.
  destruct (bool_decide _); reflexivity.
Qed.

Lemma enrich_all_nofault (src : source_db) (rows : list index_row) (d : index_db) :
  enrich_all getDisplayName src rows (world_of d None)
  = (Normal (result_of getDisplayName src <$> rows), world_of d None).
Proof.
  induction rows as [|row rows IH]; [reflexivity|]. cbn [enrich_all].
  unfold enrich at 1.
  rewrite (bind_run _ _ _ _ _
             (bind_run _ _ _ _ _ (dbRead_nofault src _ d))).
  rewrite (bind_run _ _ _ _ _ IH). reflexivity.
Qed.

(** The handler on a non-blank query, when no database call is rejected. *)
Lemma search_nofault (src : source_db) (req : request) (d : index_db) :
  truthy_str (Some (trim (query_of req))) = true ->
  let kept := filtered contactGroupMap src (contact_ids_of req)
                (search_rows (query_of req) MAX_SEARCH_SCAN_LIMIT (current d)) in
  search getDisplayName contactGroupMap src req (world_of d None)
  = (Normal (Json (result_of getDisplayName src
                     <$> page_slice (page_of req) (limit_of req) kept)
               (page_of req) (limit_of req) (Z.of_nat (length kept))),
     world_of d None).
Proof.
  intros Hq kept. unfold search. rewrite Hq. cbn [negb]. unfold try_catchM.
  unfold searchIndex.
  rewrite (bind_run _ _ _ _ _ (indexDbRead_nofault _ d)).
  rewrite (bind_run _ _ _ _ _ (filter_matches_nofault src _ _ d)).
  rewrite (bind_run _ _ _ _ _ (enrich_all_nofault src _ d)).
  reflexivity.
Qed.

Lemma elem_of_chat_ids_of (ids : list jsstring) (src : source_db) (c : Z) :
  c ∈ chat_ids_of ids src
  <-> exists hid ident,
        ident ∈ ids /\ (hid, ident) ∈ handle src /\ (c, hid) ∈ chat_handle_join src.
Proof.
  unfold chat_ids_of. rewrite elem_of_remove_dups, list_elem_of_bind. split.
  - intros ([c' hid] & Hc & Hchj). apply list_elem_of_bind in Hc as ([hid' ident] & Hc & Hh).
    simpl in Hc.
    destruct (bool_decide (hid = hid')) eqn:E1; [|by apply elem_of_nil in Hc].
    destruct (bool_decide (ident ∈ ids)) eqn:E2; [|by apply elem_of_nil in Hc].
    apply bool_decide_eq_true_1 in E1, E2. subst hid'.
    simpl in Hc. apply list_elem_of_singleton in Hc as ->. eauto.
  - intros (hid & ident & Hi & Hh & Hchj). exists (c, hid). split; [|exact Hchj].
    apply list_elem_of_bind. exists (hid, ident). split; [|exact Hh]. simpl.
    rewrite !bool_decide_eq_true_2 by done. apply list_elem_of_singleton. reflexivity.
Qed.

Lemma elem_of_resolved_chat_ids (src : source_db) (contactIds : list jsstring) (c : Z) :
  c ∈ resolved_chat_ids contactGroupMap src contactIds
  <-> exists contactId group hid ident,
        contactId ∈ contactIds /\ contactGroupMap !! contactId = Some group
        /\ ident ∈ identifiers group /\ (hid, ident) ∈ handle src
        /\ (c, hid) ∈ chat_handle_join src.
Proof.
  unfold resolved_chat_ids. rewrite elem_of_union_list. split.
  - intros (X & HX & Hc). apply list_elem_of_fmap in HX as (contactId & -> & Hin).
    unfold chats_of_contact in Hc.
    destruct (contactGroupMap !! contactId) as [group|] eqn:Hg; [|set_solver].
    apply elem_of_list_to_set, elem_of_chat_ids_of in Hc as (hid & ident & ? & ? & ?).
    exists contactId, group, hid, ident. eauto.
  - intros (contactId & group & hid & ident & Hin & Hg & Hi & Hh & Hchj).
    exists (chats_of_contact contactGroupMap src contactId). split.
    + apply list_elem_of_fmap. eauto.
    + unfold chats_of_contact. rewrite Hg.
      apply elem_of_list_to_set, elem_of_chat_ids_of. eauto.
Qed.

Lemma filtered_cases (src : source_db) (contactIds : list jsstring)
    (matches : list index_row) :
  (resolved_chat_ids contactGroupMap src contactIds <> ∅ ->
   filtered contactGroupMap src contactIds matches
   = filter (fun m => r_chat_id m ∈ resolved_chat_ids contactGroupMap src contactIds)
       matches)
  /\ (resolved_chat_ids contactGroupMap src contactIds = ∅ ->
      filtered contactGroupMap src contactIds matches = matches).
Proof.
  unfold filtered, spec_filtered. split.
  - intros Hne. rewrite bool_decide_eq_true_2; [reflexivity|].
    assert (size (resolved_chat_ids contactGroupMap src contactIds) <> 0%nat); [|lia].
    rewrite size_non_empty_iff. intros He. apply Hne. by apply leibniz_equiv.
  - intros ->. reflexivity.
Qed.

(** C8 -- Query filter correctness, as the code has it.  For a search
    with a non-empty conversation filter (no database call rejected), the
    filter resolves to the conversations joined to a handle whose
    identifier belongs to one of the selected contacts.  When that set is
    not empty, the matches kept are exactly the substring matches whose
    conversation lies in it, the page is cut from them and the total is
    their count; when the set is empty, all the matches are kept. *)
Theorem filter_correct (src : source_db) (req : request) (d : index_db) :
  truthy_str (Some (trim (query_of req))) = true ->
  contact_ids_of req <> [] ->
  let allowed := resolved_chat_ids contactGroupMap src (contact_ids_of req) in
  let matches := search_rows (query_of req) MAX_SEARCH_SCAN_LIMIT (current d) in
  (forall c,
      c ∈ allowed
      <-> exists contactId group hid ident,
            contactId ∈ contact_ids_of req
            /\ contactGroupMap !! contactId = Some group
            /\ ident ∈ identifiers group
            /\ (hid, ident) ∈ handle src
            /\ (c, hid) ∈ chat_handle_join src)
  /\ exists kept,
      search getDisplayName contactGroupMap src req (world_of d None)
      = (Normal (Json (result_of getDisplayName src
                         <$> page_slice (page_of req) (limit_of req) kept)
                   (page_of req) (limit_of req) (Z.of_nat (length kept))),
         world_of d None)
      /\ (allowed <> ∅ ->
          kept = filter (fun m => r_chat_id m ∈ allowed) matches
          /\ forall m, m ∈ kept <-> m ∈ matches /\ r_chat_id m ∈ allowed)
      /\ (allowed = ∅ -> kept = matches).
Proof.
  intros Hq Hids allowed matches. split; [apply elem_of_resolved_chat_ids|].
  exists (filtered contactGroupMap src (contact_ids_of req) matches).
  split; [exact (search_nofault src req d Hq)|].
  destruct (filtered_cases src (contact_ids_of req) matches) as [Hne He].
  split; [|exact He].
  intros Hallowed. split; [exact (Hne Hallowed)|].
  intros m. rewrite (Hne Hallowed), list_elem_of_filter. tauto.
Qed.

Lemma like_percent (t : jsstring) : like [37] t = true.
Proof. induction t as [|c t IH]; [reflexivity|]. simpl in *. by rewrite IH. Qed.

Lemma like_prefix (q t : jsstring) :
  wildcard_free q ->
  like (q ++ [37]) t = starts_with (fun a b => lower_ascii a =? lower_ascii b) q t.
Proof.
  intros Hq. revert t. induction Hq as [|c q [H37 H95] _ IH]; intros t.
  - apply like_percent.
  - cbn [app like].
    destruct (Z.eqb_spec c 37) as [|_]; [done|].
    destruct (Z.eqb_spec c 95) as [|_]; [done|].
    destruct t as [|e t]; [reflexivity|]. simpl. by rewrite IH.
Qed.

(** Without wildcard in the query, the pattern [%query%] matches the
    texts that contain the query, ASCII letters compared regardless of case. *)
Lemma like_substring (q t : jsstring) :
  wildcard_free q -> like (37 :: q ++ [37]) t = contains_nocase q t.
Proof.
  intros Hq. unfold contains_nocase. induction t as [|c t IH].
  - cbn. rewrite (like_prefix q [] Hq). by rewrite orb_false_r.
  - cbn [is_infix_by]. rewrite <- IH, <- (like_prefix q (c :: t) Hq). reflexivity.
Qed.

Lemma limit_length {A} (n : Z) (l : list A) :
  0 <= n -> Z.of_nat (length (limit n l)) <= n.
Proof.
  intros Hn. unfold limit. destruct (Z.ltb_spec n 0); [lia|].
  rewrite length_take. lia.
Qed.

Lemma search_rows_total (query : jsstring) (t : tables) :
  Z.of_nat (length (search_rows query MAX_SEARCH_SCAN_LIMIT t)) <= MAX_SEARCH_SCAN_LIMIT.
Proof. apply limit_length. unfold MAX_SEARCH_SCAN_LIMIT. lia. Qed.

Lemma search_rows_match (query : jsstring) (limit_ : Z) (t : tables) (r : index_row) :
  r ∈ search_rows query limit_ t ->
  like (c_string (37 :: query ++ [37])) (c_string (r_text r)) = true.
Proof.
  unfold search_rows, limit. intros Hr.
  assert (r ∈ order_by date_desc
            (filter (fun r => Is_true (like (c_string (37 :: query ++ [37]))
                                         (c_string (r_text r))))
               (rows_of t))) as Hin.
  { destruct (limit_ <? 0); [exact Hr|]. exact (subseteq_take _ _ _ Hr). }
  rewrite order_by_perm in Hin. apply list_elem_of_filter in Hin as [Hm _].
  by apply Is_true_true.
Qed.

Lemma filtered_subset (src : source_db) (contactIds : list jsstring)
    (matches : list index_row) (r : index_row) :
  r ∈ filtered contactGroupMap src contactIds matches -> r ∈ matches.
Proof.
  unfold filtered, spec_filtered. destruct (bool_decide _); [|done].
  intros H. by apply list_elem_of_filter in H as [_ H].
Qed.

Lemma filtered_length (src : source_db) (contactIds : list jsstring)
    (matches : list index_row) :
  (length (filtered contactGroupMap src contactIds matches) <= length matches)%nat.
Proof.
  unfold filtered, spec_filtered. destruct (bool_decide _); [|done].
  apply length_filter.
Qed.

#[local] Instance date_desc_total : Total (fun a b => Is_true (date_desc a b)).
Proof.
  intros a b. unfold date_desc, date_leb.
  destruct (r_date a) as [x|], (r_date b) as [y|]; repeat case_bool_decide;
    simplify_eq; rewrite ?Is_true_true, ?Z.leb_le; try tauto; try lia.
Qed.

#[local] Instance date_desc_trans : Transitive (fun a b => Is_true (date_desc a b)).
Proof.
  intros a b c. unfold date_desc, date_leb.
  destruct (r_date a) as [x|], (r_date b) as [y|], (r_date c) as [z|];
    repeat case_bool_decide; simplify_eq;
    rewrite ?Is_true_true, ?Z.leb_le; try tauto; try lia; try done.
  all: intros; exfalso;
    repeat match goal with
           | H : Some ?u <> Some ?v |- _ => assert (u <> v) by congruence; clear H
           end; lia.
Qed.

Lemma date_desc_date (a b : index_row) :
  date_desc a b = true -> date_leb (r_date b) (r_date a) = true.
Proof.
  unfold date_desc. case_bool_decide as Heq; [|done]. intros _. rewrite Heq.
  unfold date_leb. destruct (r_date b); [apply Z.leb_refl|reflexivity].
Qed.

(** The rows of a search come newest first. *)
Lemma search_rows_sorted (query : jsstring) (limit_ : Z) (t : tables) :
  StronglySorted (fun a b => date_leb (r_date b) (r_date a) = true)
    (search_rows query limit_ t).
Proof.
  unfold search_rows.
  set (l := order_by date_desc _).
  assert (StronglySorted (fun a b => date_leb (r_date b) (r_date a) = true) l) as Hl.
  { assert (StronglySorted (fun a b => Is_true (date_desc a b)) l) as Hs
      by (apply StronglySorted_merge_sort; apply _).
    clearbody l. induction Hs as [|a l _ IH Hall]; constructor; [exact IH|].
    eapply Forall_impl; [exact Hall|]. intros b Hb. simpl in Hb.
    by apply date_desc_date, Is_true_true. }
  unfold limit. destruct (limit_ <? 0); [exact Hl|].
  rewrite <- (take_drop (Z.to_nat limit_) l) in Hl.
  by apply StronglySorted_app_1_l in Hl.
Qed.

Lemma StronglySorted_filter {A} (R : A -> A -> Prop) (P : A -> Prop)
    `{forall x, Decision (P x)} (l : list A) :
  StronglySorted R l -> StronglySorted R (filter P l).
Proof.
  induction 1 as [|a l _ IH Hall]; [constructor|].
  rewrite filter_cons. destruct (decide (P a)); [|exact IH].
  constructor; [exact IH|]. apply Forall_forall. intros x Hx%list_elem_of_filter.
  rewrite Forall_forall in Hall. apply Hall. tauto.
Qed.

(** What the handler keeps comes newest first as well. *)
Lemma filtered_sorted (src : source_db) (contactIds : list jsstring)
    (query : jsstring) (limit_ : Z) (t : tables) :
  StronglySorted (fun a b => date_leb (r_date b) (r_date a) = true)
    (filtered contactGroupMap src contactIds (search_rows query limit_ t)).
Proof.
  unfold filtered, spec_filtered. destruct (bool_decide _).
  - apply StronglySorted_filter, search_rows_sorted.
  - apply search_rows_sorted.
Qed.

(** For a page and a page size of at least 1, the slice of the handler is
    the [limit_] items that follow the first [(page - 1) * limit_]. *)
Lemma page_slice_take_drop {A} (page limit_ : Z) (l : list A) :
  1 <= page -> 1 <= limit_ ->
  page_slice page limit_ l
  = take (Z.to_nat limit_) (drop (Z.to_nat ((page - 1) * limit_)) l).
Proof.
  intros Hp Hl. unfold page_slice, js_slice.
  set (off := (page - 1) * limit_). assert (0 <= off) by (unfold off; nia).
  destruct (Z.ltb_spec off 0); [lia|]. destruct (Z.ltb_spec (off + limit_) 0); [lia|].
  destruct (Z.le_gt_cases (Z.of_nat (length l)) off) as [Hge|Hlt].
  - rewrite (Z.min_r off) by lia. rewrite !drop_ge by lia. by rewrite !take_nil.
  - rewrite (Z.min_l off) by lia.
    destruct (Z.le_gt_cases (off + limit_) (Z.of_nat (length l))) as [Hin|Hout].
    + rewrite Z.min_l by lia. f_equal. lia.
    + rewrite Z.min_r by lia. rewrite !take_ge; [reflexivity| |];
        rewrite length_drop; lia.
Qed.

Lemma c_string_id (s : jsstring) : 0 ∉ s -> c_string s = s.
Proof.
  induction s as [|c s IH]; [reflexivity|]. intros Hnot. cbn [c_string].
  destruct (Z.eqb_spec c 0) as [->|_]; [exfalso; apply Hnot; left|].
  rewrite IH; [reflexivity|]. intros Hin. apply Hnot. by right.
Qed.

Lemma starts_with_c_string (eqb : Z -> Z -> bool) (q t : jsstring) :
  starts_with eqb q (c_string t) = true -> starts_with eqb q t = true.
Proof.
  revert t. induction q as [|a q IH]; intros t; [reflexivity|].
  destruct t as [|c t]; [done|]. cbn [c_string].
  destruct (c =? 0); [done|]. cbn [starts_with].
  intros [Ha Hq]%andb_true_iff. by rewrite Ha, (IH t Hq).
Qed.

(** What occurs in a text before its first U+0000 occurs in the text. *)
Lemma is_infix_c_string (eqb : Z -> Z -> bool) (q t : jsstring) :
  is_infix_by eqb q (c_string t) = true -> is_infix_by eqb q t = true.
Proof.
  induction t as [|c t IH]; [done|].
  pose proof (starts_with_c_string eqb q (c :: t)) as Hstart.
  cbn [c_string] in Hstart |- *. destruct (c =? 0).
  - destruct q; [reflexivity|discriminate].
  - cbn [is_infix_by]. intros [H|H]%orb_true_iff; apply orb_true_iff.
    + left. by apply Hstart.
    + right. by apply IH.
Qed.

(** The search on a non-blank query without wildcard and without U+0000,
    no call rejected: every match kept contains the query (ASCII letters
    regardless of case), the total is the number of matches kept and is at
    most 10000, the matches come newest first, and the page is cut from
    them. *)
Lemma search_wildcard_free (src : source_db) (req : request) (d : index_db) :
  truthy_str (Some (trim (query_of req))) = true ->
  wildcard_free (query_of req) ->
  0 ∉ query_of req ->
  1 <= page_of req -> 1 <= limit_of req ->
  exists kept,
    search getDisplayName contactGroupMap src req (world_of d None)
    = (Normal (Json (result_of getDisplayName src
                       <$> take (Z.to_nat (limit_of req))
                             (drop (Z.to_nat ((page_of req - 1) * limit_of req)) kept))
                 (page_of req) (limit_of req) (Z.of_nat (length kept))),
       world_of d None)
    /\ Forall (fun r => contains_nocase (query_of req) (r_text r) = true) kept
    /\ Z.of_nat (length kept) <= MAX_SEARCH_SCAN_LIMIT
    /\ StronglySorted (fun a b => date_leb (r_date b) (r_date a) = true) kept.
Proof.
  intros Hq Hw Hnul Hp Hl.
  exists (filtered contactGroupMap src (contact_ids_of req)
            (search_rows (query_of req) MAX_SEARCH_SCAN_LIMIT (current d))).
  split; [|split; [|split]].
  - rewrite <- page_slice_take_drop by assumption. exact (search_nofault src req d Hq).
  - apply Forall_forall. intros r Hr%filtered_subset%search_rows_match.
    rewrite c_string_id in Hr.
    + rewrite (like_substring _ _ Hw) in Hr. by apply is_infix_c_string.
    + rewrite elem_of_cons, elem_of_app, list_elem_of_singleton.
      intros [?|[?|?]]; [lia|done|lia].
  - pose proof (filtered_length src (contact_ids_of req)
                  (search_rows (query_of req) MAX_SEARCH_SCAN_LIMIT (current d))).
    pose proof (search_rows_total (query_of req) (current d)). lia.
  - apply filtered_sorted.
Qed.

End QueryProps.


(** Entries in conversations 1, 2 and 3 and a filter on contact "A", whose
    handle is joined to conversation 1: the entry of conversation 1 alone
    is returned, and the total is 1. *)
Lemma filter_correct_witness :
  truthy_str (Some (trim (SearchRoute.query_of (request_of "hello" (Some "A"%string))))) = true
  /\ SearchRoute.contact_ids_of (request_of "hello" (Some "A"%string)) <> []
  /\ exists results,
      (SearchRoute.search raw_identifier contacts_a chats_abc
         (request_of "hello" (Some "A"%string)) (world_of index_abc None)).1
      = Normal (SearchRoute.Json results 1 20 1)
      /\ SearchRoute.res_conversation_id <$> results = [1].
Proof.
  assert (truthy_str (Some (trim (SearchRoute.query_of (request_of "hello" (Some "A"%string)))))
          = true) as Hq by reflexivity.
  assert (SearchRoute.contact_ids_of (request_of "hello" (Some "A"%string)) <> []) as Hids
    by (vm_compute; discriminate).
  split; [exact Hq|]. split; [exact Hids|].
  destruct (filter_correct raw_identifier contacts_a chats_abc
              (request_of "hello" (Some "A"%string)) index_abc Hq Hids)
    as (_ & kept & Hrun & Hkept & _).
  destruct Hkept as [-> _].
  { intros He. apply (f_equal elements) in He. vm_compute in He. discriminate He. }
  eexists. rewrite Hrun. split; vm_compute; reflexivity.
Defined.

(** A filter on a contact the store does not know resolves to no
    conversation: the intersection is empty, yet the handler returns the
    three matches and a total of 3. *)
Lemma filter_unresolved_counterexample :
  SearchRoute.contact_ids_of (request_of "hello" (Some "nobody"%string)) = [lit "nobody"]
  /\ elements (resolved_chat_ids contacts_a chats_abc [lit "nobody"]) = []
  /\ spec_filtered contacts_a chats_abc [lit "nobody"]
       (search_rows (lit "hello") SearchRoute.MAX_SEARCH_SCAN_LIMIT (current index_abc))
     = []
  /\ exists results,
      (SearchRoute.search raw_identifier contacts_a chats_abc
         (request_of "hello" (Some "nobody"%string)) (world_of index_abc None)).1
      = Normal (SearchRoute.Json results 1 20 3)
      /\ SearchRoute.res_conversation_id <$> results = [1; 2; 3].
Proof.
  split; [vm_compute; reflexivity|]. split; [vm_compute; reflexivity|].
  split; [vm_compute; reflexivity|].
  eexists. split; vm_compute; reflexivity.
Qed.

(** C9 -- Substring match.  The query [_] over the index of three entries:
    the handler returns the three entries, none of which contains an
    underscore, under the exact rule as under the caseless one.  SQLite
    reads the [_] and [%] of a query as wildcards of the LIKE pattern. *)
Lemma like_wildcard_failing_input :
  exists results,
    (SearchRoute.search raw_identifier contacts_a chats_abc
       (request_of "_" None) (world_of index_abc None)).1
    = Normal (SearchRoute.Json results 1 20 3)
    /\ SearchRoute.res_text <$> results
       = [lit "hello from A"; lit "Hello from B"; lit "hello from C"]
    /\ Forall (fun t => contains_exact (lit "_") t = false
                        /\ contains_nocase (lit "_") t = false)
         (SearchRoute.res_text <$> results).
Proof.
  eexists. split; [vm_compute; reflexivity|]. split; [vm_compute; reflexivity|].
  repeat constructor.
Qed.

(** The end-to-end example, continued: after [buildIndex] on the empty
    index, the search for "call" returns exactly the entry of message 2. *)
Example search_call_returns_message_2 :
  let built := (buildIndex magic_only_parser spec_example (world_of fresh None)).2 in
  exists results,
    (SearchRoute.search raw_identifier contacts_a spec_example
       (request_of "call" None) built).1
    = Normal (SearchRoute.Json results 1 20 1)
    /\ SearchRoute.res_message_id <$> results = [2]
    /\ SearchRoute.res_text <$> results = [lit "call me"].
Proof. eexists. repeat split; vm_compute; reflexivity. Qed.

(** The pagination example: 45 matching entries and a page size of 20. *)
Example pages_of_45_matches :
  (exists results,
      (SearchRoute.search raw_identifier contacts_a chats_abc
         (page_request "hello" 1) (world_of (index_of_hellos 45) None)).1
      = Normal (SearchRoute.Json results 1 20 45)
      /\ length results = 20%nat)
  /\ (exists results,
        (SearchRoute.search raw_identifier contacts_a chats_abc
           (page_request "hello" 3) (world_of (index_of_hellos 45) None)).1
        = Normal (SearchRoute.Json results 3 20 45)
        /\ length results = 5%nat).
Proof. split; eexists; split; vm_compute; reflexivity. Qed.

(** * Further properties of the code *)

(** ** Cleaning of extracted text *)

Section CleanProps.

Lemma rev_is_reverse {A} (l : list A) : rev l = reverse l.
Proof. unfold reverse. apply rev_alt. Qed.

Lemma drop_while_split {A} (p : A -> bool) (l : list A) :
  exists k, l = k ++ drop_while p l /\ Forall (fun x => p x = true) k.
Proof.
  induction l as [|x l IH]; simpl.
  - exists []. split; [reflexivity|constructor].
  - destruct (p x) eqn:Hp.
    + destruct IH as (k & Hk & Hall). exists (x :: k). split.
      * simpl. congruence.
      * constructor; assumption.
    + exists []. split; [reflexivity|constructor].
Qed.

Lemma drop_while_head {A} (p : A -> bool) (l : list A) (x : A) :
  head (drop_while p l) = Some x -> p x = false.
Proof.
  induction l as [|y l IH]; simpl; [discriminate|].
  destruct (p y) eqn:Hp; [exact IH|]. simpl. congruence.
Qed.

Lemma drop_while_id {A} (p : A -> bool) (l : list A) :
  (forall x, head l = Some x -> p x = false) -> drop_while p l = l.
Proof.
  destruct l as [|y l]; simpl; [reflexivity|].
  intros H. rewrite (H y eq_refl). reflexivity.
Qed.

Lemma drop_while_end_split {A} (p : A -> bool) (l : list A) :
  exists k, l = drop_while_end p l ++ k /\ Forall (fun x => p x = true) k.
Proof.
  unfold drop_while_end.
  destruct (drop_while_split p (rev l)) as (k & Hk & Hall).
  exists (rev k). split.
  - rewrite <- rev_app_distr, <- Hk, rev_involutive. reflexivity.
  - rewrite rev_is_reverse. apply Forall_reverse. exact Hall.
Qed.

Lemma drop_while_end_last {A} (p : A -> bool) (l : list A) (x : A) :
  last (drop_while_end p l) = Some x -> p x = false.
Proof.
  unfold drop_while_end. rewrite rev_is_reverse, last_reverse.
  apply drop_while_head.
Qed.

Lemma drop_while_end_id {A} (p : A -> bool) (l : list A) :
  (forall x, last l = Some x -> p x = false) -> drop_while_end p l = l.
Proof.
  intros H. unfold drop_while_end. rewrite drop_while_id.
  - apply rev_involutive.
  - intros x Hx. apply H. rewrite rev_is_reverse, head_reverse in Hx. exact Hx.
Qed.

Lemma drop_while_sublist {A} (p : A -> bool) (l : list A) :
  drop_while p l `sublist_of` l.
Proof.
  destruct (drop_while_split p l) as (k & Hk & _).
  rewrite Hk at 2. apply sublist_inserts_l. reflexivity.
Qed.

Lemma drop_while_end_sublist {A} (p : A -> bool) (l : list A) :
  drop_while_end p l `sublist_of` l.
Proof.
  destruct (drop_while_end_split p l) as (k & Hk & _).
  rewrite Hk at 2. apply sublist_inserts_r. reflexivity.
Qed.

Lemma trim_sublist (s : jsstring) : trim s `sublist_of` s.
Proof.
  unfold trim. etrans; [apply drop_while_end_sublist|apply drop_while_sublist].
Qed.

(** What is left of a string that begins with a kept character still
    begins with it, unless nothing is left. *)
Lemma drop_while_end_head {A} (p : A -> bool) (l : list A) (x : A) :
  head (drop_while_end p l) = Some x -> head l = Some x.
Proof.
  destruct (drop_while_end_split p l) as (k & Hk & _).
  intros H. rewrite Hk. destruct (drop_while_end p l); [discriminate|exact H].
Qed.

Lemma trim_head (s : jsstring) (x : Z) :
  head (trim s) = Some x -> is_whitespace x = false.
Proof.
  unfold trim. intros H. apply drop_while_end_head in H.
  exact (drop_while_head _ _ _ H).
Qed.

Lemma trim_last (s : jsstring) (x : Z) :
  last (trim s) = Some x -> is_whitespace x = false.
Proof. apply drop_while_end_last. Qed.

Lemma trim_id (s : jsstring) :
  (forall x, head s = Some x -> is_whitespace x = false) ->
  (forall x, last s = Some x -> is_whitespace x = false) ->
  trim s = s.
Proof.
  intros Hh Hl. unfold trim. rewrite (drop_while_id _ _ Hh).
  apply drop_while_end_id. exact Hl.
Qed.

Lemma trim_trim (s : jsstring) : trim (trim s) = trim s.
Proof. apply trim_id; [apply trim_head|apply trim_last]. Qed.

(** A string has something left after [trim] exactly when it holds a
    character that is not whitespace. *)
Lemma trim_nonempty (s : jsstring) :
  trim s <> [] <-> Exists (fun c => is_whitespace c = false) s.
Proof.
  split.
  - intros H. destruct (trim s) as [|x t] eqn:E; [done|].
    apply Exists_exists. exists x. split.
    + eapply elem_of_sublist; [|apply trim_sublist]. rewrite E. left.
    + apply (trim_head s). rewrite E. reflexivity.
  - intros H Hnil. apply Exists_exists in H as (x & Hx & Hws).
    unfold trim in Hnil.
    destruct (drop_while_split is_whitespace s) as (k & Hk & Hall).
    destruct (drop_while_end_split is_whitespace (drop_while is_whitespace s))
      as (k' & Hk' & Hall').
    rewrite Hnil in Hk'. simpl in Hk'. rewrite Hk' in Hk.
    rewrite Hk in Hx. apply elem_of_app in Hx as [Hx|Hx].
    + rewrite Forall_forall in Hall. rewrite (Hall x Hx) in Hws. discriminate.
    + rewrite Forall_forall in Hall'. rewrite (Hall' x Hx) in Hws. discriminate.
Qed.

Lemma cleanExtractedText_sublist (text : jsstring) :
  Text.cleanExtractedText text `sublist_of` text.
Proof.
  unfold Text.cleanExtractedText.
  etrans; [apply trim_sublist|].
  etrans; [apply sublist_filter|].
  etrans; [apply drop_while_end_sublist|apply drop_while_sublist].
Qed.

Lemma cleanExtractedText_no_object_char (text : jsstring) :
  0xFFFC ∉ Text.cleanExtractedText text.
Proof.
  unfold Text.cleanExtractedText. intros H.
  eapply elem_of_sublist in H; [|apply trim_sublist].
  apply list_elem_of_filter in H as [H _]. apply H. reflexivity.
Qed.

(** X1 -- [cleanExtractedText] only removes characters: its result is a
    subsequence of the text, holds no object replacement character
    U+FFFC, neither begins nor ends with whitespace, and is left as it is
    by a further [trim]. *)
Theorem cleanExtractedText_cleaned (text : jsstring) :
  let cleaned := Text.cleanExtractedText text in
  (cleaned `sublist_of` text)
  /\ (0xFFFC ∉ cleaned)
  /\ (forall c, head cleaned = Some c -> is_whitespace c = false)
  /\ (forall c, last cleaned = Some c -> is_whitespace c = false)
  /\ trim cleaned = cleaned.
Proof.
  split; [apply cleanExtractedText_sublist|].
  split; [apply cleanExtractedText_no_object_char|].
  split; [apply trim_head|].
  split; [apply trim_last|].
  apply trim_trim.
Qed.


Lemma truthy_nonempty (t : jsstring) : truthy_str (Some t) = true <-> t <> [].
Proof. destruct t; simpl; split; congruence. Qed.

Lemma str_length_pos (t : jsstring) (n : Z) :
  0 <= n -> (n <? Text.str_length t) = true -> t <> [].
Proof.
  unfold Text.str_length. intros Hn H ->. apply Z.ltb_lt in H. simpl in H. lia.
Qed.

(** A text the scan of [$objects] returns is a cleaned string, not empty. *)
Lemma scan_objects_cleaned (objects : list Text.plist) (t : jsstring) :
  Text.scan_objects objects = Normal (Some t) ->
  t <> [] /\ exists s, t = Text.cleanExtractedText s.
Proof.
  induction objects as [|obj rest IH]; simpl; [discriminate|].
  assert (Hnsstring :
    match (if Text.truthy obj && Text.is_object obj
           then Text.get_prop obj (lit "NS.string") else None) with
    | Some v =>
        if Text.truthy v
        then cbind (Text.cleanExtractedText_value v)
               (fun cleaned => if 0 <? Text.str_length cleaned
                               then Normal (Some cleaned)
                               else Text.scan_objects rest)
        else Text.scan_objects rest
    | None => Text.scan_objects rest
    end = Normal (Some t) ->
    t <> [] /\ exists s, t = Text.cleanExtractedText s).
  { destruct (if Text.truthy obj && Text.is_object obj
              then Text.get_prop obj (lit "NS.string") else None) as [v|];
      [|exact IH].
    destruct (Text.truthy v); [|exact IH].
    destruct v; simpl; try discriminate.
    destruct (0 <? Text.str_length (Text.cleanExtractedText s)) eqn:Hlen;
      [|exact IH].
    intros [= <-]. split; [by eapply str_length_pos; [|exact Hlen]|by eexists]. }
  destruct obj as [| | |s| | | |]; try exact Hnsstring.
  destruct s as [|c s]; [exact Hnsstring|]. cbv beta iota zeta.
  match goal with
  | |- context [if ?b then Some _ else None] => destruct b eqn:Hq
  end; [|exact Hnsstring].
  intros [= <-]. apply andb_true_iff in Hq as [Hlen _].
  split; [by eapply str_length_pos; [|exact Hlen]|by eexists].
Qed.

Section ExtractorOutput.

Variable parseBuffer : buffer -> completion (list Text.plist).

Lemma structured_path_cleaned (data : buffer) (t : jsstring) :
  Text.structured_path parseBuffer data = Some t ->
  t <> [] /\ exists s, t = Text.cleanExtractedText s.
Proof.
  unfold Text.structured_path.
  destruct (parseBuffer data) as [[|root rest]|e]; simpl; try discriminate.
  unfold Text.extractTextFromParsedPlist.
  destruct (negb (Text.truthy root)); simpl; [discriminate|].
  destruct (Text.get_prop root (lit "$objects")) as [[| | | | | |objects|]|];
    simpl; try discriminate.
  destruct (Text.scan_objects objects) as [[t'|]|e] eqn:Hscan; simpl;
    try discriminate.
  destruct t'; [discriminate|].
  intros [= <-]. exact (scan_objects_cleaned _ _ Hscan).
Qed.

Lemma fallback_path_cleaned (data : buffer) (t : jsstring) :
  Text.fallback_path data = Normal (Some t) ->
  t <> [] /\ exists s, t = Text.cleanExtractedText s.
Proof.
  unfold Text.fallback_path.
  destruct (indexOf data Text.nsStringMarker 0 =? -1); [discriminate|].
  destruct (negb _ && _); [|discriminate].
  destruct (Text.parse_length data _) as [[messageLength textStart]|e];
    simpl; [|discriminate].
  destruct (0 <? Text.str_length _) eqn:Hlen; [|discriminate].
  intros [= <-]. split; [by eapply str_length_pos; [|exact Hlen]|by eexists].
Qed.

Lemma extract_cleaned (b : option buffer) (t : jsstring) :
  Text.extractTextFromAttributedBody parseBuffer b = Normal (Some t) ->
  t <> [] /\ exists s, t = Text.cleanExtractedText s.
Proof.
  destruct b as [data|]; simpl; [|discriminate].
  destruct (Text.structured_path parseBuffer data) as [t'|] eqn:Hs; simpl.
  - intros [= <-]. exact (structured_path_cleaned _ _ Hs).
  - destruct (Text.fallback_path data) as [[t'|]|e] eqn:Hf; simpl;
      try discriminate.
    intros [= <-]. exact (fallback_path_cleaned _ _ Hf).
Qed.

(** X2 -- Every text the extractor returns is ready to be stored: it is
    not empty, holds no object replacement character U+FFFC, has no
    whitespace at either end, and the indexer's trim-and-blank check
    stores it unchanged. *)
Theorem extracted_text_stored_unchanged (b : option buffer) (t : jsstring) :
  Text.extractTextFromAttributedBody parseBuffer b = Normal (Some t) ->
  t <> []
  /\ (0xFFFC ∉ t)
  /\ trim t = t
  /\ text_to_store (Some t) = Some t.
Proof.
  intros H. destruct (extract_cleaned _ _ H) as (Hne & s & ->).
  assert (Htrim : trim (Text.cleanExtractedText s) = Text.cleanExtractedText s)
    by apply trim_trim.
  split; [exact Hne|]. split; [apply cleanExtractedText_no_object_char|].
  split; [exact Htrim|].
  unfold text_to_store. rewrite Htrim.
  apply truthy_nonempty in Hne. rewrite Hne. reflexivity.
Qed.

End ExtractorOutput.

Lemma extracted_text_stored_unchanged_witness :
  Text.extractTextFromAttributedBody magic_only_parser (Some hello_fallback)
  = Normal (Some (lit "Hello"))
  /\ lit "Hello" <> []
  /\ (0xFFFC ∉ lit "Hello")
  /\ trim (lit "Hello") = lit "Hello"
  /\ text_to_store (Some (lit "Hello")) = Some (lit "Hello").
Proof.
  split; [vm_compute; reflexivity|].
  apply (extracted_text_stored_unchanged magic_only_parser (Some hello_fallback)).
  vm_compute. reflexivity.
Defined.

(** The structured path: metadata strings are passed over, the first
    other string is cleaned and returned. *)
Example structured_path_returns_first_text :
  Text.extractTextFromAttributedBody TextRef.archive_parser (Some [])
  = Normal (Some (lit "Hello there")).
Proof. vm_compute. reflexivity. Qed.

End CleanProps.

(** ** Keeping the index up to date *)

Import Upkeep.

Lemma world_eta (w : world) : w = world_of (idb w) (fault w).
Proof. destruct w; reflexivity. Qed.

Lemma max_rowid_upper (src : source_db) (m : message_row) :
  m ∈ message src -> exists z, max_rowid src = Some z /\ ROWID m <= z.
Proof.
  unfold max_rowid. destruct (message src) as [|m0 rest]; [by intros ?%elem_of_nil|].
  intros Hm. eexists; split; [reflexivity|].
  apply elem_of_cons in Hm as [->|Hm].
  - clear. induction rest as [|x rest IH]; csimpl; lia.
  - induction rest as [|x rest IH]; [by apply elem_of_nil in Hm|].
    csimpl. apply elem_of_cons in Hm as [->|Hm]; [lia|].
    specialize (IH Hm). lia.
Qed.

Lemma max_rowid_attained (src : source_db) (z : Z) :
  max_rowid src = Some z -> exists m, m ∈ message src /\ ROWID m = z.
Proof.
  unfold max_rowid. destruct (message src) as [|m0 rest]; [discriminate|].
  intros [= <-]. induction rest as [|x rest IH]; csimpl.
  - exists m0. split; [left|reflexivity].
  - destruct IH as (m & Hm & Heq).
    destruct (Z.max_spec (ROWID x) (foldr Z.max (ROWID m0) (ROWID <$> rest)))
      as [[_ ->]|[_ ->]].
    + exists m. split; [|exact Heq].
      apply elem_of_cons in Hm as [->|Hm]; [left|right; right; exact Hm].
    + exists x. split; [right; left|reflexivity].
Qed.

Lemma needsUpdate_inv (src : source_db) (d : index_db) (f : option nat)
    (r : completion bool) (w' : world) :
  needsUpdate src (world_of d f) = (r, w') ->
  idb w' = d
  /\ (forall b, r = Normal b -> b = (cursor d <? default 0 (max_rowid src))).
Proof.
  unfold needsUpdate, getLastIndexedId. intros H.
  apply bind_inv in H as [(e & H & ->)|(lastId & w1 & H1 & H)].
  { apply indexDbRead_inv in H as [Hd _]. split; [exact Hd|discriminate]. }
  apply indexDbRead_inv in H1 as [Hd1 Hlast].
  specialize (Hlast lastId eq_refl). rewrite (world_eta w1), Hd1 in H.
  apply bind_inv in H as [(e & H & ->)|(latest & w2 & H2 & H)].
  { apply dbRead_inv in H as [Hd _]. split; [exact Hd|discriminate]. }
  apply dbRead_inv in H2 as [Hd2 Hlatest].
  specialize (Hlatest latest eq_refl). injection H as <- <-.
  split; [exact Hd2|]. intros b [= <-]. by rewrite Hlast, Hlatest.
Qed.

Lemma needsUpdate_nofault (src : source_db) (d : index_db) :
  needsUpdate src (world_of d None)
  = (Normal (cursor d <? default 0 (max_rowid src)), world_of d None).
Proof.
  unfold needsUpdate, getLastIndexedId.
  rewrite (bind_run _ _ _ _ _ (indexDbRead_nofault cursor_of d)).
  rewrite (bind_run _ _ _ _ _ (dbRead_nofault src max_rowid d)).
  reflexivity.
Qed.

(** The comparison [needsUpdate] makes, read on the messages. *)
Lemma stale_iff (src : source_db) (c : Z) :
  0 <= c ->
  (c <? default 0 (max_rowid src)) = true
  <-> exists m, m ∈ message src /\ c < ROWID m.
Proof.
  intros Hc. rewrite Z.ltb_lt. split.
  - destruct (max_rowid src) as [z|] eqn:E; simpl; [|lia].
    intros Hlt. apply max_rowid_attained in E as (m & Hm & <-). by exists m.
  - intros (m & Hm & Hlt).
    apply max_rowid_upper in Hm as (z & -> & Hz). simpl. lia.
Qed.

(** X3 -- [needsUpdate] only reads: whatever database call fails, the index
    store is as before.  With a cursor that is not negative and no failing
    call it answers true exactly when some message of the message store,
    in a conversation or not, has a ROWID above the cursor. *)
Theorem needsUpdate_answer (src : source_db) (d : index_db) :
  0 <= cursor d ->
  (forall f, idb (needsUpdate src (world_of d f)).2 = d)
  /\ exists stale,
       needsUpdate src (world_of d None) = (Normal stale, world_of d None)
       /\ (stale = true <-> exists m, m ∈ message src /\ cursor d < ROWID m).
Proof.
  intros Hc. split.
  - intros f. destruct (needsUpdate src (world_of d f)) as [r w'] eqn:E.
    by apply needsUpdate_inv in E as [Hd _].
  - eexists. split; [apply needsUpdate_nofault|]. by apply stale_iff.
Qed.

Lemma needsUpdate_answer_witness :
  0 <= cursor fresh
  /\ (forall f, idb (needsUpdate spec_example (world_of fresh f)).2 = fresh)
  /\ exists stale,
       needsUpdate spec_example (world_of fresh None)
       = (Normal stale, world_of fresh None)
       /\ (stale = true
           <-> exists m, m ∈ message spec_example /\ cursor fresh < ROWID m).
Proof.
  split; [vm_compute; discriminate|].
  apply (needsUpdate_answer spec_example fresh). vm_compute. discriminate.
Defined.

Section UpkeepProps.

Variable parseBuffer : buffer -> completion (list Text.plist).

Lemma order_by_nil {A} (leb : A -> A -> bool) : order_by leb [] = [].
Proof. apply Permutation_nil_r. apply order_by_perm. Qed.

Lemma limit_nil {A} (n : Z) : limit n (@nil A) = [].
Proof. unfold limit. destruct (n <? 0); [reflexivity|apply take_nil]. Qed.

(** Nothing is selected when no joined row lies above the cursor. *)
Lemma select_none (src : source_db) (lastId batchSize : Z) :
  (forall r, r ∈ join_messages src -> message_id r <= lastId) ->
  select_new_messages src lastId batchSize = [].
Proof.
  intros H. unfold select_new_messages.
  rewrite filter_none; [by rewrite order_by_nil, limit_nil|].
  intros r Hr. specialize (H r Hr). lia.
Qed.

Lemma indexNewMessages_nothing (src : source_db) (batchSize : Z) (d : index_db) :
  batch_of src batchSize (current d) = [] ->
  indexNewMessages parseBuffer src batchSize (world_of d None)
  = (Normal 0, world_of d None).
Proof.
  unfold batch_of. intros Hnil. unfold indexNewMessages, getLastIndexedId.
  rewrite (bind_run _ _ _ _ _ (indexDbRead_nofault cursor_of d)).
  rewrite (bind_run _ _ _ _ _
             (dbRead_nofault src
                (fun s => select_new_messages s (cursor_of (current d)) batchSize) d)).
  rewrite Hnil. reflexivity.
Qed.

(** X4 -- When [needsUpdate] answers false, there is nothing to index: a
    call of [indexNewMessages], with any batch size, returns 0 and leaves
    the index store as it is. *)
Theorem not_stale_nothing_to_index (src : source_db) (d : index_db) (f : option nat)
    (w' : world) (batchSize : Z) :
  needsUpdate src (world_of d f) = (Normal false, w') ->
  indexNewMessages parseBuffer src batchSize (world_of d None)
  = (Normal 0, world_of d None).
Proof.
  intros H. apply needsUpdate_inv in H as [_ Hb].
  specialize (Hb false eq_refl). symmetry in Hb. apply Z.ltb_ge in Hb.
  apply indexNewMessages_nothing. apply select_none.
  intros r (m & c & Hm & _ & ->)%elem_of_join. simpl.
  apply max_rowid_upper in Hm as (z & Hz & Hle). rewrite Hz in Hb. simpl in Hb.
  unfold cursor in Hb. lia.
Qed.

End UpkeepProps.

Lemma not_stale_nothing_to_index_witness :
  needsUpdate spec_example (world_of index_abc None)
  = (Normal false, world_of index_abc None)
  /\ indexNewMessages magic_only_parser spec_example 1000 (world_of index_abc None)
     = (Normal 0, world_of index_abc None).
Proof.
  split; [vm_compute; reflexivity|].
  apply (not_stale_nothing_to_index magic_only_parser spec_example index_abc None
           (world_of index_abc None)).
  vm_compute. reflexivity.
Defined.

(** ** Interrupted runs and a growing message store *)

Section Recovery.

Variable parseBuffer : buffer -> completion (list Text.plist).
Variable src : source_db.
Hypothesis rowid_unique : NoDup (ROWID <$> message src).

(** A call keeps the invariant of the cursor, whether it commits its batch
    or fails. *)
Lemma indexNewMessages_keeps (batchSize : Z) (d : index_db) (f : option nat) :
  txn d = None -> consistent parseBuffer src (current d) ->
  txn (idb (indexNewMessages parseBuffer src batchSize (world_of d f)).2) = None
  /\ consistent parseBuffer src
       (current (idb (indexNewMessages parseBuffer src batchSize (world_of d f)).2)).
Proof.
  intros Ht Hc.
  destruct (indexNewMessages parseBuffer src batchSize (world_of d f))
    as [[n|e] w'] eqn:E; simpl.
  - apply indexNewMessages_normal in E as [_ ->]; [|exact Ht].
    split; [reflexivity|]. by apply after_batch_consistent.
  - apply indexNewMessages_throw in E as ->; [|exact Ht]. by split.
Qed.

Lemma index_loop_keeps (fuel : nat) (batchSize total0 : Z) (d : index_db)
    (f : option nat) :
  txn d = None -> consistent parseBuffer src (current d) ->
  txn (idb (index_loop parseBuffer fuel src batchSize total0 (world_of d f)).2) = None
  /\ consistent parseBuffer src
       (current (idb (index_loop parseBuffer fuel src batchSize total0
                        (world_of d f)).2)).
Proof.
  revert d f total0.
  induction fuel as [|fuel IH]; intros d f total0 Ht Hc; [by split|].
  pose proof (indexNewMessages_keeps batchSize d f Ht Hc) as K.
  destruct (index_loop parseBuffer (S fuel) src batchSize total0 (world_of d f))
    as [r w'] eqn:E.
  cbn [index_loop] in E.
  apply bind_inv in E as [(e & E & ->)|(n & w1 & E1 & E)].
  - rewrite E in K. exact K.
  - rewrite E1 in K. simpl in K. destruct K as [Kt Kc].
    destruct (n <? batchSize).
    + injection E as <- <-. by split.
    + rewrite (world_eta w1) in E.
      specialize (IH (idb w1) (fault w1) (total0 + n) Kt Kc).
      rewrite E in IH. exact IH.
Qed.

Lemma buildIndex_keeps (d : index_db) (f : option nat) :
  txn d = None -> consistent parseBuffer src (current d) ->
  txn (idb (buildIndex parseBuffer src (world_of d f)).2) = None
  /\ consistent parseBuffer src
       (current (idb (buildIndex parseBuffer src (world_of d f)).2)).
Proof.
  intros Ht Hc.
  destruct (buildIndex parseBuffer src (world_of d f)) as [r w'] eqn:E.
  unfold buildIndex in E.
  pose proof (initializeSchema_idb d f) as Hs.
  apply bind_inv in E as [(e & E & ->)|([] & w1 & E1 & E)].
  - rewrite E in Hs. simpl in *. by subst.
  - rewrite E1 in Hs. simpl in Hs. rewrite (world_eta w1), Hs in E.
    pose proof (index_loop_keeps (S (length (join_messages src))) 5000 0 d
                  (fault w1) Ht Hc) as K.
    rewrite E in K. exact K.
Qed.

(** With the invariant and nothing pending, every joined row has its text. *)
Lemma caught_up_lookup (t : tables) (r : joined_row) :
  consistent parseBuffer src t -> pending src t = [] ->
  r ∈ join_messages src ->
  e_text <$> (message_text t !! message_id r) = resolved parseBuffer r.
Proof.
  intros Hc Hp Hr. rewrite (Hc (message_id r)).
  destruct (decide (message_id r <= cursor_of t)) as [_|Hgt].
  - by apply expected_text_row.
  - exfalso. unfold pending in Hp.
    apply (filter_nil_not_elem_of _ _ r Hp); [lia|exact Hr].
Qed.

Lemma buildIndex_catches_up (d : index_db) :
  txn d = None -> consistent parseBuffer src (current d) ->
  exists total d',
    buildIndex parseBuffer src (world_of d None)
    = (Normal (Some total), world_of d' None)
    /\ txn d' = None
    /\ consistent parseBuffer src (current d')
    /\ pending src (current d') = [].
Proof.
  intros Ht Hc. destruct d as [t tx]. simpl in Ht, Hc. subst tx.
  destruct (index_loop_catches_up parseBuffer src rowid_unique 5000
              (S (length (join_messages src))) t 0)
    as (total & t' & Hrun & Hc' & Hp'); [lia|exact Hc| |].
  { unfold pending. pose proof (length_filter
      (fun r => cursor_of t < message_id r) (join_messages src)). lia. }
  exists total, {| current := t'; txn := None |}.
  split; [|by repeat split].
  unfold buildIndex.
  rewrite (bind_run _ _ _ _ _ (initializeSchema_nofault _)). exact Hrun.
Qed.

(** X5 -- A build that a failing database call interrupts leaves a sound
    store: no transaction is open and the index holds, up to its cursor,
    exactly the texts expected.  The next build, run without failure,
    then completes it: every message of a conversation has its text. *)
Theorem interrupted_build_recovers (d : index_db) (f : option nat) :
  txn d = None -> consistent parseBuffer src (current d) ->
  let d1 := idb (buildIndex parseBuffer src (world_of d f)).2 in
  txn d1 = None
  /\ consistent parseBuffer src (current d1)
  /\ exists total d2,
       buildIndex parseBuffer src (world_of d1 None)
       = (Normal (Some total), world_of d2 None)
       /\ txn d2 = None
       /\ (forall r, r ∈ join_messages src ->
             message_id r <= cursor d2
             /\ e_text <$> (message_text (current d2) !! message_id r)
                = resolved parseBuffer r).
Proof.
  intros Ht Hc d1.
  destruct (buildIndex_keeps d f Ht Hc) as [Ht1 Hc1]. fold d1 in Ht1, Hc1.
  split; [exact Ht1|]. split; [exact Hc1|].
  destruct (buildIndex_catches_up d1 Ht1 Hc1) as (total & d2 & Hrun & Ht2 & Hc2 & Hp2).
  exists total, d2. split; [exact Hrun|]. split; [exact Ht2|].
  intros r Hr. split; [|by apply caught_up_lookup].
  destruct (Z.le_gt_cases (message_id r) (cursor d2)) as [Hle|Hgt]; [exact Hle|].
  exfalso. unfold pending in Hp2. unfold cursor in Hgt.
  apply (filter_nil_not_elem_of _ _ r Hp2); [lia|exact Hr].
Qed.

End Recovery.

Lemma spec_example_rowids : NoDup (ROWID <$> message spec_example).
Proof. apply (bool_decide_unpack _). vm_compute. exact I. Qed.

(** The ninth database call of the build, the insertion of the second
    entry, is the one that fails. *)
Lemma interrupted_build_recovers_witness :
  txn fresh = None
  /\ consistent magic_only_parser spec_example (current fresh)
  /\ (let d1 := idb (buildIndex magic_only_parser spec_example
                       (world_of fresh (Some 8%nat))).2 in
      txn d1 = None
      /\ consistent magic_only_parser spec_example (current d1)
      /\ exists total d2,
           buildIndex magic_only_parser spec_example (world_of d1 None)
           = (Normal (Some total), world_of d2 None)
           /\ txn d2 = None
           /\ (forall r, r ∈ join_messages spec_example ->
                 message_id r <= cursor d2
                 /\ e_text <$> (message_text (current d2) !! message_id r)
                    = resolved magic_only_parser r)).
Proof.
  assert (consistent magic_only_parser spec_example (current fresh)) as Hc.
  { apply fresh_consistent. repeat constructor. }
  split; [reflexivity|]. split; [exact Hc|].
  exact (interrupted_build_recovers magic_only_parser spec_example
           spec_example_rowids fresh (Some 8%nat) eq_refl Hc).
Defined.

Example ninth_call_fails :
  buildIndex magic_only_parser spec_example (world_of fresh (Some 8%nat))
  = (Throw SqliteError, world_of fresh None).
Proof. vm_compute. reflexivity. Qed.

Section Growth.

Variable parseBuffer : buffer -> completion (list Text.plist).
Variables src src' : source_db.

Lemma filter_below (c id : Z) (s : source_db) :
  id <= c ->
  filter (fun r => message_id r = id) (join_messages s)
  = filter (fun r => message_id r = id)
      (filter (fun r => message_id r <= c) (join_messages s)).
Proof.
  intros Hid. induction (join_messages s) as [|r l IH]; [done|].
  rewrite !filter_cons.
  destruct (decide (message_id r = id)) as [Heq|Hne].
  - rewrite decide_True by lia. rewrite filter_cons, decide_True by done.
    by f_equal.
  - destruct (decide (message_id r <= c));
      [rewrite filter_cons, decide_False by done|]; exact IH.
Qed.

(** The invariant of the cursor does not see what changes above the cursor. *)
Lemma consistent_unchanged_up_to (t : tables) :
  unchanged_up_to (cursor_of t) src src' ->
  consistent parseBuffer src t -> consistent parseBuffer src' t.
Proof.
  intros Hu Hc id. rewrite (Hc id).
  destruct (decide (id <= cursor_of t)) as [Hle|_]; [|reflexivity].
  unfold expected_text.
  rewrite (filter_below (cursor_of t) id src), (filter_below (cursor_of t) id src')
    by exact Hle.
  unfold unchanged_up_to in Hu. by rewrite Hu.
Qed.

Hypothesis rowid_unique : NoDup (ROWID <$> message src').

(** X6 -- Incremental update.  Let the index be sound for the message store
    as it was, and let the store have changed since only above the cursor
    (messages arrived).  Then a build on the store as it is now ends, and
    the index holds the text of every message of a conversation of the
    store as it is now. *)
Theorem build_after_growth (d : index_db) :
  txn d = None ->
  consistent parseBuffer src (current d) ->
  unchanged_up_to (cursor d) src src' ->
  exists total d',
    buildIndex parseBuffer src' (world_of d None)
    = (Normal (Some total), world_of d' None)
    /\ txn d' = None
    /\ consistent parseBuffer src' (current d')
    /\ (forall r, r ∈ join_messages src' ->
          message_id r <= cursor d'
          /\ e_text <$> (message_text (current d') !! message_id r)
             = resolved parseBuffer r).
Proof.
  intros Ht Hc Hu.
  apply consistent_unchanged_up_to in Hc; [|exact Hu].
  destruct (buildIndex_catches_up parseBuffer src' rowid_unique d Ht Hc)
    as (total & d' & Hrun & Ht' & Hc' & Hp').
  exists total, d'. split; [exact Hrun|]. split; [exact Ht'|]. split; [exact Hc'|].
  intros r Hr. split; [|by apply (caught_up_lookup parseBuffer src' rowid_unique)].
  destruct (Z.le_gt_cases (message_id r) (cursor d')) as [Hle|Hgt]; [exact Hle|].
  exfalso. unfold pending in Hp'. unfold cursor in Hgt.
  apply (filter_nil_not_elem_of _ _ r Hp'); [lia|exact Hr].
Qed.

End Growth.

Lemma spec_example_grown_rowids : NoDup (ROWID <$> message spec_example_grown).
Proof. apply (bool_decide_unpack _). vm_compute. exact I. Qed.

(** The index built for the three messages of the example, then message 4
    arrives. *)
Lemma build_after_growth_witness :
  let d := idb (buildIndex magic_only_parser spec_example (world_of fresh None)).2 in
  txn d = None
  /\ consistent magic_only_parser spec_example (current d)
  /\ unchanged_up_to (cursor d) spec_example spec_example_grown
  /\ exists total d',
       buildIndex magic_only_parser spec_example_grown (world_of d None)
       = (Normal (Some total), world_of d' None)
       /\ txn d' = None
       /\ consistent magic_only_parser spec_example_grown (current d')
       /\ (forall r, r ∈ join_messages spec_example_grown ->
             message_id r <= cursor d'
             /\ e_text <$> (message_text (current d') !! message_id r)
                = resolved magic_only_parser r).
Proof.
  intros d.
  assert (consistent magic_only_parser spec_example (current fresh)) as Hfresh.
  { apply fresh_consistent. repeat constructor. }
  destruct (buildIndex_keeps magic_only_parser spec_example spec_example_rowids
              fresh None eq_refl Hfresh) as [Ht Hc].
  fold d in Ht, Hc.
  assert (unchanged_up_to (cursor d) spec_example spec_example_grown) as Hu.
  { vm_compute. reflexivity. }
  split; [exact Ht|]. split; [exact Hc|]. split; [exact Hu|].
  exact (build_after_growth magic_only_parser spec_example spec_example_grown
           spec_example_grown_rowids d Ht Hc Hu).
Defined.

Example message_4_is_indexed :
  let d := idb (buildIndex magic_only_parser spec_example (world_of fresh None)).2 in
  let d' := idb (buildIndex magic_only_parser spec_example_grown (world_of d None)).2 in
  cursor d = 3 /\ cursor d' = 4
  /\ e_text <$> (message_text (current d') !! 4) = Some (lit "see you").
Proof. vm_compute. repeat split; reflexivity. Qed.

(** ** What a call does to the entries *)

Section Entries.

Variable parseBuffer : buffer -> completion (list Text.plist).

#[local] Existing Instance id_le_total.
#[local] Existing Instance id_le_trans.

(** The tables after a call: those of before, or those after the batch. *)
Lemma indexNewMessages_current (src : source_db) (batchSize : Z) (d : index_db)
    (f : option nat) :
  let out := indexNewMessages parseBuffer src batchSize (world_of d f) in
  (current (idb out.2) = current d /\ (forall n, out.1 = Normal n -> n = 0))
  \/ (out.1 = Normal (Z.of_nat (length (batch_of src batchSize (current d))))
      /\ current (idb out.2) = after_batch parseBuffer src batchSize (current d)).
Proof.
  intros out. unfold out.
  destruct (indexNewMessages parseBuffer src batchSize (world_of d f))
    as [[n|e] w'] eqn:E; simpl.
  - right. apply indexNewMessages_progress in E as [-> ->]. by split.
  - left. split; [|discriminate].
    destruct (txn d) as [saved|] eqn:Ht.
    + by rewrite (indexNewMessages_txn_open _ _ _ _ _ _ _ _ Ht E).
    + by rewrite (indexNewMessages_throw _ _ _ _ _ _ _ Ht E).
Qed.

Lemma upsert_keeps (t : tables) (r : joined_row) (id : Z) :
  is_Some (message_text t !! id) ->
  is_Some (message_text (upsert parseBuffer t r) !! id).
Proof.
  unfold upsert. destruct (resolved parseBuffer r); [|done]. simpl.
  intros H. apply lookup_insert_is_Some'. by right.
Qed.

Lemma upsert_size (t : tables) (r : joined_row) :
  (size (message_text t) <= size (message_text (upsert parseBuffer t r))
   <= S (size (message_text t)))%nat.
Proof.
  unfold upsert. destruct (resolved parseBuffer r); simpl; [|lia].
  rewrite map_size_insert. destruct (message_text t !! message_id r); simpl; lia.
Qed.

Lemma foldl_upsert_keeps (rows : list joined_row) (t : tables) (id : Z) :
  is_Some (message_text t !! id) ->
  is_Some (message_text (foldl (upsert parseBuffer) t rows) !! id).
Proof.
  revert t. induction rows as [|r rows IH]; intros t H; [exact H|].
  simpl. apply IH. by apply upsert_keeps.
Qed.

Lemma foldl_upsert_size (rows : list joined_row) (t : tables) :
  (size (message_text t) <= size (message_text (foldl (upsert parseBuffer) t rows))
   <= size (message_text t) + length rows)%nat.
Proof.
  revert t. induction rows as [|r rows IH]; intros t; simpl; [lia|].
  pose proof (upsert_size t r). pose proof (IH (upsert parseBuffer t r)). lia.
Qed.

Lemma getIndexStats_nofault (d : index_db) :
  getIndexStats (world_of d None)
  = (Normal (Z.of_nat (size (message_text (current d))), cursor d), world_of d None).
Proof.
  unfold getIndexStats, getLastIndexedId.
  rewrite (bind_run _ _ _ _ _
             (indexDbRead_nofault (fun t => Z.of_nat (size (message_text t))) d)).
  rewrite (bind_run _ _ _ _ _ (indexDbRead_nofault cursor_of d)).
  reflexivity.
Qed.

(** X7 -- The index only grows.  Across a call of [indexNewMessages],
    failing or not, no entry disappears, and the two numbers of
    [getIndexStats] do not decrease: the count of entries grows by at most
    the number the call returns (which also counts the messages without
    text), and a call that throws leaves both numbers as they were. *)
Theorem index_only_grows (src : source_db) (batchSize : Z) (d : index_db)
    (f : option nat) :
  let out := indexNewMessages parseBuffer src batchSize (world_of d f) in
  let d' := idb out.2 in
  (forall id, is_Some (message_text (current d) !! id) ->
              is_Some (message_text (current d') !! id))
  /\ exists indexedMessages lastIndexedId indexedMessages' lastIndexedId',
       getIndexStats (world_of d None)
       = (Normal (indexedMessages, lastIndexedId), world_of d None)
       /\ getIndexStats (world_of d' None)
          = (Normal (indexedMessages', lastIndexedId'), world_of d' None)
       /\ indexedMessages <= indexedMessages'
       /\ lastIndexedId <= lastIndexedId'
       /\ (forall n, out.1 = Normal n -> indexedMessages' <= indexedMessages + n)
       /\ (forall e, out.1 = Throw e ->
             indexedMessages' = indexedMessages /\ lastIndexedId' = lastIndexedId).
Proof.
  intros out d'.
  pose proof (indexNewMessages_current src batchSize d f) as Hcur.
  pose proof (indexNewMessages_cursor parseBuffer src batchSize d f) as Hmono.
  fold out in Hcur, Hmono. cbv zeta in Hcur. subst d'.
  split.
  - intros id Hid. destruct Hcur as [[-> _]|[_ ->]]; [exact Hid|].
    unfold after_batch. rewrite message_text_apply_batch.
    by apply foldl_upsert_keeps.
  - eexists _, _, _, _.
    split; [apply getIndexStats_nofault|]. split; [apply getIndexStats_nofault|].
    destruct Hcur as [[Hsame Hzero]|[Hn Hafter]].
    + unfold cursor in *. rewrite Hsame. repeat split; try lia.
      intros n Hn. rewrite (Hzero n Hn). lia.
    + pose proof (foldl_upsert_size (batch_of src batchSize (current d)) (current d)).
      rewrite Hafter. unfold after_batch at 1 2. rewrite message_text_apply_batch.
      split; [lia|]. split; [exact Hmono|]. split.
      * intros n Hn'. rewrite Hn in Hn'. injection Hn' as <-. lia.
      * intros e He. rewrite Hn in He. discriminate.
Qed.

Lemma text_to_store_trimmed (text : option jsstring) (x : jsstring) :
  text_to_store text = Some x -> x <> [] /\ trim x = x.
Proof.
  unfold text_to_store. destruct text as [s|]; [|discriminate].
  destruct (truthy_str (Some s) && truthy_str (Some (trim s))) eqn:E; [|discriminate].
  intros [= <-]. apply andb_true_iff in E as [_ E].
  split; [by apply truthy_nonempty|apply trim_trim].
Qed.

Lemma resolved_trimmed (r : joined_row) (x : jsstring) :
  resolved parseBuffer r = Some x -> x <> [] /\ trim x = x.
Proof.
  unfold resolved, stored_text.
  destruct (resolve_text parseBuffer r) as [text|e]; simpl; [|discriminate].
  apply text_to_store_trimmed.
Qed.

Lemma upsert_trimmed (t : tables) (r : joined_row) :
  texts_trimmed t -> texts_trimmed (upsert parseBuffer t r).
Proof.
  intros Ht id e. unfold upsert.
  destruct (resolved parseBuffer r) as [x|] eqn:E; [|apply Ht]. simpl.
  destruct (decide (message_id r = id)) as [->|Hne].
  - rewrite lookup_insert_eq. intros [= <-]. simpl. by apply resolved_trimmed in E.
  - rewrite lookup_insert_ne by done. apply Ht.
Qed.

Lemma after_batch_trimmed (src : source_db) (batchSize : Z) (t : tables) :
  texts_trimmed t -> texts_trimmed (after_batch parseBuffer src batchSize t).
Proof.
  intros Ht id e. unfold after_batch. rewrite message_text_apply_batch.
  generalize (batch_of src batchSize t). intros rows. revert t Ht id e.
  induction rows as [|r rows IH]; intros t Ht id e; [apply Ht|].
  simpl. apply IH. by apply upsert_trimmed.
Qed.

Lemma run_calls_trimmed (calls : list (source_db * Z * option nat)) (d : index_db) :
  texts_trimmed (current d) ->
  texts_trimmed (current (run_calls parseBuffer calls d)).
Proof.
  revert d. induction calls as [|[[src batchSize] f] calls IH]; intros d Hd;
    [exact Hd|].
  simpl. apply IH. change {| idb := d; fault := f |} with (world_of d f).
  destruct (indexNewMessages_current src batchSize d f) as [[-> _]|[_ ->]];
    [exact Hd|by apply after_batch_trimmed].
Qed.

(** X8 -- Whatever calls of [indexNewMessages] have filled the index from
    the empty one, with whatever message stores, batch sizes and failures,
    every stored text is non-empty and has no whitespace at either end;
    so has the text of every row a search finds. *)
Theorem stored_texts_trimmed (calls : list (source_db * Z * option nat)) :
  let t := current (run_calls parseBuffer calls fresh) in
  (forall id e, message_text t !! id = Some e ->
     e_text e <> [] /\ trim (e_text e) = e_text e)
  /\ (forall query limit_ r, r ∈ search_rows query limit_ t ->
        r_text r <> [] /\ trim (r_text r) = r_text r).
Proof.
  intros t.
  assert (texts_trimmed t) as Ht.
  { apply run_calls_trimmed. intros id e H. simpl in H.
    rewrite lookup_empty in H. discriminate. }
  split; [exact Ht|].
  intros query limit_ r Hr. unfold search_rows, limit in Hr.
  assert (r ∈ rows_of t) as Hrow.
  { destruct (limit_ <? 0).
    - rewrite order_by_perm in Hr. by apply list_elem_of_filter in Hr as [_ Hr].
    - apply (subseteq_take (Z.to_nat limit_)) in Hr.
      rewrite order_by_perm in Hr. by apply list_elem_of_filter in Hr as [_ Hr]. }
  unfold rows_of in Hrow. apply list_elem_of_fmap in Hrow as ([id e] & -> & Hin).
  apply elem_of_map_to_list in Hin. simpl. exact (Ht id e Hin).
Qed.

End Entries.

(** ** The periodic update *)

Section Ticks.

Variable parseBuffer : buffer -> completion (list Text.plist).

Lemma filter_filter_impl {A} (P Q : A -> Prop) `{forall x, Decision (P x)}
    `{forall x, Decision (Q x)} (l : list A) :
  (forall x, P x -> Q x) -> filter P (filter Q l) = filter P l.
Proof.
  intros HPQ. induction l as [|x l IH]; [done|].
  rewrite !filter_cons. destruct (decide (Q x)) as [HQ|HQ].
  - rewrite filter_cons. destruct (decide (P x)); by rewrite IH.
  - rewrite decide_False by (intros HP; apply HQ, HPQ, HP). exact IH.
Qed.

Lemma filter_all {A} (P : A -> Prop) `{forall x, Decision (P x)} (l : list A) :
  (forall x, x ∈ l -> P x) -> filter P l = l.
Proof.
  induction l as [|x l IH]; intros Hall; [done|].
  rewrite filter_cons, decide_True by (apply Hall; left).
  f_equal. apply IH. intros y Hy. apply Hall. by right.
Qed.

Lemma batch_length (src : source_db) (batchSize : Z) (t : tables) :
  0 <= batchSize ->
  length (batch_of src batchSize t)
  = Nat.min (Z.to_nat batchSize) (length (pending src t)).
Proof.
  intros Hb. unfold batch_of, select_new_messages, limit, pending.
  rewrite (proj2 (Z.ltb_ge batchSize 0)) by lia.
  rewrite length_take. by rewrite order_by_perm.
Qed.

(** The rows of a committed batch are no longer pending. *)
Lemma pending_after_batch (src : source_db) (batchSize : Z) (t : tables) :
  (length (pending src (after_batch parseBuffer src batchSize t))
   + length (batch_of src batchSize t) <= length (pending src t))%nat.
Proof.
  destruct (batch_of src batchSize t) as [|r0 rows0] eqn:E.
  { unfold after_batch. rewrite E. simpl. lia. }
  rewrite <- E. clear E r0 rows0.
  unfold pending at 1. unfold after_batch. rewrite cursor_of_apply_batch.
  pose proof (max_id_ge (batch_of src batchSize t) (cursor_of t)) as HcM.
  assert (forall r, r ∈ batch_of src batchSize t ->
            ~ max_id (batch_of src batchSize t) (cursor_of t) < message_id r) as Hin.
  { intros r Hr. pose proof (max_id_elem _ (cursor_of t) r Hr). lia. }
  revert HcM Hin.
  generalize (max_id (batch_of src batchSize t) (cursor_of t)). intros M HcM Hin.
  rewrite <- (filter_filter_impl (fun r => M < message_id r)
                (fun r => cursor_of t < message_id r)) by (intros; lia).
  change (filter (fun r => cursor_of t < message_id r) (join_messages src))
    with (pending src t).
  revert Hin.
  change (batch_of src batchSize t)
    with (limit batchSize
            (order_by (fun a b => message_id a <=? message_id b) (pending src t))).
  pose proof (order_by_perm (fun a b => message_id a <=? message_id b) (pending src t))
    as Hperm.
  revert Hperm.
  generalize (order_by (fun a b => message_id a <=? message_id b) (pending src t)).
  intros S Hperm Hin.
  rewrite <- Hperm. unfold limit in *.
  destruct (batchSize <? 0).
  - rewrite (filter_none _ _ Hin). simpl. lia.
  - rewrite <- (take_drop (Z.to_nat batchSize) S) at 1.
    rewrite filter_app, (filter_none _ _ Hin). simpl.
    pose proof (length_filter (fun r => M < message_id r) (drop (Z.to_nat batchSize) S)).
    rewrite <- (take_drop (Z.to_nat batchSize) S) at 3.
    rewrite length_app. lia.
Qed.

Lemma not_stale_batch_nil (src : source_db) (batchSize : Z) (t : tables) :
  (cursor_of t <? default 0 (max_rowid src)) = false ->
  batch_of src batchSize t = [].
Proof.
  intros Hb. apply Z.ltb_ge in Hb. apply select_none.
  intros r (m & c & Hm & _ & ->)%elem_of_join. simpl.
  apply max_rowid_upper in Hm as (z & Hz & Hle). rewrite Hz in Hb. simpl in Hb. lia.
Qed.

Lemma update_tick_nofault (src : source_db) (d : index_db) :
  txn d = None ->
  Server.update_tick parseBuffer src (world_of d None)
  = (Normal tt,
     world_of {| current := after_batch parseBuffer src 1000 (current d);
                 txn := None |} None).
Proof.
  intros Ht. unfold Server.update_tick, try_catchM.
  rewrite (bind_run _ _ _ _ _ (needsUpdate_nofault src d)).
  destruct (cursor d <? default 0 (max_rowid src)) eqn:Hs.
  - rewrite (bind_run _ _ _ _ _ (indexNewMessages_nofault parseBuffer src 1000 d Ht)).
    reflexivity.
  - unfold after_batch. rewrite (not_stale_batch_nil src 1000 (current d) Hs).
    destruct d as [t tx]. simpl in *. subst tx. reflexivity.
Qed.

(** X9 -- The periodic update never throws: a failing database call is
    caught.  It leaves the index store as it was, or with exactly one more
    committed batch of at most 1000 messages. *)
Theorem update_tick_safe (src : source_db) (d : index_db) (f : option nat) :
  txn d = None ->
  exists w',
    Server.update_tick parseBuffer src (world_of d f) = (Normal tt, w')
    /\ (idb w' = d
        \/ idb w' = {| current := after_batch parseBuffer src 1000 (current d);
                       txn := None |})
    /\ (length (batch_of src 1000 (current d)) <= 1000)%nat.
Proof.
  intros Ht.
  assert (length (batch_of src 1000 (current d)) <= 1000)%nat as Hlen.
  { rewrite batch_length by lia. lia. }
  destruct (Server.update_tick parseBuffer src (world_of d f)) as [r w'] eqn:E.
  exists w'. unfold Server.update_tick in E.
  assert (forall r1 w1,
    (needsUpdate src ≫= fun stale : bool =>
       if stale then indexNewMessages parseBuffer src 1000 ≫= fun _ => ret tt
       else ret tt) (world_of d f) = (r1, w1) ->
    idb w1 = d
    \/ idb w1 = {| current := after_batch parseBuffer src 1000 (current d);
                   txn := None |}) as Hbody.
  { intros r1 w1 E1.
    apply bind_inv in E1 as [(e & E1 & ->)|(stale & w2 & E2 & E1)].
    { left. by apply needsUpdate_inv in E1 as [Hd _]. }
    apply needsUpdate_inv in E2 as [Hd2 _].
    rewrite (world_eta w2), Hd2 in E1. destruct stale.
    - apply bind_inv in E1 as [(e & E1 & ->)|(n & w3 & E3 & E1)].
      + left. by apply indexNewMessages_throw in E1.
      + right. injection E1 as _ <-.
        by apply indexNewMessages_normal in E3 as [_ ->].
    - left. by injection E1 as _ <-. }
  apply try_inv in E as [([] & E & ->)|(e & w1 & E & Eh)].
  - split; [reflexivity|]. split; [exact (Hbody _ _ E)|exact Hlen].
  - injection Eh as <- <-. split; [reflexivity|].
    split; [exact (Hbody _ _ E)|exact Hlen].
Qed.

Section CatchingUp.

Variable src : source_db.
Hypothesis rowid_unique : NoDup (ROWID <$> message src).

(** X10 -- The periodic update catches up.  While the message store stays
    as it is and no database call fails, [n] runs of the update index
    every pending row when at most [1000 * n] rows are pending: then every
    message of a conversation has its text in the index. *)
Theorem update_ticks_catch_up (n : nat) (d : index_db) :
  txn d = None ->
  consistent parseBuffer src (current d) ->
  (length (pending src (current d)) <= 1000 * n)%nat ->
  exists d',
    Server.update_ticks parseBuffer (replicate n src) (world_of d None)
    = (Normal tt, world_of d' None)
    /\ txn d' = None
    /\ consistent parseBuffer src (current d')
    /\ (forall r, r ∈ join_messages src ->
          message_id r <= cursor d'
          /\ e_text <$> (message_text (current d') !! message_id r)
             = resolved parseBuffer r).
Proof.
  revert d. induction n as [|n IH]; intros d Ht Hc Hlen.
  - exists d. split; [reflexivity|]. split; [exact Ht|]. split; [exact Hc|].
    assert (pending src (current d) = []) as Hp.
    { apply nil_length_inv. lia. }
    intros r Hr. split; [|by apply (caught_up_lookup parseBuffer src rowid_unique)].
    destruct (Z.le_gt_cases (message_id r) (cursor d)) as [Hle|Hgt]; [exact Hle|].
    exfalso. unfold pending in Hp. unfold cursor in Hgt.
    apply (filter_nil_not_elem_of _ _ r Hp); [lia|exact Hr].
  - cbn [replicate Server.update_ticks].
    rewrite (bind_run _ _ _ _ _ (update_tick_nofault src d Ht)).
    apply IH; [reflexivity|by apply (after_batch_consistent parseBuffer src rowid_unique)|].
    cbn [current].
    pose proof (pending_after_batch src 1000 (current d)).
    pose proof (batch_length src 1000 (current d)). lia.
Qed.

End CatchingUp.

Lemma indexNewMessages_cursor_bound (src : source_db) (batchSize : Z) (d : index_db)
    (f : option nat) (bound : Z) :
  cursor d <= bound ->
  (forall r, r ∈ join_messages src -> message_id r <= bound) ->
  cursor (idb (indexNewMessages parseBuffer src batchSize (world_of d f)).2) <= bound.
Proof.
  intros Hc Hb. unfold cursor in *.
  destruct (indexNewMessages_current parseBuffer src batchSize d f)
    as [[-> _]|[_ ->]]; [exact Hc|].
  unfold after_batch. rewrite cursor_of_apply_batch.
  apply max_id_le; [exact Hc|].
  intros r Hr. apply batch_in_join in Hr as [Hr _]. by apply Hb.
Qed.

(** X11 -- [needsUpdate] looks at every message, [indexNewMessages] only at
    the messages of a conversation.  When a message that belongs to no
    conversation has a ROWID above the cursor and above every message of a
    conversation, no sequence of calls of [indexNewMessages] moves the
    cursor up to it, and [needsUpdate] keeps answering true. *)
Theorem orphan_keeps_index_stale (src : source_db) (m : message_row)
    (calls : list (Z * option nat)) (d : index_db) :
  m ∈ message src ->
  (forall r, r ∈ join_messages src -> message_id r < ROWID m) ->
  cursor d < ROWID m ->
  let d' := run_calls parseBuffer ((fun c => (src, c.1, c.2)) <$> calls) d in
  cursor d' < ROWID m
  /\ needsUpdate src (world_of d' None) = (Normal true, world_of d' None).
Proof.
  intros Hm Hjoin Hc d'.
  assert (cursor d' <= ROWID m - 1) as Hd'.
  { unfold d'. clear d'. assert (cursor d <= ROWID m - 1) as Hc' by lia. clear Hc.
    revert d Hc'. induction calls as [|[batchSize f] calls IH]; intros d Hc;
      [exact Hc|].
    cbn [fmap list_fmap run_calls]. apply IH.
    change {| idb := d; fault := f |} with (world_of d f).
    apply indexNewMessages_cursor_bound; [exact Hc|].
    intros r Hr. specialize (Hjoin r Hr). lia. }
  split; [lia|].
  rewrite needsUpdate_nofault. do 2 f_equal.
  apply max_rowid_upper in Hm as (z & -> & Hz). simpl. apply Z.ltb_lt. lia.
Qed.

End Ticks.

Lemma update_tick_safe_witness :
  txn fresh = None
  /\ exists w',
       Server.update_tick magic_only_parser spec_example (world_of fresh (Some 4%nat))
       = (Normal tt, w')
       /\ (idb w' = fresh
           \/ idb w' = {| current := after_batch magic_only_parser spec_example 1000
                                       (current fresh);
                          txn := None |})
       /\ (length (batch_of spec_example 1000 (current fresh)) <= 1000)%nat.
Proof.
  split; [reflexivity|].
  apply (update_tick_safe magic_only_parser spec_example fresh (Some 4%nat)).
  reflexivity.
Defined.

Lemma update_ticks_catch_up_witness :
  txn fresh = None
  /\ consistent magic_only_parser spec_example (current fresh)
  /\ (length (pending spec_example (current fresh)) <= 1000 * 1)%nat
  /\ exists d',
       Server.update_ticks magic_only_parser (replicate 1 spec_example)
         (world_of fresh None)
       = (Normal tt, world_of d' None)
       /\ txn d' = None
       /\ consistent magic_only_parser spec_example (current d')
       /\ (forall r, r ∈ join_messages spec_example ->
             message_id r <= cursor d'
             /\ e_text <$> (message_text (current d') !! message_id r)
                = resolved magic_only_parser r).
Proof.
  assert (consistent magic_only_parser spec_example (current fresh)) as Hc.
  { apply fresh_consistent. repeat constructor. }
  assert (length (pending spec_example (current fresh)) <= 1000 * 1)%nat as Hlen.
  { vm_compute. lia. }
  split; [reflexivity|]. split; [exact Hc|]. split; [exact Hlen|].
  exact (update_ticks_catch_up magic_only_parser spec_example spec_example_rowids
           1 fresh eq_refl Hc Hlen).
Defined.

Lemma orphan_keeps_index_stale_witness :
  msg 2 (Some (lit "lost")) None ∈ message trailing_orphan
  /\ (forall r, r ∈ join_messages trailing_orphan ->
        message_id r < ROWID (msg 2 (Some (lit "lost")) None))
  /\ cursor fresh < ROWID (msg 2 (Some (lit "lost")) None)
  /\ (let d' := run_calls magic_only_parser
                  ((fun c => (trailing_orphan, c.1, c.2)) <$> [(1000, None); (1000, None)])
                  fresh in
      cursor d' < ROWID (msg 2 (Some (lit "lost")) None)
      /\ needsUpdate trailing_orphan (world_of d' None)
         = (Normal true, world_of d' None)).
Proof.
  assert (msg 2 (Some (lit "lost")) None ∈ message trailing_orphan) as Hm.
  { right. left. }
  assert (forall r, r ∈ join_messages trailing_orphan ->
            message_id r < ROWID (msg 2 (Some (lit "lost")) None)) as Hjoin.
  { intros r Hr. vm_compute in Hr. apply list_elem_of_singleton in Hr as ->.
    vm_compute. reflexivity. }
  assert (cursor fresh < ROWID (msg 2 (Some (lit "lost")) None)) as Hc.
  { vm_compute. reflexivity. }
  split; [exact Hm|]. split; [exact Hjoin|]. split; [exact Hc|].
  exact (orphan_keeps_index_stale magic_only_parser trailing_orphan _
           [(1000, None); (1000, None)] fresh Hm Hjoin Hc).
Defined.

(** ** The number a build reports *)

Section Counting.

Variable parseBuffer : buffer -> completion (list Text.plist).
Variable src : source_db.
Hypothesis one_conversation : NoDup (message_id <$> join_messages src).

#[local] Existing Instance id_le_total.
#[local] Existing Instance id_le_trans.

(** With one joined row per message, a committed batch takes exactly its
    rows off the pending ones. *)
Lemma pending_after_batch_eq (batchSize : Z) (t : tables) :
  (length (pending src (after_batch parseBuffer src batchSize t))
   + length (batch_of src batchSize t) = length (pending src t))%nat.
Proof.
  destruct (batch_of src batchSize t) as [|r0 rows0] eqn:E.
  { unfold after_batch. rewrite E. simpl. lia. }
  rewrite <- E. clear E r0 rows0.
  unfold pending at 1. unfold after_batch. rewrite cursor_of_apply_batch.
  rewrite <- (filter_filter_impl
                (fun r => max_id (batch_of src batchSize t) (cursor_of t) < message_id r)
                (fun r => cursor_of t < message_id r)).
  2:{ intros r Hr. pose proof (max_id_ge (batch_of src batchSize t) (cursor_of t)). lia. }
  change (filter (fun r => cursor_of t < message_id r) (join_messages src))
    with (pending src t).
  assert (NoDup (message_id <$> pending src t)) as Hnd.
  { unfold pending. eapply sublist_NoDup; [exact one_conversation|].
    apply fmap_sublist, sublist_filter. }
  assert (forall r, r ∈ pending src t -> cursor_of t < message_id r) as Habove.
  { intros r Hr. unfold pending in Hr. by apply list_elem_of_filter in Hr as [Hr _]. }
  revert Hnd Habove.
  change (batch_of src batchSize t)
    with (limit batchSize
            (order_by (fun a b => message_id a <=? message_id b) (pending src t))).
  pose proof (order_by_perm (fun a b => message_id a <=? message_id b) (pending src t))
    as Hperm.
  assert (StronglySorted (fun a b => Is_true (message_id a <=? message_id b))
            (order_by (fun a b => message_id a <=? message_id b) (pending src t)))
    as Hsorted.
  { apply StronglySorted_merge_sort; apply _. }
  revert Hperm Hsorted.
  generalize (order_by (fun a b => message_id a <=? message_id b) (pending src t)).
  intros S Hperm Hsorted Hnd Habove.
  assert (forall r, r ∈ S -> cursor_of t < message_id r) as Habove'.
  { intros r Hr. apply Habove. by rewrite <- Hperm. }
  revert Hnd. rewrite <- Hperm. clear Hperm Habove.
  revert Habove'. generalize (cursor_of t). intros c Habove Hnd.
  unfold limit. destruct (batchSize <? 0).
  - rewrite filter_none; [simpl; lia|].
    intros r Hr. pose proof (max_id_elem S c r Hr). lia.
  - set (k := Z.to_nat batchSize).
    rewrite <- (take_drop k S) in Hnd, Hsorted.
    assert (length S = length (take k S) + length (drop k S))%nat as ->
      by (by rewrite <- length_app, take_drop).
    assert (forall P : joined_row -> Prop, forall Hdec : (forall x, Decision (P x)),
              filter P S = filter P (take k S) ++ filter P (drop k S)) as ->
      by (intros; by rewrite <- filter_app, take_drop).
    rewrite length_app.
    rewrite (filter_none _ (take k S)).
    2:{ intros r Hr. pose proof (max_id_elem (take k S) c r Hr). lia. }
    assert (filter (fun r => max_id (take k S) c < message_id r) (drop k S)
            = drop k S) as ->; [|simpl; lia].
    apply filter_all. intros r Hr.
    rewrite fmap_app in Hnd. apply NoDup_app in Hnd as (_ & Hdisj & _).
    destruct (max_id_attained (take k S) c) as [->|(r' & Hr' & <-)].
    { apply Habove. rewrite <- (take_drop k S). apply elem_of_app. by right. }
    pose proof (StronglySorted_app_1_elem_of _ _ _ r' r Hsorted Hr' Hr) as Hrel.
    apply Is_true_true, Z.leb_le in Hrel.
    assert (message_id r' <> message_id r); [|lia].
    intros Heq. apply (Hdisj (message_id r')).
    + apply list_elem_of_fmap. exists r'. split; [reflexivity|exact Hr'].
    + rewrite Heq. apply list_elem_of_fmap. exists r. split; [reflexivity|exact Hr].
Qed.

Lemma index_loop_counts (batchSize : Z) (fuel : nat) (t : tables) (total0 : Z) :
  0 < batchSize ->
  (length (pending src t) < fuel)%nat ->
  exists t',
    index_loop parseBuffer fuel src batchSize total0
      (world_of {| current := t; txn := None |} None)
    = (Normal (Some (total0 + Z.of_nat (length (pending src t)))),
       world_of {| current := t'; txn := None |} None).
Proof.
  intros Hb. revert t total0.
  induction fuel as [|fuel IH]; intros t total0 Hfuel; [lia|].
  cbn [index_loop].
  rewrite (bind_run _ _ _ _ _
             (indexNewMessages_nofault parseBuffer src batchSize
                {| current := t; txn := None |} eq_refl)).
  cbn [current].
  pose proof (pending_after_batch_eq batchSize t) as Heq.
  pose proof (batch_length src batchSize t ltac:(lia)) as Hlen.
  destruct (Z.ltb_spec (Z.of_nat (length (batch_of src batchSize t))) batchSize)
    as [Hshort|Hfull].
  - exists (after_batch parseBuffer src batchSize t). unfold ret.
    do 3 f_equal. lia.
  - destruct (IH (after_batch parseBuffer src batchSize t)
                (total0 + Z.of_nat (length (batch_of src batchSize t))))
      as (t' & ->); [lia|].
    exists t'. do 3 f_equal. lia.
Qed.

(** X12 -- When no message is joined to more than one conversation, the
    number [buildIndex] returns is the number of joined rows above the
    cursor it started from: every one of them is visited once, the blank
    ones included. *)
Theorem buildIndex_counts_pending (d : index_db) :
  txn d = None ->
  exists d',
    buildIndex parseBuffer src (world_of d None)
    = (Normal (Some (Z.of_nat (length (pending src (current d))))), world_of d' None).
Proof.
  intros Ht. destruct d as [t tx]. simpl in Ht. subst tx.
  destruct (index_loop_counts 5000 (S (length (join_messages src))) t 0)
    as (t' & Hrun); [lia| |].
  { unfold pending. pose proof (length_filter
      (fun r => cursor_of t < message_id r) (join_messages src)). lia. }
  exists {| current := t'; txn := None |}.
  unfold buildIndex.
  rewrite (bind_run _ _ _ _ _ (initializeSchema_nofault _)). exact Hrun.
Qed.

End Counting.

Lemma buildIndex_counts_pending_witness :
  NoDup (message_id <$> join_messages spec_example)
  /\ txn fresh = None
  /\ exists d',
       buildIndex magic_only_parser spec_example (world_of fresh None)
       = (Normal (Some (Z.of_nat (length (pending spec_example (current fresh))))),
          world_of d' None).
Proof.
  assert (NoDup (message_id <$> join_messages spec_example)) as Hnd.
  { apply (bool_decide_unpack _). vm_compute. exact I. }
  split; [exact Hnd|]. split; [reflexivity|].
  exact (buildIndex_counts_pending magic_only_parser spec_example Hnd fresh eq_refl).
Defined.

(** ** The search handler under failing database calls *)

Section RouteProps.
Import SearchRoute Route.

Variable getDisplayName : jsstring -> jsstring.
Variable contactGroupMap : gmap jsstring contact_group.

Lemma reads_only_ret {A} (a : A) : reads_only (mret a).
Proof. by intros d f. Qed.

Lemma reads_only_bind {A B} (m : M A) (k : A -> M B) :
  reads_only m -> (forall a, reads_only (k a)) -> reads_only (m ≫= k).
Proof.
  intros Hm Hk d f. specialize (Hm d f).
  unfold mbind, M_bind, bind.
  destruct (m (world_of d f)) as [[a|e] w1]; simpl in *; [|exact Hm].
  rewrite (world_eta w1), Hm. apply Hk.
Qed.

Lemma reads_only_indexDbRead {A} (q : tables -> A) : reads_only (indexDbRead q).
Proof. intros d f. apply indexDbRead_idb. Qed.

Lemma reads_only_dbRead {A} (src : source_db) (q : source_db -> A) :
  reads_only (dbRead src q).
Proof. intros d f. apply dbRead_idb. Qed.

Lemma reads_only_try {A} (m : M A) (h : js_error -> M A) :
  reads_only m -> (forall e, reads_only (h e)) -> reads_only (try_catchM m h).
Proof.
  intros Hm Hh d f. specialize (Hm d f). unfold try_catchM.
  destruct (m (world_of d f)) as [[a|e] w1]; simpl in *; [exact Hm|].
  rewrite (world_eta w1), Hm. apply Hh.
Qed.

Lemma reads_only_allowed_chat_ids (src : source_db) (contactIds : list jsstring)
    (allowedChatIds : gset Z) :
  reads_only (allowed_chat_ids contactGroupMap src contactIds allowedChatIds).
Proof.
  revert allowedChatIds. induction contactIds as [|c rest IH]; intros acc;
    [apply reads_only_ret|].
  cbn [allowed_chat_ids]. destruct (contactGroupMap !! c); [|apply IH].
  apply reads_only_bind; [apply reads_only_dbRead|]. intros rows. apply IH.
Qed.

Lemma fault_indep_allowed_chat_ids (src : source_db) (contactIds : list jsstring)
    (allowedChatIds : gset Z) :
  fault_indep (allowed_chat_ids contactGroupMap src contactIds allowedChatIds).
Proof.
  revert allowedChatIds. induction contactIds as [|c rest IH]; intros acc;
    [apply fault_indep_ret|].
  cbn [allowed_chat_ids]. destruct (contactGroupMap !! c); [|apply IH].
  apply fault_indep_bind; [apply fault_indep_dbRead|]. intros rows. apply IH.
Qed.

Lemma reads_only_filter_matches (src : source_db) (contactIds : list jsstring)
    (indexMatches : list index_row) :
  reads_only (filter_matches contactGroupMap src contactIds indexMatches).
Proof.
  unfold filter_matches. destruct contactIds; [apply reads_only_ret|].
  apply reads_only_bind; [apply reads_only_allowed_chat_ids|].
  intros allowed. destruct (bool_decide _); apply reads_only_ret.
Qed.

Lemma fault_indep_filter_matches (src : source_db) (contactIds : list jsstring)
    (indexMatches : list index_row) :
  fault_indep (filter_matches contactGroupMap src contactIds indexMatches).
Proof.
  unfold filter_matches. destruct contactIds; [apply fault_indep_ret|].
  apply fault_indep_bind; [apply fault_indep_allowed_chat_ids|].
  intros allowed. destruct (bool_decide _); apply fault_indep_ret.
Qed.

Lemma reads_only_enrich_all (src : source_db) (rows : list index_row) :
  reads_only (enrich_all getDisplayName src rows).
Proof.
  induction rows as [|row rows IH]; [apply reads_only_ret|].
  cbn [enrich_all]. apply reads_only_bind.
  - unfold enrich. apply reads_only_bind; [apply reads_only_dbRead|].
    intros. apply reads_only_ret.
  - intros r. apply reads_only_bind; [exact IH|]. intros. apply reads_only_ret.
Qed.

Lemma fault_indep_enrich_all (src : source_db) (rows : list index_row) :
  fault_indep (enrich_all getDisplayName src rows).
Proof.
  induction rows as [|row rows IH]; [apply fault_indep_ret|].
  cbn [enrich_all]. apply fault_indep_bind.
  - unfold enrich. apply fault_indep_bind; [apply fault_indep_dbRead|].
    intros. apply fault_indep_ret.
  - intros r. apply fault_indep_bind; [exact IH|]. intros. apply fault_indep_ret.
Qed.

Lemma reads_only_search (src : source_db) (req : request) :
  reads_only (search getDisplayName contactGroupMap src req).
Proof.
  unfold search. destruct (negb _); [apply reads_only_ret|].
  apply reads_only_try; [|intros; apply reads_only_ret].
  apply reads_only_bind; [apply reads_only_indexDbRead|]. intros indexMatches.
  apply reads_only_bind; [apply reads_only_filter_matches|]. intros filteredMatches.
  apply reads_only_bind; [apply reads_only_enrich_all|]. intros results.
  apply reads_only_ret.
Qed.

(** An answer other than status 500 is the answer given when no call fails. *)
Lemma search_json_nofault (src : source_db) (req : request) (d : index_db)
    (f : option nat) (resp : response) (w' : world) :
  search getDisplayName contactGroupMap src req (world_of d f) = (Normal resp, w') ->
  resp = Status500
  \/ search getDisplayName contactGroupMap src req (world_of d None)
     = (Normal resp, world_of d None).
Proof.
  intros Hrun. pose proof (reads_only_search src req d f) as Hidb.
  rewrite Hrun in Hidb. cbn [snd] in Hidb.
  revert Hrun. unfold search.
  destruct (negb (truthy_str (Some (trim (query_of req))))).
  { intros [= <- _]. by right. }
  set (body := searchIndex (query_of req) MAX_SEARCH_SCAN_LIMIT ≫= _).
  assert (fault_indep body) as Hindep.
  { unfold body, searchIndex.
    apply fault_indep_bind; [apply fault_indep_read|]. intros indexMatches.
    apply fault_indep_bind; [apply fault_indep_filter_matches|]. intros filteredMatches.
    apply fault_indep_bind; [apply fault_indep_enrich_all|]. intros results.
    apply fault_indep_ret. }
  intros Hrun. apply try_inv in Hrun as [(a & E & [= <-])|(e & w1 & E & Eh)].
  - right. unfold try_catchM. rewrite (Hindep d f resp w' E), Hidb. reflexivity.
  - left. by injection Eh as <- _.
Qed.

(** *** The handler as Express calls it *)

Ltac munfold :=
  unfold indexDbRun, indexDbRead, dbRead, get_idb, put_idb, tick, world_of in *;
  unfold mbind, mret, M_bind, M_ret, bind, ret, throw, lift, try_catchM in *.

Lemma reads_only_lift {A} (c : completion A) : reads_only (lift c).
Proof. by intros d f. Qed.




Lemma searchIndex_checked_accepted (query : jsstring) (limit_ : Z) (d : index_db)
    (f : option nat) :
  Express.like_pattern_rejected query (current d) = false ->
  Express.searchIndex_checked query limit_ (world_of d f)
  = searchIndex query limit_ (world_of d f).
Proof.
  intros Hok. unfold Express.searchIndex_checked, searchIndex. munfold.
  destruct f as [[|n]|]; simpl; try reflexivity; by rewrite Hok.
Qed.





(** The answer to a pattern that SQLite accepts, when no call fails. *)
Lemma answer_nofault (src : source_db) (query : jsstring) (limit_ page : Z)
    (contactIds : list jsstring) (d : index_db) :
  Express.like_pattern_rejected query (current d) = false ->
  let kept := filtered contactGroupMap src contactIds
                (search_rows query MAX_SEARCH_SCAN_LIMIT (current d)) in
  Express.answer getDisplayName contactGroupMap src query limit_ page contactIds
    (world_of d None)
  = (Normal (Json (result_of getDisplayName src <$> page_slice page limit_ kept)
               page limit_ (Z.of_nat (length kept))),
     world_of d None).
Proof.
  intros Hok kept. unfold Express.answer, try_catchM.
  assert (Express.searchIndex_checked query MAX_SEARCH_SCAN_LIMIT (world_of d None)
          = (Normal (search_rows query MAX_SEARCH_SCAN_LIMIT (current d)),
             world_of d None)) as Hrows.
  { rewrite searchIndex_checked_accepted by exact Hok. reflexivity. }
  rewrite (bind_run _ _ _ _ _ Hrows).
  rewrite (bind_run _ _ _ _ _ (filter_matches_nofault contactGroupMap src _ _ d)).
  rewrite (bind_run _ _ _ _ _ (enrich_all_nofault getDisplayName src _ d)).
  reflexivity.
Qed.



Lemma handler_strings (src : source_db) (req : Express.express_request) (w : world) :
  is_string (Express.param_contacts req) = true ->
  is_string (Express.param_q req) = true ->
  Express.handler getDisplayName contactGroupMap src req w
  = if negb (truthy_str (Some (trim (text_of (Express.param_q req)))))
    then (Normal (Json [] (or_default (Express.param_page req) 1)
                    (or_default (Express.param_limit req) DEFAULT_SEARCH_PAGE_SIZE) 0),
          w)
    else Express.answer getDisplayName contactGroupMap src
           (text_of (Express.param_q req))
           (or_default (Express.param_limit req) DEFAULT_SEARCH_PAGE_SIZE)
           (or_default (Express.param_page req) 1)
           (if truthy_str (Some (text_of (Express.param_contacts req)))
            then split_comma (text_of (Express.param_contacts req)) else [])
           w.
Proof.
  unfold Express.handler.
  destruct (Express.param_contacts req) as [[[|c s]|items|entries]|],
           (Express.param_q req) as [[[|c' s']|items'|entries']|];
    cbn [is_string]; intros Hc Hq; try discriminate Hc; try discriminate Hq;
    cbn [Express.truthy_value Express.string_of text_of cbind truthy_str];
    unfold mbind, M_bind, bind, lift;
    match goal with
    | |- context [negb ?b] => destruct (negb b)
    end; reflexivity.
Qed.

(** On parameters written once, and a pattern that SQLite accepts, the
    handler is [search]. *)
Lemma handler_is_search (src : source_db) (req : request) (d : index_db)
    (f : option nat) :
  Express.like_pattern_rejected (query_of req) (current d) = false ->
  Express.handler getDisplayName contactGroupMap src (express_of req) (world_of d f)
  = search getDisplayName contactGroupMap src req (world_of d f).
Proof.
  intros Hok. rewrite handler_strings.
  2,3: unfold express_of; cbn; by destruct (contacts req), (q req).
  unfold search, query_of, limit_of, page_of, contact_ids_of in *.
  assert (text_of (Express.param_q (express_of req)) = default [] (q req)) as ->
    by (unfold express_of; cbn; by destruct (q req)).
  assert (text_of (Express.param_contacts (express_of req)) = default [] (contacts req))
    as -> by (unfold express_of; cbn; by destruct (contacts req)).
  match goal with
  | |- context [Express.answer _ _ _ _ _ _ ?ids] =>
      replace ids
        with (if truthy_str (contacts req)
              then split_comma (default [] (contacts req)) else [])
        by (by destruct (contacts req) as [[|]|])
  end.
  cbn [express_of Express.param_page Express.param_limit].
  destruct (negb (truthy_str (Some (trim (default [] (q req)))))); [reflexivity|].
  unfold Express.answer, try_catchM.
  unfold mbind at 1 5, M_bind, bind.
  by rewrite searchIndex_checked_accepted.
Qed.


Lemma StronglySorted_sublist {A} (R : A -> A -> Prop) (l1 l2 : list A) :
  l1 `sublist_of` l2 -> StronglySorted R l2 -> StronglySorted R l1.
Proof.
  induction 1 as [|x l1 l2 Hsub IH|x l1 l2 Hsub IH]; intros Hs.
  - constructor.
  - apply StronglySorted_inv in Hs as [Hs Hall]. constructor; [by apply IH|].
    rewrite Forall_forall in Hall |- *. intros y Hy. apply Hall.
    by eapply elem_of_sublist.
  - apply StronglySorted_inv in Hs as [Hs _]. by apply IH.
Qed.

Lemma js_slice_sublist {A} (l : list A) (start end_ : Z) :
  js_slice l start end_ `sublist_of` l.
Proof.
  unfold js_slice. etrans; [apply sublist_take|apply sublist_drop].
Qed.

Lemma js_slice_length {A} (l : list A) (start end_ : Z) :
  start <= end_ ->
  Z.of_nat (length (js_slice l start end_)) <= end_ - start.
Proof.
  intros Hle. unfold js_slice. rewrite length_take, length_drop.
  destruct (Z.ltb_spec end_ 0), (Z.ltb_spec start 0); lia.
Qed.

Lemma convertMacTime_mono (a b : option Z) :
  date_leb a b = true -> date_leb (convertMacTime a) (convertMacTime b) = true.
Proof.
  destruct a as [x|], b as [y|]; simpl; try done.
  intros H%Z.leb_le. apply Z.leb_le. unfold MAC_EPOCH_MS.
  pose proof (Z.div_le_mono x y 1000000). lia.
Qed.

(** X15 -- Every answer with results, whatever the request and whatever
    call fails: it echoes the page and the page size of the request, its
    results come newest first, they are at most the total and, for a page
    size that is not negative, at most the page size, and the total is at
    most the scan limit of 10000. *)
Theorem every_answer (src : source_db) (req : request) (d : index_db)
    (f : option nat) (results : list result) (page limit_ total : Z) (w' : world) :
  search getDisplayName contactGroupMap src req (world_of d f)
  = (Normal (Json results page limit_ total), w') ->
  page = page_of req /\ limit_ = limit_of req
  /\ newest_first results
  /\ (0 <= limit_ -> Z.of_nat (length results) <= limit_)
  /\ Z.of_nat (length results) <= total <= MAX_SEARCH_SCAN_LIMIT.
Proof.
  intros Hrun.
  destruct (search_json_nofault src req d f _ _ Hrun) as [Hs|Hnf]; [discriminate|].
  clear Hrun.
  destruct (truthy_str (Some (trim (query_of req)))) eqn:Hq.
  - rewrite (search_nofault getDisplayName contactGroupMap src req d Hq) in Hnf.
    injection Hnf as <- <- <- <-.
    set (kept := filtered contactGroupMap src (contact_ids_of req)
                   (search_rows (query_of req) MAX_SEARCH_SCAN_LIMIT (current d))).
    split; [reflexivity|]. split; [reflexivity|].
    assert (page_slice (page_of req) (limit_of req) kept `sublist_of` kept) as Hsub
      by apply js_slice_sublist.
    split; [|split].
    + apply (StronglySorted_fmap _
               (fun a b => date_leb (r_date b) (r_date a) = true)).
      * intros x y Hxy. simpl. by apply convertMacTime_mono.
      * eapply StronglySorted_sublist; [exact Hsub|]. apply filtered_sorted.
    + intros Hl. rewrite length_fmap. unfold page_slice.
      pose proof (js_slice_length kept ((page_of req - 1) * limit_of req)
                    ((page_of req - 1) * limit_of req + limit_of req)). lia.
    + rewrite length_fmap. apply sublist_length in Hsub.
      pose proof (filtered_length contactGroupMap src (contact_ids_of req)
                    (search_rows (query_of req) MAX_SEARCH_SCAN_LIMIT (current d))).
      pose proof (search_rows_total (query_of req) (current d)).
      fold kept in H. lia.
  - unfold search in Hnf. rewrite Hq in Hnf. injection Hnf as <- <- <- <-.
    split; [reflexivity|]. split; [reflexivity|]. split; [constructor|].
    unfold MAX_SEARCH_SCAN_LIMIT. simpl. lia.
Qed.

Lemma concat_pages {A} (limit_ : Z) (l : list A) (n : nat) :
  1 <= limit_ ->
  concat ((fun p => page_slice (Z.of_nat p) limit_ l) <$> seq 1 n)
  = take (n * Z.to_nat limit_) l.
Proof.
  intros Hl. induction n as [|n IH]; [by rewrite take_0|].
  rewrite seq_S, fmap_app, concat_app, IH. simpl. rewrite app_nil_r.
  rewrite page_slice_take_drop by lia.
  replace (Z.to_nat ((Z.of_nat (S n) - 1) * limit_)) with (n * Z.to_nat limit_)%nat
    by nia.
  rewrite take_take_drop. f_equal. lia.
Qed.

Lemma page_of_with_page (req : request) (p : nat) :
  (1 <= p)%nat -> page_of (with_page req (Z.of_nat p)) = Z.of_nat p.
Proof.
  intros Hp. unfold page_of, with_page, or_default. simpl.
  destruct (Z.eqb_spec (Z.of_nat p) 0); [lia|reflexivity].
Qed.

(** A page that is as long as the list is the list. *)
Lemma page_slice_all {A} (limit_ : Z) (l : list A) :
  Z.of_nat (length l) <= limit_ -> 1 <= limit_ -> page_slice 1 limit_ l = l.
Proof.
  intros Hlen Hl. rewrite page_slice_take_drop by lia.
  replace (Z.to_nat ((1 - 1) * limit_)) with 0%nat by lia.
  rewrite drop_0. apply take_ge. lia.
Qed.

(** X14 -- The pages of a search tile its matches.  Take a non-blank
    query, a page size of at least 1 and no failing call.  The matches are
    the rows that the scan of the index selects (the 10000 newest at most)
    and the contact filter keeps, each with its contact, newest first: they
    are what the handler returns when asked for one page of 10000.  The
    request for page [p] returns the matches from
    position (p - 1) times page size on, a page size of them at most, and
    reports their full number as the total; so the results of the pages 1,
    2, ..., [n] put end to end are the first [n] times page-size matches,
    each once and in order, and all the matches when [n] pages cover the
    total. *)
Theorem pages_tile (src : source_db) (req : request) (d : index_db) (n : nat) :
  truthy_str (Some (trim (query_of req))) = true ->
  1 <= limit_of req ->
  let matches :=
    result_of getDisplayName src
    <$> filtered contactGroupMap src (contact_ids_of req)
          (search_rows (query_of req) MAX_SEARCH_SCAN_LIMIT (current d)) in
  let answer r :=
    (search getDisplayName contactGroupMap src r (world_of d None)).1 in
  let pages :=
    (fun p => results_of (answer (with_page req (Z.of_nat p)))) <$> seq 1 n in
  answer (with_limit (with_page req 1) MAX_SEARCH_SCAN_LIMIT)
  = Normal (Json matches 1 MAX_SEARCH_SCAN_LIMIT (Z.of_nat (length matches)))
  /\ (forall p, (1 <= p)%nat ->
        answer (with_page req (Z.of_nat p))
        = Normal (Json (take (Z.to_nat (limit_of req))
                          (drop ((p - 1) * Z.to_nat (limit_of req)) matches))
                    (Z.of_nat p) (limit_of req) (Z.of_nat (length matches))))
  /\ concat pages = take (n * Z.to_nat (limit_of req)) matches
  /\ (Z.of_nat (length matches) <= Z.of_nat n * limit_of req ->
      concat pages = matches).
Proof.
  intros Hq Hl matches answer pages.
  set (kept := filtered contactGroupMap src (contact_ids_of req)
                 (search_rows (query_of req) MAX_SEARCH_SCAN_LIMIT (current d)))
    in matches.
  assert (forall p, (1 <= p)%nat ->
            answer (with_page req (Z.of_nat p))
            = Normal (Json (page_slice (Z.of_nat p) (limit_of req) matches)
                        (Z.of_nat p) (limit_of req) (Z.of_nat (length matches))))
    as Hpage.
  { intros p Hp. unfold answer.
    rewrite (search_nofault getDisplayName contactGroupMap src
               (with_page req (Z.of_nat p)) d Hq).
    rewrite (page_of_with_page req p Hp).
    change (limit_of (with_page req (Z.of_nat p))) with (limit_of req).
    change (contact_ids_of (with_page req (Z.of_nat p))) with (contact_ids_of req).
    change (query_of (with_page req (Z.of_nat p))) with (query_of req). fold kept.
    unfold matches. rewrite length_fmap. cbn [fst]. do 2 f_equal.
    unfold page_slice, js_slice. rewrite length_fmap.
    by rewrite fmap_take, fmap_drop. }
  assert (concat pages = take (n * Z.to_nat (limit_of req)) matches) as Hcat.
  { rewrite <- (concat_pages (limit_of req)) by exact Hl. f_equal. unfold pages.
    apply Forall_fmap_ext_1, Forall_forall. intros p Hp%elem_of_seq.
    rewrite Hpage by lia. reflexivity. }
  split; [|split; [|split; [exact Hcat|]]].
  - unfold answer.
    rewrite (search_nofault getDisplayName contactGroupMap src
               (with_limit (with_page req 1) MAX_SEARCH_SCAN_LIMIT) d Hq).
    change (contact_ids_of (with_limit (with_page req 1) MAX_SEARCH_SCAN_LIMIT))
      with (contact_ids_of req).
    change (query_of (with_limit (with_page req 1) MAX_SEARCH_SCAN_LIMIT))
      with (query_of req). fold kept.
    change (page_of (with_limit (with_page req 1) MAX_SEARCH_SCAN_LIMIT)) with 1.
    change (limit_of (with_limit (with_page req 1) MAX_SEARCH_SCAN_LIMIT))
      with MAX_SEARCH_SCAN_LIMIT.
    unfold matches. rewrite length_fmap. cbn [fst]. do 3 f_equal.
    apply page_slice_all; [|unfold MAX_SEARCH_SCAN_LIMIT; lia].
    pose proof (filtered_length contactGroupMap src (contact_ids_of req)
                  (search_rows (query_of req) MAX_SEARCH_SCAN_LIMIT (current d))).
    pose proof (search_rows_total (query_of req) (current d)).
    fold kept in H. lia.
  - intros p Hp. rewrite (Hpage p Hp). do 2 f_equal.
    rewrite page_slice_take_drop by lia. do 2 f_equal. nia.
  - intros Hcover. rewrite Hcat. apply take_ge. nia.
Qed.

(** X16 -- A negative page size is not rejected.  For a non-blank query,
    page 1 and a page size below 0, with no failing call, the answer holds
    the matches (the rows that the scan of the index selects, the 10000
    newest at most, and the contact filter keeps, each with its contact,
    newest first) but the last ones, as many as the page size is below 0,
    and the total is the number of all the matches. *)
Theorem negative_limit_drops_last (src : source_db) (req : request) (d : index_db) :
  truthy_str (Some (trim (query_of req))) = true ->
  limit_of req < 0 ->
  page_of req = 1 ->
  let matches :=
    result_of getDisplayName src
    <$> filtered contactGroupMap src (contact_ids_of req)
          (search_rows (query_of req) MAX_SEARCH_SCAN_LIMIT (current d)) in
  search getDisplayName contactGroupMap src req (world_of d None)
  = (Normal (Json (take (length matches - Z.to_nat (- limit_of req)) matches)
               1 (limit_of req) (Z.of_nat (length matches))),
     world_of d None).
Proof.
  intros Hq Hl Hp matches.
  set (kept := filtered contactGroupMap src (contact_ids_of req)
                 (search_rows (query_of req) MAX_SEARCH_SCAN_LIMIT (current d)))
    in matches.
  rewrite (search_nofault getDisplayName contactGroupMap src req d Hq).
  fold kept. unfold matches. rewrite Hp, length_fmap, <- fmap_take. do 4 f_equal.
  unfold page_slice, js_slice.
  destruct (Z.ltb_spec ((1 - 1) * limit_of req + limit_of req) 0); [|lia].
  destruct (Z.ltb_spec ((1 - 1) * limit_of req) 0); [lia|].
  replace (Z.to_nat (Z.min ((1 - 1) * limit_of req) (Z.of_nat (length kept))))
    with 0%nat by lia.
  rewrite drop_0. f_equal. lia.
Qed.

End RouteProps.

Lemma every_answer_witness :
  exists results,
    SearchRoute.search raw_identifier contacts_a chats_abc (request_of "hello" None)
      (world_of index_abc None)
    = (Normal (SearchRoute.Json results 1 20 3), world_of index_abc None)
    /\ 1 = SearchRoute.page_of (request_of "hello" None)
    /\ 20 = SearchRoute.limit_of (request_of "hello" None)
    /\ Route.newest_first results
    /\ (0 <= 20 -> Z.of_nat (length results) <= 20)
    /\ Z.of_nat (length results) <= 3 <= SearchRoute.MAX_SEARCH_SCAN_LIMIT.
Proof.
  eexists. split; [vm_compute; reflexivity|].
  eapply (every_answer raw_identifier contacts_a chats_abc (request_of "hello" None)
            index_abc None).
  vm_compute. reflexivity.
Defined.

Lemma pages_tile_witness :
  let answer r :=
    (SearchRoute.search raw_identifier contacts_a chats_abc r
       (world_of (index_of_hellos 45) None)).1 in
  truthy_str (Some (trim (SearchRoute.query_of (page_request "hello" 1)))) = true
  /\ 1 <= SearchRoute.limit_of (page_request "hello" 1)
  /\ concat ((fun p => Route.results_of
                         (answer (Route.with_page (page_request "hello" 1) (Z.of_nat p))))
               <$> seq 1 3)
     = Route.results_of
         (answer (Route.with_limit (Route.with_page (page_request "hello" 1) 1)
                    SearchRoute.MAX_SEARCH_SCAN_LIMIT))
  /\ length (Route.results_of
               (answer (Route.with_limit (Route.with_page (page_request "hello" 1) 1)
                          SearchRoute.MAX_SEARCH_SCAN_LIMIT))) = 45%nat.
Proof.
  intros answer.
  assert (truthy_str (Some (trim (SearchRoute.query_of (page_request "hello" 1))))
          = true) as Hq by (vm_compute; reflexivity).
  assert (1 <= SearchRoute.limit_of (page_request "hello" 1)) as Hl
    by (vm_compute; discriminate).
  split; [exact Hq|]. split; [exact Hl|].
  pose proof (pages_tile raw_identifier contacts_a chats_abc (page_request "hello" 1)
                (index_of_hellos 45) 3 Hq Hl) as H.
  cbv zeta in H. destruct H as (Hall & _ & _ & Hcover).
  unfold answer. rewrite Hall. cbn [Route.results_of]. split.
  - apply Hcover. vm_compute. discriminate.
  - vm_compute. reflexivity.
Defined.

Lemma negative_limit_drops_last_witness :
  let req := {| SearchRoute.q := Some (lit "hello");
                SearchRoute.limit_param := Some (-1);
                SearchRoute.page_param := None;
                SearchRoute.contacts := None |} in
  truthy_str (Some (trim (SearchRoute.query_of req))) = true
  /\ SearchRoute.limit_of req < 0
  /\ SearchRoute.page_of req = 1
  /\ exists first second third,
       result_of raw_identifier chats_abc
       <$> filtered contacts_a chats_abc (SearchRoute.contact_ids_of req)
             (search_rows (SearchRoute.query_of req) SearchRoute.MAX_SEARCH_SCAN_LIMIT
                (current index_abc))
       = [first; second; third]
       /\ SearchRoute.search raw_identifier contacts_a chats_abc req
            (world_of index_abc None)
          = (Normal (SearchRoute.Json [first; second] 1 (-1) 3),
             world_of index_abc None).
Proof.
  intros req.
  assert (truthy_str (Some (trim (SearchRoute.query_of req))) = true) as Hq
    by (vm_compute; reflexivity).
  assert (SearchRoute.limit_of req < 0) as Hl by (vm_compute; reflexivity).
  assert (SearchRoute.page_of req = 1) as Hp by (vm_compute; reflexivity).
  split; [exact Hq|]. split; [exact Hl|]. split; [exact Hp|].
  pose proof (negative_limit_drops_last raw_identifier contacts_a chats_abc req
                index_abc Hq Hl Hp) as H.
  cbv zeta in H. rewrite H. do 3 eexists. split; vm_compute; reflexivity.
Defined.

Example page_size_minus_1 :
  exists results,
    (SearchRoute.search raw_identifier contacts_a chats_abc
       {| SearchRoute.q := Some (lit "hello"); SearchRoute.limit_param := Some (-1);
          SearchRoute.page_param := None; SearchRoute.contacts := None |}
       (world_of index_abc None)).1
    = Normal (SearchRoute.Json results 1 (-1) 3)
    /\ SearchRoute.res_message_id <$> results = [1; 2].
Proof. eexists. split; vm_compute; reflexivity. Qed.

(** ** URLs in a text *)

Section UrlProps.
Import Urls UrlRef.

Example should_extract_single_URL :
  extractUrls (Some (lit "Check out https://example.com"))
  = [lit "https://example.com"].
Proof. vm_compute. reflexivity. Qed.

Example should_extract_multiple_URLs :
  extractUrls (Some (lit "Visit https://example.com and http://test.org"))
  = [lit "https://example.com"; lit "http://test.org"].
Proof. vm_compute. reflexivity. Qed.

Example should_deduplicate_URLs :
  extractUrls (Some (lit "https://example.com and https://example.com again"))
  = [lit "https://example.com"].
Proof. vm_compute. reflexivity. Qed.

Example should_handle_URLs_with_paths_and_query_params :
  extractUrls (Some (lit "Link: https://example.com/path?param=value&other=123"))
  = [lit "https://example.com/path?param=value&other=123"].
Proof. vm_compute. reflexivity. Qed.

Example should_return_empty_array_for_null : extractUrls None = [].
Proof. reflexivity. Qed.

Example should_return_empty_array_for_empty_string : extractUrls (Some []) = [].
Proof. reflexivity. Qed.

Example should_return_empty_array_for_text_without_URLs :
  extractUrls (Some (lit "No links here!")) = [].
Proof. vm_compute. reflexivity. Qed.

Example trailing_punctuation_is_removed :
  extractUrls (Some (lit "(see HTTPS://Example.com/a.b)."))
  = [lit "HTTPS://Example.com/a.b"].
Proof. vm_compute. reflexivity. Qed.

Lemma take_while_split {A} (p : A -> bool) (l : list A) :
  exists rest, l = take_while p l ++ rest.
Proof.
  induction l as [|x l [rest IH]]; simpl; [by exists []|].
  destruct (p x); [|by eexists].
  exists rest. simpl. by rewrite <- IH.
Qed.

Lemma take_while_all {A} (p : A -> bool) (l : list A) :
  Forall (fun x => p x = true) (take_while p l).
Proof.
  induction l as [|x l IH]; simpl; [constructor|].
  destruct (p x) eqn:Hp; constructor; assumption.
Qed.

Lemma ci_eqb_cases (p c : Z) :
  ci_eqb p c = true ->
  c = p \/ (97 <= p <= 122 /\ c = p - 32) \/ (65 <= p <= 90 /\ c = p + 32).
Proof.
  unfold ci_eqb, Text.in_range. intros H.
  apply orb_true_iff in H as [H|H]; [apply orb_true_iff in H as [H|H]|].
  - left. lia.
  - right. left. lia.
  - right. right. lia.
Qed.

(** The characters a scheme is made of are characters of a URL. *)
Lemma scheme_char (p c : Z) :
  p ∈ lit "https:/" -> ci_eqb p c = true -> url_char c = true.
Proof.
  intros Hp Hc. apply ci_eqb_cases in Hc.
  change (lit "https:/") with [104; 116; 116; 112; 115; 58; 47] in Hp.
  rewrite !elem_of_cons in Hp.
  destruct Hp as [->|[->|[->|[->|[->|[->|[->|Hp]]]]]]];
    [..|by apply elem_of_nil in Hp];
    (destruct Hc as [->|[[? ->]|[? ->]]]; [reflexivity|reflexivity || lia|lia]).
Qed.

Lemma scheme_shape (t : jsstring) (n : nat) :
  scheme_length ci_eqb t = Some n ->
  exists scheme rest,
    t = scheme ++ rest /\ length scheme = n /\ take n t = scheme
    /\ drop n t = rest
    /\ last scheme = Some 47
    /\ has_scheme scheme
    /\ Forall (fun c => url_char c = true) scheme.
Proof.
  unfold scheme_length.
  destruct (starts_with ci_eqb (lit "https://") t) eqn:Hs.
  - intros [= <-].
    destruct t as [|c1 [|c2 [|c3 [|c4 [|c5 [|c6 [|c7 [|c8 rest]]]]]]]];
      try (cbn in Hs; rewrite ?andb_false_r in Hs; discriminate).
    cbn in Hs. repeat (apply andb_true_iff in Hs as [? Hs]).
    exists [c1; c2; c3; c4; c5; c6; c7; c8], rest.
    repeat split.
    + assert (c8 = 47) as ->; [|reflexivity].
      match goal with H : ci_eqb 47 c8 = true |- _ => apply ci_eqb_cases in H end.
      lia.
    + right. cbn.
      repeat match goal with H : ci_eqb _ _ = true |- _ => rewrite H; clear H end.
      reflexivity.
    + repeat constructor;
        match goal with
        | H : ci_eqb ?p ?c = true |- url_char ?c = true =>
            apply (scheme_char p c);
              [change (lit "https:/") with [104; 116; 116; 112; 115; 58; 47];
               set_solver|exact H]
        end.
  - destruct (starts_with ci_eqb (lit "http://") t) eqn:Hs'; [|discriminate].
    intros [= <-]. clear Hs.
    destruct t as [|c1 [|c2 [|c3 [|c4 [|c5 [|c6 [|c7 rest]]]]]]];
      try (cbn in Hs'; rewrite ?andb_false_r in Hs'; discriminate).
    cbn in Hs'. repeat (apply andb_true_iff in Hs' as [? Hs']).
    exists [c1; c2; c3; c4; c5; c6; c7], rest.
    repeat split.
    + assert (c7 = 47) as ->; [|reflexivity].
      match goal with H : ci_eqb 47 c7 = true |- _ => apply ci_eqb_cases in H end.
      lia.
    + left. cbn.
      repeat match goal with H : ci_eqb _ _ = true |- _ => rewrite H; clear H end.
      reflexivity.
    + repeat constructor;
        match goal with
        | H : ci_eqb ?p ?c = true |- url_char ?c = true =>
            apply (scheme_char p c);
              [change (lit "https:/") with [104; 116; 116; 112; 115; 58; 47];
               set_solver|exact H]
        end.
Qed.

Lemma match_url_shape (t u : jsstring) :
  match_url ci_eqb url_char t = Some u ->
  exists scheme body rest,
    u = scheme ++ body /\ t = u ++ rest
    /\ body <> []
    /\ last scheme = Some 47
    /\ has_scheme scheme
    /\ Forall (fun c => url_char c = true) u.
Proof.
  unfold match_url. destruct (scheme_length ci_eqb t) as [n|] eqn:Hn; [|discriminate].
  apply scheme_shape in Hn as (scheme & rest & Ht & Hlen & Htake & Hdrop & Hlast & Hs & Hall).
  rewrite Htake, Hdrop.
  destruct (take_while_split url_char rest) as [rest' Hrest].
  pose proof (take_while_all url_char rest) as Hbody.
  destruct (take_while url_char rest) as [|b body] eqn:E; [discriminate|].
  intros [= <-]. exists scheme, (b :: body), rest'.
  split; [reflexivity|]. split; [by rewrite <- (assoc_L (++)), <- Hrest|].
  split; [discriminate|]. split; [exact Hlast|]. split; [exact Hs|].
  apply Forall_app. by split.
Qed.

Lemma match_all_found (t : jsstring) (skip : nat) (u : jsstring) :
  u ∈ match_all t skip ->
  exists before t', t = before ++ t' /\ match_url ci_eqb url_char t' = Some u.
Proof.
  revert skip. induction t as [|c t IH]; intros skip Hu; [by apply elem_of_nil in Hu|].
  assert (forall k, u ∈ match_all t k ->
            exists before t', c :: t = before ++ t'
                              /\ match_url ci_eqb url_char t' = Some u) as Hrec.
  { intros k (before & t' & -> & Hm)%IH. by exists (c :: before), t'. }
  cbn [match_all] in Hu. destruct skip as [|skip]; [|by eapply Hrec].
  destruct (match_url ci_eqb url_char (c :: t)) as [url|] eqn:E; [|by eapply Hrec].
  apply elem_of_cons in Hu as [->|Hu]; [|by eapply Hrec].
  by exists [], (c :: t).
Qed.

Lemma drop_while_app_stop {A} (p : A -> bool) (a b : list A) (x : A) :
  p x = false -> drop_while p (a ++ x :: b) = drop_while p a ++ x :: b.
Proof.
  intros Hx. induction a as [|y a IH]; simpl; [by rewrite Hx|].
  destruct (p y); [exact IH|reflexivity].
Qed.

Lemma drop_while_end_app_stop {A} (p : A -> bool) (a b : list A) (x : A) :
  p x = false -> drop_while_end p (a ++ x :: b) = a ++ x :: drop_while_end p b.
Proof.
  intros Hx. unfold drop_while_end.
  rewrite rev_app_distr. simpl. rewrite <- (assoc_L (++)). simpl.
  rewrite (drop_while_app_stop p (rev b) (rev a) x Hx).
  rewrite rev_app_distr. simpl. rewrite rev_involutive.
  by rewrite <- (assoc_L (++)).
Qed.

Lemma starts_with_app {A} (eqb : A -> A -> bool) (p l k : list A) :
  starts_with eqb p l = true -> starts_with eqb p (l ++ k) = true.
Proof.
  revert l. induction p as [|a p IH]; intros l; [done|].
  destruct l as [|b l]; [discriminate|]. simpl.
  intros [-> H]%andb_true_iff. simpl. by apply IH.
Qed.

Lemma dedupe_spec (seen l : list jsstring) :
  NoDup (dedupe seen l)
  /\ forall x, x ∈ dedupe seen l <-> x ∈ l /\ x ∉ seen.
Proof.
  revert seen. induction l as [|y l IH]; intros seen; simpl.
  - split; [constructor|]. intros x. rewrite elem_of_nil. tauto.
  - destruct (bool_decide_reflect (y ∈ seen)) as [Hin|Hout].
    + destruct (IH seen) as [Hnd Hel]. split; [exact Hnd|].
      intros x. rewrite Hel, elem_of_cons. split; [tauto|].
      intros [[->|Hx] Hs]; [done|tauto].
    + destruct (IH (y :: seen)) as [Hnd Hel]. split.
      * constructor; [|exact Hnd]. rewrite Hel, elem_of_cons. tauto.
      * intros x. rewrite !elem_of_cons, Hel, elem_of_cons.
        destruct (decide (x = y)) as [->|Hne]; [tauto|]. tauto.
Qed.

(** X17 -- [extractUrls] returns each URL once.  Every URL it returns
    occurs in the text, begins with [http://] or [https://] in any letter
    case, holds neither whitespace nor one of the delimiting characters,
    and does not end with one of [. , ; : ! ? )]. *)
Theorem extractUrls_sound (text : option jsstring) :
  NoDup (extractUrls text)
  /\ forall u, u ∈ extractUrls text ->
       (exists t, text = Some t /\ substring_of u t)
       /\ has_scheme u
       /\ Forall (fun c => url_char c = true) u
       /\ (forall c, last u = Some c -> is_trailing_punctuation c = false).
Proof.
  destruct text as [[|c0 t0]|];
    [split; [constructor|by intros u ?%elem_of_nil]| |
     split; [constructor|by intros u ?%elem_of_nil]].
  change (extractUrls (Some (c0 :: t0)))
    with (dedupe [] (drop_while_end is_trailing_punctuation
                       <$> match_all (c0 :: t0) 0%nat)).
  set (t := c0 :: t0).
  destruct (dedupe_spec [] (drop_while_end is_trailing_punctuation
                               <$> match_all t 0%nat))
    as [Hnd Hel].
  split; [exact Hnd|].
  intros u [Hu _]%Hel.
  apply list_elem_of_fmap in Hu as (m & -> & Hm).
  apply match_all_found in Hm as (before & t' & Ht & Hm).
  apply match_url_shape in Hm as (scheme & body & rest & -> & Ht' & Hbody & Hlast & Hs & Hall).
  destruct (last_Some scheme 47) as [(pre & Hpre) _]; [exact Hlast|].
  assert (is_trailing_punctuation 47 = false) as Hslash by reflexivity.
  assert (drop_while_end is_trailing_punctuation (scheme ++ body)
          = scheme ++ drop_while_end is_trailing_punctuation body) as Hstrip.
  { rewrite Hpre, <- !(assoc_L (++)). simpl.
    by rewrite (drop_while_end_app_stop _ _ _ _ Hslash). }
  rewrite Hstrip.
  destruct (drop_while_end_split is_trailing_punctuation body) as (cut & Hcut & _).
  split; [|split; [|split]].
  - exists t. split; [reflexivity|].
    exists before, (cut ++ rest). rewrite Ht, Ht'.
    rewrite Hcut at 1. by rewrite <- !(assoc_L (++)).
  - destruct Hs as [Hs|Hs]; [left|right]; by apply starts_with_app.
  - rewrite Hcut in Hall. rewrite (assoc_L (++)) in Hall.
    by apply Forall_app in Hall as [Hall _].
  - intros c Hc. rewrite <- Hstrip in Hc. by apply drop_while_end_last in Hc.
Qed.

End UrlProps.

Lemma extractUrls_sound_witness :
  lit "http://test.org"
    ∈ Urls.extractUrls (Some (lit "Visit https://example.com, and http://test.org."))
  /\ NoDup (Urls.extractUrls (Some (lit "Visit https://example.com, and http://test.org.")))
  /\ (exists t, Some (lit "Visit https://example.com, and http://test.org.") = Some t
                /\ UrlRef.substring_of (lit "http://test.org") t)
  /\ UrlRef.has_scheme (lit "http://test.org")
  /\ Forall (fun c => Urls.url_char c = true) (lit "http://test.org")
  /\ (forall c, last (lit "http://test.org") = Some c ->
                Urls.is_trailing_punctuation c = false).
Proof.
  assert (lit "http://test.org"
            ∈ Urls.extractUrls
                (Some (lit "Visit https://example.com, and http://test.org."))) as Hin.
  { vm_compute. right. left. }
  split; [exact Hin|].
  destruct (extractUrls_sound
              (Some (lit "Visit https://example.com, and http://test.org.")))
    as [Hnd Hall].
  split; [exact Hnd|]. exact (Hall _ Hin).
Defined.

Example search_result_names_the_contact :
  exists results,
    (SearchRoute.search raw_identifier contacts_a chats_abc
       (request_of "hello" (Some "A"%string)) (world_of index_abc None)).1
    = Normal (SearchRoute.Json results 1 20 1)
    /\ SearchRoute.res_contact_identifier <$> results = [lit "+15550001"]
    /\ SearchRoute.res_date <$> results = [Some 978307200000].
Proof. eexists. split; [vm_compute; reflexivity|]. split; vm_compute; reflexivity. Qed.

(** ** Link previews *)

Section LinkPreviewProps.
Import Urls UrlRef.

Variable parseBuffer : buffer -> completion (list Text.plist).

Lemma scan_item_keeps (items : list Text.plist)
    (found : option jsstring * option jsstring) :
  (forall u, found.1 = Some u -> starts_with Z.eqb (lit "http") u = true) ->
  (forall t, found.2 = Some t ->
     5 < Text.str_length t /\ Text.isMetadataString t = false) ->
  (forall u, (foldl scan_item found items).1 = Some u ->
     starts_with Z.eqb (lit "http") u = true)
  /\ (forall t, (foldl scan_item found items).2 = Some t ->
        5 < Text.str_length t /\ Text.isMetadataString t = false).
Proof.
  revert found. induction items as [|item items IH]; intros found Hu Ht; [by split|].
  cbn [foldl]. apply IH.
  - destruct item as [| | |s| | | |]; try exact Hu. unfold scan_item.
    destruct (starts_with Z.eqb (lit "http") s) eqn:Hs; [by intros u [= <-]|].
    destruct ((5 <? Text.str_length s) && negb (Text.isMetadataString s));
      exact Hu.
  - destruct item as [| | |s| | | |]; try exact Ht. unfold scan_item.
    destruct (starts_with Z.eqb (lit "http") s) eqn:Hs; [exact Ht|].
    destruct ((5 <? Text.str_length s) && negb (Text.isMetadataString s)) eqn:Hq;
      [|exact Ht].
    cbn [snd]. destruct (truthy_str found.2); [exact Ht|].
    intros t [= <-]. apply andb_true_iff in Hq as [Hlen Hmeta].
    split; [by apply Z.ltb_lt|by apply negb_true_iff].
Qed.

Lemma structured_preview_found (parsed : list Text.plist) (p : link_preview) :
  structured_preview parsed = Normal (Some p) ->
  starts_with Z.eqb (lit "http") (url p) = true
  /\ (forall t, title p = Some t ->
        5 < Text.str_length t /\ Text.isMetadataString t = false).
Proof.
  unfold structured_preview. destruct parsed as [|obj rest]; [discriminate|].
  destruct (objects_of obj) as [[objects|]|e]; cbn [cbind]; try discriminate.
  destruct (Text.truthy objects); [|discriminate].
  destruct (items_of objects) as [items|e]; cbn [cbind]; [|discriminate].
  destruct (scan_item_keeps items (None, None)) as [Hu Ht]; [done|done|].
  destruct (foldl scan_item (None, None) items) as [u t]. cbn [fst snd] in *.
  destruct u as [[|c u]|]; try discriminate.
  intros [= <-]. cbn [url title]. split; [by apply Hu|exact Ht].
Qed.

Lemma starts_with_take (p t : jsstring) :
  starts_with Z.eqb p t = true -> take (length p) t = p.
Proof.
  revert t. induction p as [|a p IH]; intros t; [by rewrite take_0|].
  destruct t as [|b t]; [discriminate|]. simpl.
  intros [->%Z.eqb_eq H]%andb_true_iff. f_equal. by apply IH.
Qed.

Lemma first_match_found (t u : jsstring) :
  first_match t = Some u ->
  exists t', match_url Z.eqb raw_url_char t' = Some u.
Proof.
  induction t as [|c t IH]; [discriminate|]. cbn [first_match].
  destruct (match_url Z.eqb raw_url_char (c :: t)) as [u'|] eqn:E; [|exact IH].
  intros [= <-]. by eexists.
Qed.

Lemma raw_preview_found (data : buffer) (p : link_preview) :
  raw_preview data = Some p ->
  (exists rest, url p = lit "http://" ++ rest \/ url p = lit "https://" ++ rest)
  /\ Forall (fun c => 0x20 <= c <= 0x7e) (url p)
  /\ title p = None.
Proof.
  unfold raw_preview.
  destruct (first_match (toString_utf8 data)) as [m|] eqn:E; [|discriminate].
  apply first_match_found in E as [t' E].
  destruct (filter _ m) as [|c u] eqn:Ef; [discriminate|].
  intros [= <-]. simpl. rewrite <- Ef. split; [|split; [|reflexivity]].
  - unfold match_url, scheme_length in E.
    destruct (starts_with Z.eqb (lit "https://") t') eqn:Hs.
    + apply starts_with_take in Hs.
      change (length (lit "https://")) with 8%nat in Hs. rewrite Hs in E.
      destruct (take_while raw_url_char (drop 8 t')) as [|b body]; [discriminate|].
      injection E as E. subst m.
      exists (filter (fun c => Is_true (Text.in_range 0x20 0x7e c)) (b :: body)).
      right. reflexivity.
    + destruct (starts_with Z.eqb (lit "http://") t') eqn:Hs'; [|discriminate].
      apply starts_with_take in Hs'.
      change (length (lit "http://")) with 7%nat in Hs'. rewrite Hs' in E.
      destruct (take_while raw_url_char (drop 7 t')) as [|b body]; [discriminate|].
      injection E as E. subst m.
      exists (filter (fun c => Is_true (Text.in_range 0x20 0x7e c)) (b :: body)).
      left. reflexivity.
  - apply Forall_forall. intros x [Hx _]%list_elem_of_filter.
    unfold Text.in_range in Hx. apply Is_true_true, andb_true_iff in Hx. lia.
Qed.

(** X18 -- [parseLinkPreview] never throws.  It returns null for a null
    buffer, and also whenever the property-list parser rejects the buffer:
    the search of the raw bytes for a URL is then not reached.  Every URL
    it returns begins with [http], and a title it returns is longer than
    five characters and is not a metadata string. *)
Theorem parseLinkPreview_safe (buffer : option buffer) :
  exists preview,
    parseLinkPreview parseBuffer buffer = Normal preview
    /\ (buffer = None -> preview = None)
    /\ (forall data e,
          buffer = Some data -> parseBuffer data = Throw e -> preview = None)
    /\ (forall p, preview = Some p ->
          starts_with Z.eqb (lit "http") (url p) = true
          /\ (forall t, title p = Some t ->
                5 < Text.str_length t /\ Text.isMetadataString t = false)).
Proof.
  destruct buffer as [data|]; [|exists None; repeat split; done].
  unfold parseLinkPreview.
  destruct (parseBuffer data) as [parsed|e] eqn:Hparse; simpl.
  2:{ exists None. repeat split; done. }
  destruct (structured_preview parsed) as [[p|]|e] eqn:Hs; simpl.
  - exists (Some p). split; [reflexivity|]. split; [discriminate|].
    split; [intros data' e [= <-]; congruence|].
    intros p' [= <-]. by apply (structured_preview_found parsed).
  - exists (raw_preview data). split; [reflexivity|]. split; [discriminate|].
    split; [intros data' e [= <-]; congruence|].
    intros p Hp. apply raw_preview_found in Hp as ([rest [Hu|Hu]] & _ & Ht).
    + rewrite Hu, Ht. by split.
    + rewrite Hu, Ht. by split.
  - exists None. split; [reflexivity|]. split; [discriminate|].
    split; [intros data' e' [= <-]; congruence|]. discriminate.
Qed.

End LinkPreviewProps.

Lemma parseLinkPreview_safe_witness :
  exists preview,
    Urls.parseLinkPreview magic_only_parser
      (Some (bytes_of "see https://example.com/")) = Normal preview
    /\ magic_only_parser (bytes_of "see https://example.com/") = Throw ParseError
    /\ preview = None.
Proof.
  destruct (parseLinkPreview_safe magic_only_parser
              (Some (bytes_of "see https://example.com/")))
    as (preview & Hrun & _ & Hthrow & _).
  exists preview. split; [exact Hrun|].
  assert (magic_only_parser (bytes_of "see https://example.com/") = Throw ParseError)
    as Hp by (vm_compute; reflexivity).
  split; [exact Hp|]. exact (Hthrow _ _ eq_refl Hp).
Defined.

Example link_preview_from_archive :
  Urls.parseLinkPreview UrlRef.link_parser (Some [])
  = Normal (Some {| Urls.url := lit "https://example.com/";
                    Urls.title := Some (lit "Example Domain") |}).
Proof. vm_compute. reflexivity. Qed.

Example link_preview_from_raw_bytes :
  Urls.parseLinkPreview (fun _ => Normal [])
    (Some (bytes_of "bplist00" ++ [x01; x02] ++ bytes_of "https://example.com/a" ++ [x00]))
  = Normal (Some {| Urls.url := lit "https://example.com/a"; Urls.title := None |}).
Proof. vm_compute. reflexivity. Qed.

(** ** Invisible characters *)

Section UnicodeProps.
Import Unicode.

Lemma cleanText_filter (t : jsstring) :
  cleanText (Some t) = trim (filter (fun c => is_invisible c = false) t).
Proof. destruct t; reflexivity. Qed.

(** X19 -- [cleanText] returns a text without invisible characters and
    without whitespace at either end, and [hasVisibleText] is true exactly
    for a text with a character that is neither invisible nor whitespace. *)
Theorem cleanText_visible (text : option jsstring) :
  Forall (fun c => is_invisible c = false) (cleanText text)
  /\ trim (cleanText text) = cleanText text
  /\ (hasVisibleText text = true
      <-> exists t c, text = Some t /\ c ∈ t
                      /\ is_invisible c = false /\ is_whitespace c = false).
Proof.
  destruct text as [t|].
  2:{ split; [constructor|]. split; [reflexivity|].
      split; [discriminate|]. by intros (t & c & [=] & _). }
  rewrite cleanText_filter. split; [|split].
  - apply Forall_forall. intros c Hc.
    eapply elem_of_sublist in Hc; [|apply trim_sublist].
    by apply list_elem_of_filter in Hc as [Hc _].
  - apply trim_trim.
  - unfold hasVisibleText. rewrite cleanText_filter.
    assert ((0 <? Text.str_length (trim (filter (fun c => is_invisible c = false) t)))
            = true
            <-> trim (filter (fun c => is_invisible c = false) t) <> []) as ->.
    { unfold Text.str_length. rewrite Z.ltb_lt.
      destruct (trim _); simpl; split; (done || lia). }
    rewrite trim_nonempty, Exists_exists. split.
    + intros (c & [Hvis Hc]%list_elem_of_filter & Hws). by exists t, c.
    + intros (t' & c & [= <-] & Hc & Hvis & Hws). exists c.
      split; [|exact Hws]. by apply list_elem_of_filter.
Qed.

End UnicodeProps.

Example tapback_wrapper_has_no_visible_text :
  Unicode.hasVisibleText (Some [0x200A; 0xFFFC; 32; 0x200B]) = false
  /\ Unicode.cleanText (Some ([0xFFFC; 32] ++ lit "ok" ++ [0x200B; 10])) = lit "ok".
Proof. split; vm_compute; reflexivity. Qed.

(** ** Phone numbers *)

Section PhoneProps.
Import Phone.

Lemma slice_from_drop {A} (l : list A) (start : Z) :
  slice_from l start
  = drop (Z.to_nat (if start <? 0 then Z.max (Z.of_nat (length l) + start) 0
                    else Z.min start (Z.of_nat (length l)))) l.
Proof.
  unfold slice_from, SearchRoute.js_slice.
  rewrite (proj2 (Z.ltb_ge (Z.of_nat (length l)) 0)) by lia.
  apply take_ge. rewrite length_drop. destruct (start <? 0); lia.
Qed.

(** The digits [normalizePhone] works on: the last ten, when there are ten. *)
Lemma normalizePhone_digits (phone : jsstring) :
  normalizePhone (Some phone)
  = let digits := filter (fun c => Is_true (is_digit c)) phone in
    if 10 <=? Z.of_nat (length digits)
    then drop (length digits - 10) digits else [].
Proof.
  destruct phone as [|c0 p0]; [reflexivity|].
  unfold normalizePhone, jsstring. cbv beta iota zeta.
  match goal with
  | |- context [filter ?P (c0 :: p0)] => generalize (filter P (c0 :: p0))
  end.
  intros digits.
  destruct ((Z.of_nat (length digits) =? 11) && starts_with Z.eqb (lit "1") digits)
    eqn:Hus.
  - apply andb_true_iff in Hus as [Hlen%Z.eqb_eq _].
    rewrite !slice_from_drop. rewrite !length_drop.
    change (1 <? 0) with false. change (-10 <? 0) with true. cbv iota.
    replace (Z.to_nat (Z.min 1 (Z.of_nat (length digits)))) with 1%nat by lia.
    destruct (Z.leb_spec 10 (Z.of_nat (length digits - 1))); [|lia].
    destruct (Z.leb_spec 10 (Z.of_nat (length digits))); [|lia].
    rewrite drop_drop. f_equal. lia.
  - destruct (Z.leb_spec 10 (Z.of_nat (length digits))); [|reflexivity].
    rewrite slice_from_drop. change (-10 <? 0) with true. cbv iota. f_equal. lia.
Qed.

Lemma normalizePhone_of_digits (l : jsstring) :
  Forall (fun c => Is_true (is_digit c)) l ->
  normalizePhone (Some l)
  = if 10 <=? Z.of_nat (length l) then drop (length l - 10) l else [].
Proof.
  intros Hl. rewrite normalizePhone_digits. cbv zeta.
  match goal with
  | |- context [filter ?P l] => rewrite (filter_all P l)
  end; [reflexivity|].
  by apply Forall_forall.
Qed.

Lemma normalizePhone_last_ten_length (phone : jsstring) :
  normalizePhone (Some phone) = [] \/ length (normalizePhone (Some phone)) = 10%nat.
Proof.
  rewrite normalizePhone_digits. cbv zeta.
  destruct (Z.leb_spec 10 (Z.of_nat (length (filter (fun c => Is_true (is_digit c)) phone))));
    [|by left].
  right. rewrite length_drop. lia.
Qed.

(** X20 -- [normalizePhone] keeps the last ten digits of a number that has
    at least ten, whatever else is written in it, and returns the empty
    string otherwise.  Its result is empty or made of exactly ten digits, it
    is the same for two writings with the same digits, and normalizing it
    again changes nothing. *)
Theorem normalizePhone_last_ten (phone : option jsstring) :
  let digits := filter (fun c => Is_true (is_digit c)) (default [] phone) in
  let normalized := normalizePhone phone in
  normalized = (if 10 <=? Z.of_nat (length digits)
                then drop (length digits - 10) digits else [])
  /\ (normalized = [] \/ length normalized = 10%nat)
  /\ Forall (fun c => 48 <= c <= 57) normalized
  /\ normalizePhone (Some digits) = normalized
  /\ normalizePhone (Some normalized) = normalized.
Proof.
  intros digits normalized.
  assert (normalized = (if 10 <=? Z.of_nat (length digits)
                        then drop (length digits - 10) digits else [])) as Hn.
  { unfold normalized, digits. destruct phone as [p|]; [|reflexivity].
    apply normalizePhone_digits. }
  assert (Forall (fun c => Is_true (is_digit c)) digits) as Hd.
  { apply Forall_forall. intros c Hc. by apply list_elem_of_filter in Hc as [Hc _]. }
  assert (Forall (fun c => Is_true (is_digit c)) normalized) as Hnd.
  { rewrite Hn. destruct (10 <=? Z.of_nat (length digits)); [|constructor].
    rewrite Forall_forall in Hd |- *. intros c Hc. apply Hd.
    eapply elem_of_sublist; [exact Hc|apply sublist_drop]. }
  assert (normalized = [] \/ length normalized = 10%nat) as Hlen.
  { rewrite Hn. destruct (Z.leb_spec 10 (Z.of_nat (length digits))); [|by left].
    right. rewrite length_drop. lia. }
  split; [exact Hn|]. split; [exact Hlen|]. split; [|split].
  - rewrite Forall_forall in Hnd |- *. intros c Hc. specialize (Hnd c Hc).
    unfold is_digit, Text.in_range in Hnd.
    apply Is_true_true, andb_true_iff in Hnd. lia.
  - exact (eq_trans (normalizePhone_of_digits digits Hd) (eq_sym Hn)).
  - etrans; [exact (normalizePhone_of_digits normalized Hnd)|].
    destruct Hlen as [->|Hten]; [reflexivity|].
    rewrite Hten. simpl. by rewrite drop_0.
Qed.

End PhoneProps.

Example should_normalize_phone_numbers :
  Phone.normalizePhone (Some (lit "+1 (555) 123-4567")) = lit "5551234567"
  /\ Phone.normalizePhone (Some (lit "+15551234567")) = lit "5551234567"
  /\ Phone.normalizePhone (Some (lit "555-123-4567")) = lit "5551234567"
  /\ Phone.normalizePhone (Some (lit "1-555-123-4567")) = lit "5551234567"
  /\ Phone.normalizePhone (Some (lit "+44 20 7946 0958")) = lit "2079460958"
  /\ Phone.normalizePhone (Some (lit "+44 20 7946 0958 123")) = lit "9460958123"
  /\ Phone.normalizePhone None = []
  /\ Phone.normalizePhone (Some []) = []
  /\ Phone.normalizePhone (Some (lit "123")) = []
  /\ Phone.normalizePhone (Some (lit "55512")) = [].
Proof. repeat split; vm_compute; reflexivity. Qed.

(** ** The SQL filters *)

Section FilterProps.
Import SearchRoute Contacts Filters ContactRef.

Variable contactGroupMap : gmap jsstring contact_group.

Lemma set_add_spec (x : jsstring) (s : list jsstring) :
  (NoDup s -> NoDup (set_add x s))
  /\ forall y, y ∈ set_add x s <-> y = x \/ y ∈ s.
Proof.
  unfold set_add. destruct (bool_decide_reflect (x ∈ s)) as [Hin|Hout].
  - split; [done|]. intros y. split; [by right|]. by intros [->|?].
  - split.
    + intros Hnd. apply NoDup_app. split; [exact Hnd|].
      split; [|apply NoDup_singleton].
      intros y Hy ->%list_elem_of_singleton. done.
    + intros y. rewrite elem_of_app, list_elem_of_singleton. tauto.
Qed.

Lemma foldl_set_add (ids acc : list jsstring) :
  (NoDup acc -> NoDup (foldl (fun acc id => set_add id acc) acc ids))
  /\ forall y, y ∈ foldl (fun acc id => set_add id acc) acc ids <-> y ∈ acc \/ y ∈ ids.
Proof.
  revert acc. induction ids as [|id ids IH]; intros acc; simpl.
  - split; [done|]. intros y. rewrite elem_of_nil. tauto.
  - destruct (IH (set_add id acc)) as [Hnd Hel].
    destruct (set_add_spec id acc) as [Hnd' Hel'].
    split; [by intros ?; apply Hnd, Hnd'|].
    intros y. rewrite Hel, Hel', elem_of_cons. tauto.
Qed.

Lemma all_identifiers_from (contactIds : list jsstring) (acc : list jsstring) :
  let result :=
    foldl (fun allIdentifiers contactId =>
             match contactGroupMap !! contactId with
             | Some group =>
                 foldl (fun acc id => set_add id acc) allIdentifiers (identifiers group)
             | None => allIdentifiers
             end) acc contactIds in
  (NoDup acc -> NoDup result)
  /\ forall y, y ∈ result
       <-> y ∈ acc
           \/ exists contactId group,
                contactId ∈ contactIds /\ contactGroupMap !! contactId = Some group
                /\ y ∈ identifiers group.
Proof.
  revert acc. induction contactIds as [|c rest IH]; intros acc; simpl.
  - split; [done|]. intros y. split; [by left|].
    intros [?|(c & g & []%elem_of_nil & _)]; done.
  - destruct (contactGroupMap !! c) as [group|] eqn:Hc.
    + destruct (IH (foldl (fun acc id => set_add id acc) acc (identifiers group)))
        as [Hnd Hel].
      destruct (foldl_set_add (identifiers group) acc) as [Hnd' Hel'].
      split; [by intros ?; apply Hnd, Hnd'|].
      intros y. rewrite Hel, Hel'. split.
      * intros [[?|Hy]|(c' & g & Hc' & Hg & Hy)]; [by left| |].
        -- right. exists c, group. split; [left|done].
        -- right. exists c', g. split; [by right|done].
      * intros [?|(c' & g & Hc' & Hg & Hy)]; [by left; left|].
        apply elem_of_cons in Hc' as [->|Hc'].
        -- left. right. congruence.
        -- right. by exists c', g.
    + destruct (IH acc) as [Hnd Hel]. split; [exact Hnd|].
      intros y. rewrite Hel. split.
      * intros [?|(c' & g & Hc' & Hg & Hy)]; [by left|].
        right. exists c', g. split; [by right|done].
      * intros [?|(c' & g & Hc' & Hg & Hy)]; [by left|].
        apply elem_of_cons in Hc' as [->|Hc']; [congruence|].
        right. by exists c', g.
Qed.

Lemma all_identifiers_spec (contactIds : list jsstring) :
  NoDup (all_identifiers contactGroupMap contactIds)
  /\ forall y, y ∈ all_identifiers contactGroupMap contactIds
       <-> exists contactId group,
             contactId ∈ contactIds /\ contactGroupMap !! contactId = Some group
             /\ y ∈ identifiers group.
Proof.
  destruct (all_identifiers_from contactIds []) as [Hnd Hel].
  split; [apply Hnd; constructor|].
  intros y. unfold all_identifiers. rewrite Hel, elem_of_nil. tauto.
Qed.

Lemma count_placeholders_app (a b : jsstring) :
  count_placeholders (a ++ b) = (count_placeholders a + count_placeholders b)%nat.
Proof. unfold count_placeholders, jsstring. by rewrite filter_app, length_app. Qed.

Lemma count_placeholders_join (ids : list jsstring) :
  count_placeholders (placeholders ids) = length ids.
Proof.
  unfold placeholders. induction ids as [|id ids IH]; [reflexivity|].
  destruct ids as [|id' ids]; [reflexivity|].
  change (join_comma ((fun _ => lit "?") <$> id :: id' :: ids))
    with (lit "?" ++ 44 :: join_comma ((fun _ => lit "?") <$> id' :: ids)).
  rewrite count_placeholders_app.
  change (44 :: join_comma ((fun _ => lit "?") <$> id' :: ids))
    with ([44] ++ join_comma ((fun _ => lit "?") <$> id' :: ids)).
  rewrite count_placeholders_app, IH. reflexivity.
Qed.

Lemma params_spec (contactIds : list jsstring) :
  params (buildContactFilter contactGroupMap contactIds)
  = all_identifiers contactGroupMap contactIds
  /\ params (buildHandleFilter contactGroupMap contactIds)
     = all_identifiers contactGroupMap contactIds.
Proof.
  unfold buildContactFilter, buildHandleFilter.
  destruct contactIds as [|c rest]; [by split|]. cbv zeta.
  destruct (Z.eqb_spec (Z.of_nat (length (all_identifiers contactGroupMap (c :: rest)))) 0)
    as [Hz|Hnz]; [|by split].
  assert (all_identifiers contactGroupMap (c :: rest) = []) as ->
    by (apply nil_length_inv; lia).
  by split.
Qed.

(** X21 -- The filter [buildContactFilter] builds.  Its parameters are the
    identifiers of the groups of the selected contacts, each once; its SQL
    text holds exactly one [?] per parameter and is empty exactly when
    there is no parameter; [buildHandleFilter] binds the same parameters;
    and the conversations its subquery selects are those the search
    handler allows for the same contacts. *)
Theorem buildContactFilter_params (contactIds : list jsstring) (src : source_db) :
  let f := buildContactFilter contactGroupMap contactIds in
  NoDup (params f)
  /\ (forall y, y ∈ params f
        <-> exists contactId group,
              contactId ∈ contactIds /\ contactGroupMap !! contactId = Some group
              /\ y ∈ identifiers group)
  /\ count_placeholders (filter_ f) = length (params f)
  /\ (filter_ f = [] <-> params f = [])
  /\ params (buildHandleFilter contactGroupMap contactIds) = params f
  /\ count_placeholders (filter_ (buildHandleFilter contactGroupMap contactIds))
     = length (params f)
  /\ list_to_set (filter_chat_ids f src)
     = resolved_chat_ids contactGroupMap src contactIds.
Proof.
  intros f.
  destruct (params_spec contactIds) as [Hp Hp'].
  destruct (all_identifiers_spec contactIds) as [Hnd Hel].
  fold f in Hp. rewrite <- Hp in Hnd, Hel.
  split; [exact Hnd|]. split; [exact Hel|].
  assert (count_placeholders (filter_ f) = length (params f)
          /\ (filter_ f = [] <-> params f = [])
          /\ count_placeholders (filter_ (buildHandleFilter contactGroupMap contactIds))
             = length (params f)) as (Hcount & Hempty & Hcount').
  { unfold f, buildContactFilter, buildHandleFilter.
    destruct contactIds as [|c rest]; [by repeat split|]. cbv zeta.
    destruct (Z.of_nat (length (all_identifiers contactGroupMap (c :: rest))) =? 0)
      eqn:Hz; [by repeat split|].
    cbn [filter_ params]. split; [|split].
    - rewrite !count_placeholders_app, count_placeholders_join.
      repeat match goal with
             | |- context [count_placeholders ?s] =>
                 let n := eval vm_compute in (count_placeholders s) in
                 change (count_placeholders s) with n
             end.
      lia.
    - split; [discriminate|]. intros Hnil. rewrite Hnil in Hz. discriminate.
    - rewrite !count_placeholders_app, count_placeholders_join.
      repeat match goal with
             | |- context [count_placeholders ?s] =>
                 let n := eval vm_compute in (count_placeholders s) in
                 change (count_placeholders s) with n
             end.
      lia. }
  split; [exact Hcount|]. split; [exact Hempty|].
  split; [by rewrite Hp'|]. split; [exact Hcount'|].
  apply set_eq. intros c. unfold filter_chat_ids.
  rewrite elem_of_list_to_set, elem_of_chat_ids_of,
    (elem_of_resolved_chat_ids contactGroupMap).
  split.
  - intros (hid & ident & (contactId & group & Hc & Hg & Hi)%Hel & Hh & Hj).
    by exists contactId, group, hid, ident.
  - intros (contactId & group & hid & ident & Hc & Hg & Hi & Hh & Hj).
    exists hid, ident. split; [|done]. apply Hel. by exists contactId, group.
Qed.

End FilterProps.

Example filter_for_contact_A :
  Filters.params (Filters.buildContactFilter contacts_a [lit "A"; lit "nobody"])
  = [lit "+15550001"]
  /\ Filters.filter_ (Filters.buildHandleFilter contacts_a [lit "A"])
     = lit " AND h.id IN (?)"
  /\ Filters.buildContactFilter contacts_a [lit "nobody"] = Filters.no_filter.
Proof. repeat split; vm_compute; reflexivity. Qed.

(** ** The contact store *)

Section ContactProps.
Import SearchRoute Phone Contacts ContactRef.

Variable toLowerCase : jsstring -> jsstring.

Lemma getDisplayName_direct (s : store) (x name : jsstring) :
  x <> [] -> nameMap s !! x = Some name ->
  getDisplayName toLowerCase s (Some x) = name.
Proof.
  intros Hx Hn. destruct x as [|c x]; [done|].
  unfold getDisplayName. by rewrite Hn.
Qed.

Lemma getContactId_direct (s : store) (x contactId : jsstring) :
  x <> [] -> idMap s !! x = Some contactId ->
  getContactId toLowerCase s (Some x) = Some contactId.
Proof.
  intros Hx Hn. destruct x as [|c x]; [done|].
  unfold getContactId. by rewrite Hn.
Qed.

Lemma getDisplayName_by_phone (s : store) (x name : jsstring) :
  nameMap s !! x = None ->
  normalizePhone (Some x) <> [] ->
  nameMap s !! normalizePhone (Some x) = Some name ->
  getDisplayName toLowerCase s (Some x) = name.
Proof.
  intros Hx Hne Hn. destruct x as [|c x]; [done|].
  unfold getDisplayName. rewrite Hx. cbv zeta.
  apply truthy_nonempty in Hne. rewrite Hne, Hn. reflexivity.
Qed.

Lemma getContactId_by_phone (s : store) (x contactId : jsstring) :
  idMap s !! x = None ->
  normalizePhone (Some x) <> [] ->
  idMap s !! normalizePhone (Some x) = Some contactId ->
  getContactId toLowerCase s (Some x) = Some contactId.
Proof.
  intros Hx Hne Hn. destruct x as [|c x]; [done|].
  unfold getContactId. rewrite Hx. cbv zeta.
  apply truthy_nonempty in Hne. rewrite Hne, Hn. reflexivity.
Qed.

(** X22 -- What [addContact] records can be read back: the name and the
    contact of the identifier, and the identifier among those of the
    contact's group; the entries of the other identifiers are untouched. *)
Theorem addContact_read_back (s : store) (identifier name contactId : jsstring) :
  identifier <> [] ->
  let s' := addContact s identifier name contactId in
  getDisplayName toLowerCase s' (Some identifier) = name
  /\ getContactId toLowerCase s' (Some identifier) = Some contactId
  /\ (exists group, getContactGroupMap s' !! contactId = Some group
                    /\ identifier ∈ identifiers group)
  /\ (forall other, other <> identifier ->
        nameMap s' !! other = nameMap s !! other
        /\ idMap s' !! other = idMap s !! other).
Proof.
  intros Hne s'. split; [|split; [|split]].
  - apply getDisplayName_direct; [exact Hne|]. apply lookup_insert_eq.
  - apply getContactId_direct; [exact Hne|]. apply lookup_insert_eq.
  - eexists. split; [apply lookup_insert_eq|]. cbn [identifiers].
    apply set_add_spec. by left.
  - intros other Hother. unfold s', addContact. simpl.
    by rewrite !lookup_insert_ne.
Qed.

(** X23 -- A phone number of the address book is found however it is
    written.  After the row of a number with at least ten digits is loaded,
    any identifier with the same normal form, unless the store already
    held that very identifier, shows the name of the row and belongs to
    its contact. *)
Theorem phone_found_in_any_writing (s : store) (phone name contactId x : jsstring) :
  normalizePhone (Some phone) <> [] ->
  normalizePhone (Some x) = normalizePhone (Some phone) ->
  nameMap s !! x = None -> idMap s !! x = None ->
  let s' := add_phone s phone name contactId in
  getDisplayName toLowerCase s' (Some x) = name
  /\ getContactId toLowerCase s' (Some x) = Some contactId.
Proof.
  intros Hne Hx Hname Hid s'.
  assert (x <> []) as Hxne.
  { intros ->. apply Hne. rewrite <- Hx. reflexivity. }
  set (n := normalizePhone (Some phone)) in *.
  assert (lit "+1" ++ n <> n) as Hplus.
  { intros Heq. apply (f_equal length) in Heq. rewrite length_app in Heq.
    simpl in Heq. lia. }
  assert (s' = addContact (addContact (addContact s phone name contactId)
                             n name contactId)
                 (lit "+1" ++ n) name contactId) as ->.
  { unfold s', add_phone. fold n. cbv zeta.
    apply truthy_nonempty in Hne. by rewrite Hne. }
  assert (nameMap (addContact (addContact (addContact s phone name contactId)
                                 n name contactId)
                     (lit "+1" ++ n) name contactId) !! n = Some name) as Hn.
  { simpl. rewrite lookup_insert_ne by done. apply lookup_insert_eq. }
  assert (idMap (addContact (addContact (addContact s phone name contactId)
                               n name contactId)
                   (lit "+1" ++ n) name contactId) !! n = Some contactId) as Hi.
  { simpl. rewrite lookup_insert_ne by done. apply lookup_insert_eq. }
  split.
  - destruct (nameMap (addContact (addContact (addContact s phone name contactId)
                                     n name contactId)
                         (lit "+1" ++ n) name contactId) !! x) as [nm|] eqn:E.
    + rewrite (getDisplayName_direct _ x nm Hxne E).
      simpl in E. rewrite !lookup_insert_Some in E.
      destruct E as [[_ <-]|[_ [[_ <-]|[_ [[_ <-]|[_ E]]]]]]; congruence.
    + apply getDisplayName_by_phone; [exact E|by rewrite Hx|by rewrite Hx].
  - destruct (idMap (addContact (addContact (addContact s phone name contactId)
                                   n name contactId)
                       (lit "+1" ++ n) name contactId) !! x) as [i|] eqn:E.
    + rewrite (getContactId_direct _ x i Hxne E).
      simpl in E. rewrite !lookup_insert_Some in E.
      destruct E as [[_ <-]|[_ [[_ <-]|[_ [[_ <-]|[_ E]]]]]]; congruence.
    + apply getContactId_by_phone; [exact E|by rewrite Hx|by rewrite Hx].
Qed.

Lemma addContact_linked (s : store) (identifier name contactId : jsstring) :
  linked s -> linked (addContact s identifier name contactId).
Proof.
  intros [Hid Hnd]. split.
  - intros i c. simpl. intros Hi.
    destruct (decide (identifier = i)) as [->|Hne].
    + rewrite lookup_insert_eq in Hi. injection Hi as <-.
      eexists. split; [apply lookup_insert_eq|]. cbn [identifiers].
      apply set_add_spec. by left.
    + rewrite lookup_insert_ne in Hi by done.
      destruct (Hid i c Hi) as (g & Hg & Hin).
      destruct (decide (contactId = c)) as [->|Hc].
      * eexists. split; [apply lookup_insert_eq|]. cbn [identifiers].
        rewrite Hg. apply set_add_spec. by right.
      * exists g. by rewrite lookup_insert_ne.
  - intros c g. simpl.
    destruct (decide (contactId = c)) as [->|Hc].
    + rewrite lookup_insert_eq. intros [= <-]. cbn [identifiers].
      apply set_add_spec.
      destruct (groupMap s !! c) as [g0|] eqn:Hg; [by eapply Hnd|constructor].
    + rewrite lookup_insert_ne by done. apply Hnd.
Qed.

Lemma store_of_linked (entries : list (jsstring * jsstring * jsstring)) :
  linked (store_of entries).
Proof.
  unfold store_of.
  assert (linked new_store) as H0.
  { split; intros ? ?; simpl; rewrite lookup_empty; discriminate. }
  revert H0. generalize new_store.
  induction entries as [|e entries IH]; intros s Hs; [exact Hs|].
  simpl. apply IH. by apply addContact_linked.
Qed.

(** X24 -- The contact store and the search filter agree.  In a store
    filled by [addContact], when an identifier is mapped to a contact, a
    search filtered by that contact allows every conversation that has a
    handle with this identifier; and no group lists an identifier twice. *)
Theorem contact_filter_allows_its_handles
    (entries : list (jsstring * jsstring * jsstring)) (src : source_db)
    (identifier contactId : jsstring) (hid chat : Z) :
  idMap (store_of entries) !! identifier = Some contactId ->
  (hid, identifier) ∈ handle src ->
  (chat, hid) ∈ chat_handle_join src ->
  chat ∈ resolved_chat_ids (getContactGroupMap (store_of entries)) src [contactId]
  /\ (forall c group, getContactGroupMap (store_of entries) !! c = Some group ->
        NoDup (identifiers group)).
Proof.
  intros Hi Hh Hj. destruct (store_of_linked entries) as [Hid Hnd].
  split; [|exact Hnd].
  destruct (Hid identifier contactId Hi) as (g & Hg & Hin).
  apply elem_of_resolved_chat_ids.
  exists contactId, g, hid, identifier. split; [left|done].
Qed.

(** A store without contacts shows a number by its last ten digits, and
    anything else as it is. *)
Lemma getDisplayName_unknown (x : jsstring) :
  x <> [] ->
  getDisplayName toLowerCase new_store (Some x)
  = if bool_decide (normalizePhone (Some x) = []) then x
    else format_phone (normalizePhone (Some x)).
Proof.
  intros Hx. destruct x as [|c x]; [done|].
  unfold getDisplayName. cbn [nameMap new_store]. rewrite !lookup_empty. cbv zeta.
  pose proof (normalizePhone_last_ten_length (c :: x)) as Hn.
  revert Hn.
  match goal with
  | |- context [normalizePhone ?a] => generalize (normalizePhone a)
  end.
  intros n Hn.
  assert (forall e : jsstring,
            (if truthy_str (Some e) then @None jsstring else None) = None) as Hnone
    by (intros e; by destruct (truthy_str _)).
  rewrite !Hnone.
  destruct Hn as [->|Hn]; [reflexivity|].
  destruct n as [|d n]; [simpl in Hn; lia|].
  rewrite bool_decide_false by done. cbn [truthy_str andb]. by rewrite Hn.
Qed.

End ContactProps.

Lemma addContact_read_back_witness :
  lit "+15550001" <> []
  /\ (let s' := Contacts.addContact Contacts.new_store
                  (lit "+15550001") (lit "Alice") (lit "main-1") in
      Contacts.getDisplayName ContactRef.ascii_lower s' (Some (lit "+15550001"))
      = lit "Alice"
      /\ Contacts.getContactId ContactRef.ascii_lower s' (Some (lit "+15550001"))
         = Some (lit "main-1")
      /\ (exists group,
            Contacts.getContactGroupMap s' !! lit "main-1" = Some group
            /\ lit "+15550001" ∈ SearchRoute.identifiers group)
      /\ (forall other, other <> lit "+15550001" ->
            Contacts.nameMap s' !! other = Contacts.nameMap Contacts.new_store !! other
            /\ Contacts.idMap s' !! other = Contacts.idMap Contacts.new_store !! other)).
Proof.
  split; [discriminate|].
  apply (addContact_read_back ContactRef.ascii_lower Contacts.new_store
           (lit "+15550001") (lit "Alice") (lit "main-1")).
  discriminate.
Defined.

Lemma phone_found_in_any_writing_witness :
  Phone.normalizePhone (Some (lit "+1 (555) 123-4567")) <> []
  /\ Phone.normalizePhone (Some (lit "555-123-4567"))
     = Phone.normalizePhone (Some (lit "+1 (555) 123-4567"))
  /\ Contacts.nameMap Contacts.new_store !! lit "555-123-4567" = None
  /\ Contacts.idMap Contacts.new_store !! lit "555-123-4567" = None
  /\ (let s' := Contacts.add_phone Contacts.new_store
                  (lit "+1 (555) 123-4567") (lit "Alice") (lit "main-1") in
      Contacts.getDisplayName ContactRef.ascii_lower s' (Some (lit "555-123-4567"))
      = lit "Alice"
      /\ Contacts.getContactId ContactRef.ascii_lower s' (Some (lit "555-123-4567"))
         = Some (lit "main-1")).
Proof.
  assert (Phone.normalizePhone (Some (lit "+1 (555) 123-4567")) <> []) as H1
    by (vm_compute; discriminate).
  assert (Phone.normalizePhone (Some (lit "555-123-4567"))
          = Phone.normalizePhone (Some (lit "+1 (555) 123-4567"))) as H2
    by (vm_compute; reflexivity).
  split; [exact H1|]. split; [exact H2|].
  split; [reflexivity|]. split; [reflexivity|].
  exact (phone_found_in_any_writing ContactRef.ascii_lower Contacts.new_store
           (lit "+1 (555) 123-4567") (lit "Alice") (lit "main-1")
           (lit "555-123-4567") H1 H2 eq_refl eq_refl).
Defined.

Lemma contact_filter_allows_its_handles_witness :
  Contacts.idMap (ContactRef.store_of [(lit "+15550001", lit "Alice", lit "A")])
    !! lit "+15550001" = Some (lit "A")
  /\ (10, lit "+15550001") ∈ handle chats_abc
  /\ (1, 10) ∈ chat_handle_join chats_abc
  /\ 1 ∈ resolved_chat_ids
           (Contacts.getContactGroupMap
              (ContactRef.store_of [(lit "+15550001", lit "Alice", lit "A")]))
           chats_abc [lit "A"]
  /\ (forall c group,
        Contacts.getContactGroupMap
          (ContactRef.store_of [(lit "+15550001", lit "Alice", lit "A")]) !! c
        = Some group ->
        NoDup (SearchRoute.identifiers group)).
Proof.
  assert (Contacts.idMap (ContactRef.store_of [(lit "+15550001", lit "Alice", lit "A")])
            !! lit "+15550001" = Some (lit "A")) as H1 by (vm_compute; reflexivity).
  assert ((10, lit "+15550001") ∈ handle chats_abc) as H2 by apply list_elem_of_here.
  assert ((1, 10) ∈ chat_handle_join chats_abc) as H3 by apply list_elem_of_here.
  split; [exact H1|]. split; [exact H2|]. split; [exact H3|].
  exact (contact_filter_allows_its_handles
           [(lit "+15550001", lit "Alice", lit "A")] chats_abc
           (lit "+15550001") (lit "A") 10 1 H1 H2 H3).
Defined.

Example unknown_number_is_formatted :
  Contacts.getDisplayName ContactRef.ascii_lower Contacts.new_store
    (Some (lit "+15551234567")) = lit "(555) 123-4567"
  /\ Contacts.getDisplayName ContactRef.ascii_lower Contacts.new_store
       (Some (lit "someone@example.com")) = lit "someone@example.com"
  /\ Contacts.getDisplayName ContactRef.ascii_lower Contacts.new_store None
     = lit "Unknown".
Proof. repeat split; vm_compute; reflexivity. Qed.

(** ** The text of a message *)

Section ResolverProps.

Variable parseBuffer : buffer -> completion (list Text.plist).

(** X27 -- [getMessageText] never throws, and the text it returns is never
    blank: it holds a character that is not whitespace, so that the
    trim-and-blank check of the indexer stores every text it returns.  It
    returns the text column itself, untrimmed, when that is not blank. *)
Theorem getMessageText_not_blank (row : Text.text_row) :
  exists text,
    Text.getMessageText parseBuffer row = Normal text
    /\ (forall t, text = Some t ->
          trim t <> [] /\ text_to_store (Some t) = Some (trim t))
    /\ (forall t, Text.row_text row = Some t -> trim t <> [] -> text = Some t).
Proof.
  assert (forall t, trim t <> [] -> text_to_store (Some t) = Some (trim t)) as Hstore.
  { intros t Ht. unfold text_to_store.
    assert (t <> []) as Hne by (intros ->; by apply Ht).
    apply truthy_nonempty in Hne, Ht. by rewrite Hne, Ht. }
  unfold Text.getMessageText.
  destruct (truthy_str (Text.row_text row)
            && truthy_str (trim <$> Text.row_text row)) eqn:Hplain.
  - exists (Text.row_text row). split; [reflexivity|]. split; [|by intros t ->].
    intros t Ht. rewrite Ht in Hplain. apply andb_true_iff in Hplain as [_ Htrim].
    change (trim <$> Some t) with (Some (trim t)) in Htrim.
    apply truthy_nonempty in Htrim. by split; [|apply Hstore].
  - assert (forall t, Text.row_text row = Some t -> trim t <> [] -> False) as Hblank.
    { intros t Ht Htrim. rewrite Ht in Hplain.
      assert (t <> []) as Hne by (intros ->; by apply Htrim).
      apply truthy_nonempty in Hne, Htrim.
      change (trim <$> Some t) with (Some (trim t)) in Hplain.
      rewrite Hne, Htrim in Hplain. discriminate. }
    destruct (Text.row_attributedBody row) as [b|].
    + destruct (extract_normal parseBuffer (Some b)) as [r Hr].
      exists r. split; [exact Hr|]. split; [|by intros t Ht Htrim; destruct (Hblank t)].
      intros t ->. destruct (extract_cleaned parseBuffer _ _ Hr) as (Hne & s & ->).
      assert (trim (Text.cleanExtractedText s) = Text.cleanExtractedText s) as Htrim
        by apply trim_trim.
      split; [by rewrite Htrim|]. apply Hstore. by rewrite Htrim.
    + exists None. split; [reflexivity|]. split; [discriminate|].
      intros t Ht Htrim. destruct (Hblank t Ht Htrim).
Qed.

End ResolverProps.

Lemma getMessageText_not_blank_witness :
  exists text,
    Text.getMessageText magic_only_parser
      {| Text.row_text := Some (lit " "); Text.row_attributedBody := Some hello_fallback |}
    = Normal text
    /\ text = Some (lit "Hello")
    /\ trim (lit "Hello") <> []
    /\ text_to_store (Some (lit "Hello")) = Some (trim (lit "Hello")).
Proof.
  destruct (getMessageText_not_blank magic_only_parser
              {| Text.row_text := Some (lit " ");
                 Text.row_attributedBody := Some hello_fallback |})
    as (text & Hrun & Hnb & _).
  exists text. split; [exact Hrun|].
  assert (text = Some (lit "Hello")) as Ht.
  { vm_compute in Hrun. by injection Hrun as <-. }
  split; [exact Ht|]. exact (Hnb _ Ht).
Defined.

(** ** Links of a list of messages *)

Section LinkProps.
Import SearchRoute Urls Links.

Variable parseBuffer : buffer -> completion (list Text.plist).
Variable getDisplayName : option jsstring -> jsstring.

Lemma getMessageText_normal (row : Text.text_row) :
  exists text, Text.getMessageText parseBuffer row = Normal text.
Proof.
  unfold Text.getMessageText.
  destruct (truthy_str (Text.row_text row) && _); [by eexists|].
  destruct (Text.row_attributedBody row) as [b|]; [|by eexists].
  apply extract_normal.
Qed.

Lemma add_urls_cons (row : link_row) (url : jsstring) (urls : list jsstring)
    (acc : list jsstring * list link) :
  add_urls getDisplayName row (url :: urls) acc
  = add_urls getDisplayName row urls
      (if bool_decide (url ∈ acc.1) then acc
       else (url :: acc.1,
             acc.2 ++ [ {| l_url := url;
                           l_date := convertMacTime (lr_date row);
                           l_contact := getDisplayName (lr_contact_identifier row);
                           l_is_from_me := lr_is_from_me row |} ])).
Proof. reflexivity. Qed.

Lemma add_urls_spec (row : link_row) (urls : list jsstring)
    (acc : list jsstring * list link) :
  let out := add_urls getDisplayName row urls acc in
  (NoDup (l_url <$> acc.2) -> (forall u, u ∈ acc.1 <-> u ∈ l_url <$> acc.2) ->
   NoDup (l_url <$> out.2) /\ (forall u, u ∈ out.1 <-> u ∈ l_url <$> out.2))
  /\ (forall u, u ∈ acc.1 \/ u ∈ urls -> u ∈ out.1)
  /\ (forall l, l ∈ out.2 ->
        l ∈ acc.2
        \/ (l_url l ∈ urls
            /\ l_date l = convertMacTime (lr_date row)
            /\ l_contact l = getDisplayName (lr_contact_identifier row)
            /\ l_is_from_me l = lr_is_from_me row)).
Proof.
  revert acc. induction urls as [|url urls IH]; intros acc out.
  - unfold out. simpl. split; [tauto|]. split; [|tauto].
    intros u [?|[]%elem_of_nil]. done.
  - unfold out. rewrite add_urls_cons.
    destruct (bool_decide_reflect (url ∈ acc.1)) as [Hseen|Hnew].
    + destruct (IH acc) as (H1 & H2 & H3). cbv zeta in H1, H2, H3.
      split; [exact H1|]. split.
      * intros u [Hu|[->|Hu]%elem_of_cons]; apply H2; tauto.
      * intros l Hl. destruct (H3 l Hl) as [?|(Hu & ?)]; [by left|].
        right. split; [by right|done].
    + match goal with
      | |- context [add_urls _ _ _ ?a] => destruct (IH a) as (H1 & H2 & H3)
      end.
      cbv zeta in H1, H2, H3. cbn [fst snd] in *.
      split; [|split].
      * intros Hnd Hset. apply H1.
        -- rewrite fmap_app. apply NoDup_app. split; [exact Hnd|].
           split; [|apply NoDup_singleton].
           intros u Hu ->%list_elem_of_singleton. apply Hnew. by apply Hset.
        -- intros u. rewrite fmap_app, elem_of_app, elem_of_cons, Hset.
           simpl. rewrite list_elem_of_singleton. tauto.
      * intros u Hu. apply H2. rewrite elem_of_cons.
        destruct Hu as [?|[->|?]%elem_of_cons]; tauto.
      * intros l Hl. destruct (H3 l Hl) as [Hl'|(Hu & ?)].
        -- apply elem_of_app in Hl' as [?|Hl'']; [by left|].
           apply list_elem_of_singleton in Hl'' as ->.
           right. simpl. split; [left|done].
        -- right. split; [by right|done].
Qed.

Lemma links_from_spec (rows : list link_row) (acc : list jsstring * list link) :
  NoDup (l_url <$> acc.2) -> (forall u, u ∈ acc.1 <-> u ∈ l_url <$> acc.2) ->
  exists links,
    links_from parseBuffer getDisplayName rows acc = Normal links
    /\ NoDup (l_url <$> links)
    /\ (forall u, u ∈ acc.1 -> u ∈ l_url <$> links)
    /\ (forall row text u,
          row ∈ rows ->
          Text.getMessageText parseBuffer
            {| Text.row_text := lr_text row;
               Text.row_attributedBody := lr_attributedBody row |} = Normal text ->
          u ∈ extractUrls text -> u ∈ l_url <$> links)
    /\ (forall l, l ∈ links ->
          l ∈ acc.2
          \/ exists row text,
               row ∈ rows
               /\ Text.getMessageText parseBuffer
                    {| Text.row_text := lr_text row;
                       Text.row_attributedBody := lr_attributedBody row |}
                  = Normal text
               /\ l_url l ∈ extractUrls text
               /\ l_date l = convertMacTime (lr_date row)
               /\ l_contact l = getDisplayName (lr_contact_identifier row)
               /\ l_is_from_me l = lr_is_from_me row).
Proof.
  revert acc. induction rows as [|row rows IH]; intros acc Hnd Hset.
  - exists acc.2. split; [reflexivity|]. split; [exact Hnd|].
    split; [by intros u ?%Hset|]. split; [by intros ? ? ? ?%elem_of_nil|].
    intros l Hl. by left.
  - cbn [links_from].
    destruct (getMessageText_normal
                {| Text.row_text := lr_text row;
                   Text.row_attributedBody := lr_attributedBody row |})
      as [text Htext].
    rewrite Htext. cbn [cbind].
    destruct (add_urls_spec row (extractUrls text) acc) as (H1 & H2 & H3).
    cbv zeta in H1, H2, H3. destruct (H1 Hnd Hset) as [Hnd' Hset'].
    destruct (IH _ Hnd' Hset') as (links & Hrun & Hnd'' & Hseen & Hall & Hfrom).
    exists links. split; [exact Hrun|]. split; [exact Hnd''|].
    split; [|split].
    + intros u Hu. apply Hseen, H2. by left.
    + intros row' text' u [->|Hrow]%elem_of_cons Ht Hu.
      * rewrite Htext in Ht. injection Ht as <-. apply Hseen, H2. by right.
      * by eapply Hall.
    + intros l Hl. destruct (Hfrom l Hl) as [Hl'|(row' & text' & Hrow & ?)].
      * destruct (H3 l Hl') as [?|(Hu & ?)]; [by left|].
        right. exists row, text. split; [left|done].
      * right. exists row', text'. split; [by right|done].
Qed.

(** X25 -- [extractLinksFromRows] never throws and lists every URL of the
    rows exactly once: each URL that [extractUrls] finds in the text of a
    row is the URL of one link, no two links have the same URL, and each
    link carries the date, the contact and the direction of a row whose
    text holds its URL. *)
Theorem extractLinksFromRows_unique (rows : list link_row) :
  exists links,
    extractLinksFromRows parseBuffer getDisplayName rows = Normal links
    /\ NoDup (l_url <$> links)
    /\ (forall row text u,
          row ∈ rows ->
          Text.getMessageText parseBuffer
            {| Text.row_text := lr_text row;
               Text.row_attributedBody := lr_attributedBody row |} = Normal text ->
          u ∈ extractUrls text -> u ∈ l_url <$> links)
    /\ (forall l, l ∈ links ->
          exists row text,
            row ∈ rows
            /\ Text.getMessageText parseBuffer
                 {| Text.row_text := lr_text row;
                    Text.row_attributedBody := lr_attributedBody row |}
               = Normal text
            /\ l_url l ∈ extractUrls text
            /\ l_date l = convertMacTime (lr_date row)
            /\ l_contact l = getDisplayName (lr_contact_identifier row)
            /\ l_is_from_me l = lr_is_from_me row).
Proof.
  destruct (links_from_spec rows ([], [])) as (links & Hrun & Hnd & _ & Hall & Hfrom).
  { constructor. }
  { intros u. simpl. tauto. }
  exists links. split; [exact Hrun|]. split; [exact Hnd|]. split; [exact Hall|].
  intros l Hl. destruct (Hfrom l Hl) as [[]%elem_of_nil|H]. exact H.
Qed.

End LinkProps.

Example links_of_two_messages :
  Links.extractLinksFromRows magic_only_parser (fun _ => lit "Alice")
    LinkRef.two_link_rows
  = Normal
      [ {| Links.l_url := lit "https://a.example/x"; Links.l_date := Some 978307200002;
           Links.l_contact := lit "Alice"; Links.l_is_from_me := 0 |};
        {| Links.l_url := lit "https://b.example"; Links.l_date := Some 978307200002;
           Links.l_contact := lit "Alice"; Links.l_is_from_me := 0 |} ].
Proof. vm_compute. reflexivity. Qed.

(** ** Attachments and the preview of the last message *)

Example should_detect_attachment_types :
  Attachments.getAttachmentType ContactRef.ascii_lower (Some (lit "image/jpeg"))
    (Some (lit "file.bin")) = Attachments.image
  /\ Attachments.getAttachmentType ContactRef.ascii_lower (Some []) (Some (lit "photo.JPEG"))
     = Attachments.image
  /\ Attachments.getAttachmentType ContactRef.ascii_lower (Some []) (Some (lit "photo.heic"))
     = Attachments.image
  /\ Attachments.getAttachmentType ContactRef.ascii_lower (Some (lit "video/quicktime"))
       (Some (lit "file.bin")) = Attachments.video
  /\ Attachments.getAttachmentType ContactRef.ascii_lower (Some []) (Some (lit "video.m4v"))
     = Attachments.video
  /\ Attachments.getAttachmentType ContactRef.ascii_lower (Some (lit "audio/mpeg"))
       (Some (lit "file.bin")) = Attachments.audio
  /\ Attachments.getAttachmentType ContactRef.ascii_lower (Some []) (Some (lit "audio.wav"))
     = Attachments.audio
  /\ Attachments.getAttachmentType ContactRef.ascii_lower (Some (lit "application/pdf"))
       (Some (lit "doc.pdf")) = Attachments.other
  /\ Attachments.getAttachmentType ContactRef.ascii_lower (Some [])
       (Some (lit "document.docx")) = Attachments.other
  /\ Attachments.getAttachmentType ContactRef.ascii_lower None None = Attachments.other
  /\ Attachments.getAttachmentType ContactRef.ascii_lower (Some [])
       (Some (lit "pluginPayloadAttachment123.bin")) = Attachments.link_preview.
Proof. repeat split; vm_compute; reflexivity. Qed.

Example attachment_preview_counts :
  Conversations.formatAttachmentPreview ContactRef.ascii_lower
    [ {| Conversations.mime_type := Some (lit "image/png");
         Conversations.filename := None |};
      {| Conversations.mime_type := None;
         Conversations.filename := Some (lit "b.JPG") |};
      {| Conversations.mime_type := Some (lit "audio/mpeg");
         Conversations.filename := None |} ]
  = Some (lit "Attachment: 2 Photos, 1 Audio")
  /\ Conversations.formatAttachmentPreview ContactRef.ascii_lower
       [ {| Conversations.mime_type := None;
            Conversations.filename := Some (lit "x.pluginPayloadAttachment") |} ]
     = None.
Proof. split; vm_compute; reflexivity. Qed.

Section PreviewProps.
Import Unicode Conversations.

Variable parseBuffer : buffer -> completion (list Text.plist).
Variable toLowerCase : jsstring -> jsstring.

Lemma formatAttachmentPreview_nonempty (attachments : list attachment_row)
    (preview : jsstring) :
  formatAttachmentPreview toLowerCase attachments = Some preview ->
  exists rest, preview = lit "Attachment: " ++ rest.
Proof.
  unfold formatAttachmentPreview. destruct attachments as [|a l]; [discriminate|].
  cbv zeta.
  match goal with
  | |- match ?parts with [] => None | _ :: _ => _ end = _ -> _ =>
      destruct parts
  end; [discriminate|].
  intros [= <-]. by eexists.
Qed.

Lemma hasVisibleText_truthy (text : option jsstring) :
  hasVisibleText text = true ->
  truthy_str text = true /\ truthy_str (Some (cleanText text)) = true.
Proof.
  unfold hasVisibleText, Text.str_length. intros H%Z.ltb_lt.
  destruct text as [[|c t]|]; [simpl in H; lia| |simpl in H; lia].
  split; [reflexivity|]. apply truthy_nonempty. intros Hnil. rewrite Hnil in H.
  simpl in H. lia.
Qed.

(** X26 -- The preview of a conversation's last message is never empty and
    [getLastMessagePreview] writes nothing.  A text with visible
    characters is previewed by its cleaned form without any database call;
    otherwise the preview is the cleaned text recovered from the blob, or
    the summary of the attachments, or [[Media]]; and only a failing
    database call makes it throw. *)
Theorem preview_never_empty (mdb : media_db) (messageId : option Z)
    (text : option jsstring) (attributedBody : option buffer) (w : world) :
  let out := getLastMessagePreview parseBuffer toLowerCase mdb messageId text
               attributedBody w in
  idb out.2 = idb w
  /\ (forall preview, out.1 = Normal preview -> preview <> [])
  /\ (hasVisibleText text = true -> out = (Normal (cleanText text), w))
  /\ (fault w = None -> exists preview, out = (Normal preview, w)).
Proof.
  intros out.
  assert (hasVisibleText text = true -> out = (Normal (cleanText text), w)) as Hvis.
  { intros [Ht Hc]%hasVisibleText_truthy. unfold out, getLastMessagePreview.
    rewrite Ht, Hc. cbn [negb orb].
    unfold mbind, M_bind, bind, ret. by rewrite Hc. }
  destruct (negb (truthy_str text) || negb (truthy_str (Some (cleanText text))))
    eqn:Hcond.
  2:{ apply orb_false_iff in Hcond as [_ Hc%negb_false_iff].
      assert (hasVisibleText text = true) as Hv.
      { unfold hasVisibleText, Text.str_length. apply Z.ltb_lt.
        destruct (cleanText text); [discriminate|simpl; lia]. }
      rewrite (Hvis Hv). cbn [fst snd]. split; [reflexivity|].
      split; [|split; [done|by eexists]].
      intros preview [= <-]. by apply truthy_nonempty. }
  destruct (getMessageText_normal parseBuffer
              {| Text.row_text := text; Text.row_attributedBody := attributedBody |})
    as [recovered Hrec].
  assert (out = (if truthy_str (Some (cleanText recovered))
                 then ret (cleanText recovered)
                 else match messageId with
                      | Some id =>
                          if negb (id =? 0) then
                            (tick ≫= fun _ => ret (attachments_of mdb id)) ≫=
                            fun attachments =>
                              match formatAttachmentPreview toLowerCase attachments with
                              | Some ((_ :: _) as preview) => ret preview
                              | _ => ret (lit "[Media]")
                              end
                          else ret (lit "[Media]")
                      | None => ret (lit "[Media]")
                      end) w) as ->.
  { unfold out, getLastMessagePreview. rewrite Hcond.
    unfold mbind at 1. unfold M_bind at 1. unfold bind at 1. unfold lift.
    by rewrite Hrec. }
  split; [|split; [|split; [exact Hvis|]]].
  - destruct (truthy_str (Some (cleanText recovered))); [reflexivity|].
    destruct messageId as [id|]; [|reflexivity].
    destruct (negb (id =? 0)); [|reflexivity].
    unfold mbind, M_bind, bind, tick, ret. destruct w as [d [[|n]|]]; simpl;
      try reflexivity;
      destruct (formatAttachmentPreview toLowerCase (attachments_of mdb id))
        as [[|c p]|]; reflexivity.
  - intros preview.
    destruct (truthy_str (Some (cleanText recovered))) eqn:Hr.
    { intros [= <-]. by apply truthy_nonempty. }
    destruct messageId as [id|]; [|by intros [= <-]].
    destruct (negb (id =? 0)); [|by intros [= <-]].
    unfold mbind, M_bind, bind, tick, ret. destruct w as [d [[|n]|]]; simpl;
      try discriminate;
      destruct (formatAttachmentPreview toLowerCase (attachments_of mdb id))
        as [[|c p]|]; by intros [= <-].
  - intros Hf. destruct w as [d f]. simpl in Hf. subst f.
    destruct (truthy_str (Some (cleanText recovered))); [by eexists|].
    destruct messageId as [id|]; [|by eexists].
    destruct (negb (id =? 0)); [|by eexists].
    unfold mbind, M_bind, bind, tick, ret. simpl.
    destruct (formatAttachmentPreview toLowerCase (attachments_of mdb id))
      as [[|c p]|]; by eexists.
Qed.

End PreviewProps.

Lemma extractLinksFromRows_unique_witness :
  exists links,
    Links.extractLinksFromRows magic_only_parser (fun _ => lit "Alice")
      LinkRef.two_link_rows = Normal links
    /\ NoDup (Links.l_url <$> links)
    /\ lit "https://a.example/x" ∈ Links.l_url <$> links.
Proof.
  destruct (extractLinksFromRows_unique magic_only_parser (fun _ => lit "Alice")
              LinkRef.two_link_rows) as (links & Hrun & Hnd & Hall & _).
  exists links. split; [exact Hrun|]. split; [exact Hnd|].
  apply (Hall {| Links.lr_text := Some (lit "old: https://a.example/x");
                 Links.lr_attributedBody := None; Links.lr_date := Some 1000000;
                 Links.lr_is_from_me := 1; Links.lr_contact_identifier := None |}
              (Some (lit "old: https://a.example/x"))).
  - right. left.
  - vm_compute. reflexivity.
  - vm_compute. left.
Defined.

Lemma preview_never_empty_witness :
  Unicode.hasVisibleText (Some (lit " ok ")) = true
  /\ Conversations.getLastMessagePreview magic_only_parser ContactRef.ascii_lower
       {| Conversations.attachment := []; Conversations.message_attachment_join := [] |}
       (Some 1) (Some (lit " ok ")) None (world_of fresh (Some 0%nat))
     = (Normal (Unicode.cleanText (Some (lit " ok "))), world_of fresh (Some 0%nat)).
Proof.
  assert (Unicode.hasVisibleText (Some (lit " ok ")) = true) as Hv
    by (vm_compute; reflexivity).
  split; [exact Hv|].
  destruct (preview_never_empty magic_only_parser ContactRef.ascii_lower
              {| Conversations.attachment := [];
                 Conversations.message_attachment_join := [] |}
              (Some 1) (Some (lit " ok ")) None (world_of fresh (Some 0%nat)))
    as (_ & _ & Hvis & _).
  exact (Hvis Hv).
Defined.

Example preview_of_a_photo :
  (Conversations.getLastMessagePreview magic_only_parser ContactRef.ascii_lower
     {| Conversations.attachment :=
          [(5, {| Conversations.mime_type := Some (lit "image/heic");
                  Conversations.filename := Some (lit "IMG_1.HEIC") |})];
        Conversations.message_attachment_join := [(1, 5)] |}
     (Some 1) (Some [0xFFFC]) None (world_of fresh None)).1
  = Normal (lit "Attachment: 1 Photo")
  /\ (Conversations.getLastMessagePreview magic_only_parser ContactRef.ascii_lower
        {| Conversations.attachment := []; Conversations.message_attachment_join := [] |}
        (Some 1) (Some [0xFFFC]) None (world_of fresh None)).1
     = Normal (lit "[Media]").
Proof. split; vm_compute; reflexivity. Qed.

Lemma cleanExtractedText_cleaned_witness :
  head (Text.cleanExtractedText ([0xFFFC; 10] ++ lit " hi " ++ [0xFFFC])) = Some 104
  /\ is_whitespace 104 = false.
Proof.
  assert (head (Text.cleanExtractedText ([0xFFFC; 10] ++ lit " hi " ++ [0xFFFC]))
          = Some 104) as Hh by (vm_compute; reflexivity).
  split; [exact Hh|].
  destruct (cleanExtractedText_cleaned ([0xFFFC; 10] ++ lit " hi " ++ [0xFFFC]))
    as (_ & _ & Hhead & _).
  exact (Hhead 104 Hh).
Defined.

Lemma index_only_grows_witness :
  let d := idb (indexNewMessages magic_only_parser spec_example 1
                  (world_of fresh None)).2 in
  is_Some (message_text (current d) !! 1)
  /\ is_Some (message_text
                (current (idb (indexNewMessages magic_only_parser spec_example 5
                                 (world_of d (Some 3%nat))).2)) !! 1).
Proof.
  intros d.
  assert (is_Some (message_text (current d) !! 1)) as H1.
  { vm_compute. eexists. reflexivity. }
  split; [exact H1|].
  destruct (index_only_grows magic_only_parser spec_example 5 d (Some 3%nat))
    as [Hkeep _].
  exact (Hkeep 1 H1).
Defined.

Lemma stored_texts_trimmed_witness :
  let t := current (run_calls magic_only_parser [(spec_example, 5000, None)] fresh) in
  message_text t !! 1
  = Some {| e_text := lit "hi there"; e_date := Some 10; e_chat_id := 7 |}
  /\ lit "hi there" <> []
  /\ trim (lit "hi there") = lit "hi there".
Proof.
  intros t.
  assert (message_text t !! 1
          = Some {| e_text := lit "hi there"; e_date := Some 10; e_chat_id := 7 |})
    as H1 by (vm_compute; reflexivity).
  split; [exact H1|].
  destruct (stored_texts_trimmed magic_only_parser [(spec_example, 5000, None)])
    as [Hall _].
  exact (Hall 1 _ H1).
Defined.

Lemma long_query_trim :
  trim (Route.text_of (Express.param_q Route.long_query))
  = Route.text_of (Express.param_q Route.long_query).
Proof.
  apply trim_id; intros c Hc; vm_compute in Hc; by injection Hc as <-.
Defined.


(** Over an empty index SQLite never looks at the pattern: the long query
    finds nothing and is answered as such. *)
Example long_query_on_empty_index :
  Express.handler raw_identifier contacts_a chats_abc Route.long_query
    (world_of fresh None)
  = (Normal (SearchRoute.Json [] 1 20 0), world_of fresh None).
Proof.
  rewrite (handler_strings raw_identifier contacts_a chats_abc Route.long_query
             (world_of fresh None) eq_refl eq_refl).
  rewrite long_query_trim. cbn [truthy_str Route.text_of Route.long_query
                                 Express.param_q negb].
  rewrite answer_nofault by (vm_compute; reflexivity).
  vm_compute. reflexivity.
Qed.

(** [GET /search?q=hello&contacts=A&contacts=B]: the handler throws at
    [req.query.contacts.split], whatever call would fail. *)
Example repeated_contacts_throws :
  Express.handler raw_identifier contacts_a chats_abc
    {| Express.param_q := Some (Express.QString (lit "hello"));
       Express.param_limit := None; Express.param_page := None;
       Express.param_contacts := Some (Express.QArray [lit "A"; lit "B"]) |}
    (world_of index_abc (Some 0%nat))
  = (Throw TypeError, world_of index_abc (Some 0%nat)).
Proof. reflexivity. Qed.

(** A query with U+0000: SQLite reads the pattern [%a] and finds the text
    that ends with [a] before its own U+0000, not the text that holds the
    query. *)
Example like_stops_at_nul :
  let t := {| message_text :=
                <[1 := {| e_text := [97; 0; 98]; e_date := Some 3; e_chat_id := 1 |}]>
                (<[2 := {| e_text := [120; 97]; e_date := Some 2; e_chat_id := 1 |}]>
                (<[3 := {| e_text := [97; 98; 0; 99]; e_date := Some 1; e_chat_id := 1 |}]>
                 ∅));
              index_metadata := ∅ |} in
  r_message_id <$> search_rows [97; 0; 98] 10000 t = [1; 2]
  /\ r_message_id <$> search_rows [98] 10000 t = [3]
  /\ r_message_id <$> search_rows [99] 10000 t = [].
Proof. repeat split; vm_compute; reflexivity. Qed.

(** ** Building again *)

Section Rebuild.

Variable parseBuffer : buffer -> completion (list Text.plist).
Variable src : source_db.
Hypothesis rowid_unique : NoDup (ROWID <$> message src).

Lemma pending_nil_batch_nil (batchSize : Z) (t : tables) :
  pending src t = [] -> batch_of src batchSize t = [].
Proof.
  intros Hp. unfold batch_of, select_new_messages.
  change (filter (fun r => cursor_of t < message_id r) (join_messages src))
    with (pending src t).
  by rewrite Hp, order_by_nil, limit_nil.
Qed.

Lemma buildIndex_nothing_pending (d : index_db) :
  pending src (current d) = [] ->
  buildIndex parseBuffer src (world_of d None) = (Normal (Some 0), world_of d None).
Proof.
  intros Hp. unfold buildIndex.
  rewrite (bind_run _ _ _ _ _ (initializeSchema_nofault d)).
  cbn [index_loop].
  rewrite (bind_run _ _ _ _ _
             (indexNewMessages_nothing parseBuffer src 5000 d
                (pending_nil_batch_nil 5000 (current d) Hp))).
  reflexivity.
Qed.

(** X28 -- Building twice.  After a build that no failure interrupts, a
    second build on the same message store visits no message, returns 0
    and leaves the index store exactly as the first build left it. *)
Theorem second_build_does_nothing (d : index_db) :
  txn d = None ->
  consistent parseBuffer src (current d) ->
  exists total d',
    buildIndex parseBuffer src (world_of d None)
    = (Normal (Some total), world_of d' None)
    /\ buildIndex parseBuffer src (world_of d' None)
       = (Normal (Some 0), world_of d' None).
Proof.
  intros Ht Hc.
  destruct (buildIndex_catches_up parseBuffer src rowid_unique d Ht Hc)
    as (total & d' & Hrun & _ & _ & Hp).
  exists total, d'. split; [exact Hrun|]. by apply buildIndex_nothing_pending.
Qed.

End Rebuild.

Lemma second_build_does_nothing_witness :
  txn fresh = None
  /\ consistent magic_only_parser spec_example (current fresh)
  /\ exists total d',
       buildIndex magic_only_parser spec_example (world_of fresh None)
       = (Normal (Some total), world_of d' None)
       /\ buildIndex magic_only_parser spec_example (world_of d' None)
          = (Normal (Some 0), world_of d' None).
Proof.
  assert (consistent magic_only_parser spec_example (current fresh)) as Hc.
  { apply fresh_consistent. repeat constructor. }
  split; [reflexivity|]. split; [exact Hc|].
  exact (second_build_does_nothing magic_only_parser spec_example spec_example_rowids
           fresh eq_refl Hc).
Defined.
